(** * The coba benchmark pipeline (coba/benchmarks/tasks.py) and the data
    filters (coba/data/filters.py)

    Task generation, the completion filter, the grouping stage and the
    evaluation engine, and the filters of the data pipelines, embedded as
    executable definitions, with their properties proved about them. *)

From Stdlib Require Import ZArith List Bool Lia SpecFloat Sorting.Sorted.
From Stdlib Require Import QArith Qabs Qpower Lqa.
From stdpp Require Import base option list gmap strings.
Import ListNotations.
Local Open Scope Z_scope.

(** ** Python values the pipeline relies on *)

(** Exceptions.  Everything but the last three constructors is a subclass of
    [Exception]; the last three derive from [BaseException] only, so an
    [except Exception] clause lets them through. *)
Inductive exn : Type :=
| AssertionError
| AttributeError
| StatisticsError
| ValueError
| OverflowError
| IndexError
| StopIteration
| RuntimeError
| OtherException (tag : Z)
| KeyboardInterrupt
| SystemExit
| GeneratorExit.

Definition is_Exception (e : exn) : bool :=
  match e with
  | KeyboardInterrupt | SystemExit | GeneratorExit => false
  | _ => true
  end.

Definition is_AttributeError (e : exn) : bool :=
  match e with AttributeError => true | _ => false end.

(** An exception on its way out of the body of a generator: a
    [StopIteration] that would leave the body is replaced by a
    [RuntimeError] (PEP 479, the rule from Python 3.7 on); every other
    exception leaves as it is. *)
Definition leaving_generator (e : exn) : exn :=
  match e with
  | StopIteration => RuntimeError
  | _ => e
  end.

(** A call either returns a value or raises. *)
Inductive result (A : Type) : Type :=
| Ok (a : A)
| Raise (e : exn).
Arguments Ok {A} a.
Arguments Raise {A} e.

Definition is_Ok {A} (r : result A) : bool :=
  match r with Ok _ => true | Raise _ => false end.

Definition result_bind {A B} (r : result A) (k : A -> result B) : result B :=
  match r with
  | Ok a => k a
  | Raise e => Raise e
  end.

(** [[f(x) for x in xs]]: the comprehension stops at the first element
    whose evaluation raises. *)
Fixpoint result_map {A B} (f : A -> result B) (xs : list A) : result (list B) :=
  match xs with
  | [] => Ok []
  | x :: xs' =>
      match f x with
      | Raise e => Raise e
      | Ok y =>
          match result_map f xs' with
          | Raise e => Raise e
          | Ok ys => Ok (y :: ys)
          end
      end
  end.

(** *** Floats

    A Python [float] is an IEEE 754 binary64 number; the operations are the
    ones of the standard library's specification of binary64 arithmetic
    (round to nearest, ties to even). *)
Module Float.

Definition prec : Z := 53.
Definition emax : Z := 1024.

Definition float : Type := spec_float.

Definition add : float -> float -> float := SFadd prec emax.
Definition sub : float -> float -> float := SFsub prec emax.
Definition div : float -> float -> float := SFdiv prec emax.
Definition abs : float -> float := SFabs.
Definition ltb : float -> float -> bool := SFltb.

Definition is_finite (x : float) : bool :=
  match x with
  | S754_zero _ | S754_finite _ _ _ => true
  | _ => false
  end.

(** [n / d] on Python integers, and the value of a decimal literal or of
    [float(Fraction(n, d))]: the quotient correctly rounded. *)
Definition of_ratio (n : Z) (d : positive) : float :=
  match n with
  | Z0 => S754_zero false
  | Zpos p => div (S754_finite false p 0) (S754_finite false d 0)
  | Zneg p => div (S754_finite true p 0) (S754_finite false d 0)
  end.

Definition of_Z (n : Z) : float := of_ratio n 1.

(** [m * 2^e / d], correctly rounded. *)
Definition of_scaled_ratio (m e : Z) (d : positive) : float :=
  match m with
  | Z0 => S754_zero false
  | Zpos p => div (S754_finite false p e) (S754_finite false d 0)
  | Zneg p => div (S754_finite true p e) (S754_finite false d 0)
  end.

(** [int(x)]: truncation toward zero. *)
Definition to_int (x : float) : result Z :=
  match x with
  | S754_zero _ => Ok 0
  | S754_finite s m e =>
      let a := match e with
               | Zneg k => Z.shiftr (Zpos m) (Zpos k)
               | _ => Z.shiftl (Zpos m) e
               end in
      Ok (if s then - a else a)
  | S754_infinity _ => Raise OverflowError
  | S754_nan => Raise ValueError
  end.

(** [sum(xs)] on a list of floats: plain additions, left to right, from the
    integer [0]. *)
Definition sum (xs : list float) : float :=
  fold_left add xs (S754_zero false).

(** The exact value of a finite float as [m * 2^e]. *)
Definition exact (x : float) : Z * Z :=
  match x with
  | S754_finite s m e => (if s then Zneg m else Zpos m, e)
  | _ => (0, 0)
  end.

(** The exact sum of finite floats, as an integer multiple of [2^e] for
    the least exponent [e] of the list. *)
Definition min_exponent (xs : list float) : Z :=
  fold_right (fun x acc => Z.min (snd (exact x)) acc) 0 xs.

Definition exact_sum (xs : list float) : Z * Z :=
  let e := min_exponent xs in
  (fold_right (fun x acc => let '(m, ex) := exact x in Z.shiftl m (ex - e) + acc) 0 xs, e).

(** [statistics.mean]: the exact rational mean converted to the nearest
    float; a list holding an infinity or a NaN gives the float sum of its
    non-finite entries divided by the count; no data is an error. *)
Definition mean (xs : list float) : result float :=
  match xs with
  | [] => Raise StatisticsError
  | _ :: _ =>
      let n := Pos.of_nat (length xs) in
      if forallb is_finite xs
      then let '(m, e) := exact_sum xs in Ok (of_scaled_ratio m e n)
      else Ok (div (sum (List.filter (fun x => negb (is_finite x)) xs)) (of_Z (Zpos n)))
  end.

(** Nearest integer to [a / 2^k], ties to the even one. *)
Definition round_half_even_shift (a : Z) (k : Z) : Z :=
  let q := Z.shiftr a k in
  let r := a - Z.shiftl q k in
  let half := Z.shiftl 1 (k - 1) in
  if r <? half then q
  else if half <? r then q + 1
  else if Z.even q then q else q + 1.

(** [round(x, ndigits)] for [0 <= ndigits]: the exact value of [x] is
    rounded to [ndigits] decimal places, ties to even, and the decimal
    number read back as the nearest float. *)
Definition round (x : float) (ndigits : Z) : float :=
  match x with
  | S754_finite s m (Zneg k) =>
      let scale := 10 ^ ndigits in
      let q := round_half_even_shift (Zpos m * scale) (Zpos k) in
      match q with
      | Zpos p => div (S754_finite s p 0) (S754_finite false (Z.to_pos scale) 0)
      | _ => S754_zero s
      end
  | _ => x
  end.

End Float.

Abbreviation float := Float.float.

(** Float literals of the source and of the examples. *)
Definition f_1 : float := Float.of_Z 1.
Definition f_0_0001 : float := Float.of_ratio 1 10000.

(** *** [statistics.median] and [int]

    [median] sorts its data; an odd count gives the middle element, an even
    count the mean of the two middle elements as a float. *)
Inductive number : Type :=
| PyInt (z : Z)
| PyFloat (x : float).

Definition py_int (v : number) : result Z :=
  match v with
  | PyInt z => Ok z
  | PyFloat x => Float.to_int x
  end.

(** [sorted(l, key=key)]: the sort is stable, so an element goes before the
    first element whose key is not smaller. *)
Fixpoint insert_by {A} (key : A -> Z) (x : A) (l : list A) : list A :=
  match l with
  | [] => [x]
  | y :: l' => if key x <=? key y then x :: l else y :: insert_by key x l'
  end.

Definition sorted {A} (key : A -> Z) (l : list A) : list A :=
  fold_right (insert_by key) [] l.

Definition median (data : list Z) : result number :=
  let data := sorted id data in
  let n := length data in
  if Nat.eqb n 0 then Raise StatisticsError
  else if Nat.eqb (n mod 2)%nat 1 then Ok (PyInt (nth (n / 2)%nat data 0))
  else let i := (n / 2)%nat in
       Ok (PyFloat (Float.of_ratio (nth (i - 1)%nat data 0 + nth i data 0) 2)).

(** [int(median(data))] *)
Definition int_median (data : list Z) : result Z :=
  result_bind (median data) py_int.

(** [itertools.groupby(l, key)]: maximal runs of consecutive elements with
    equal keys, each with the key of its first element.  The keys compared
    here are integers and object identities, on which [==] is an
    equivalence, so comparing with the next element's key is comparing with
    the key of the run. *)
Fixpoint groupby {A K} (key : A -> K) (eqb : K -> K -> bool) (l : list A)
  : list (K * list A) :=
  match l with
  | [] => []
  | x :: l' =>
      match groupby key eqb l' with
      | (k, g) :: gs =>
          if eqb (key x) k then (key x, x :: g) :: gs
          else (key x, [x]) :: (k, g) :: gs
      | [] => [(key x, [x])]
      end
  end.

(** ** Interactions, simulations and learners *)

(** The identity of a Python object. *)
Definition obj_id : Type := nat.

Definition Key : Type := Z.
Definition Action : Type := Z.

(** A context is [None], a tuple, or any other hashable value. *)
Inductive Context : Type :=
| CNone
| CTuple (items : list Z)
| COther (v : Z).

Record Interaction : Type := {
  key : Key;
  context : Context;
  actions : list Action
}.

(** The reward function of a simulation: [reward.observe(choices)]. *)
Record Reward : Type := {
  observe : list (Key * Context * Action) -> result (list float)
}.

Inductive Simulation : Type :=
| PlainSimulation (interactions : list Interaction) (reward : Reward)
| BatchedSimulation (interaction_batches : list (list Interaction)) (reward : Reward).

Definition reward (s : Simulation) : Reward :=
  match s with
  | PlainSimulation _ r => r
  | BatchedSimulation _ r => r
  end.

(** A caller-supplied learner: an object with a state of its own and the
    methods [init], [predict] and [learn], each of which may change the
    state and may raise.  A learner without [init] raises [AttributeError]
    there. *)
Record Learner : Type := {
  LState : Type;
  learner_state : LState;
  learner_init : LState -> result unit * LState;
  learner_predict :
    LState -> Key -> Context -> list Action -> result (list float) * LState;
  learner_learn :
    LState -> Key -> Context -> Action -> float -> float -> result unit * LState
}.

Definition with_state (l : Learner) (s : LState l) : Learner :=
  {| LState := LState l;
     learner_state := s;
     learner_init := learner_init l;
     learner_predict := learner_predict l;
     learner_learn := learner_learn l |}.

(** [CobaRandom]: a random stream; [choice(seq, weights)] draws one element
    and advances the stream. *)
Record CobaRandom : Type := {
  Rng : Type;
  rng_state : Rng;
  rng_choice :
    Rng -> list (Action * float) -> list float -> result (Action * float) * Rng
}.

Definition with_rng (r : CobaRandom) (s : Rng r) : CobaRandom :=
  {| Rng := Rng r; rng_state := s; rng_choice := rng_choice r |}.

(** *** BenchmarkTask.BenchmarkTaskLearner *)
Record BenchmarkTaskLearner : Type := {
  _learner : Learner;
  _random : CobaRandom
}.

Definition set_learner (b : BenchmarkTaskLearner) (s : LState (_learner b))
  : BenchmarkTaskLearner :=
  {| _learner := with_state (_learner b) s; _random := _random b |}.

Definition init (b : BenchmarkTaskLearner) : result unit * BenchmarkTaskLearner :=
  let '(r, s) := learner_init (_learner b) (learner_state (_learner b)) in
  match r with
  | Ok _ => (Ok tt, set_learner b s)
  | Raise e =>
      if is_AttributeError e then (Ok tt, set_learner b s)
      else (Raise e, set_learner b s)
  end.

Definition predict (b : BenchmarkTaskLearner) (k : Key) (c : Context)
    (acts : list Action) : result (list float) * BenchmarkTaskLearner :=
  let '(r, s) := learner_predict (_learner b) (learner_state (_learner b)) k c acts in
  (r, set_learner b s).

Definition learn (b : BenchmarkTaskLearner) (k : Key) (c : Context) (a : Action)
    (rwd prob : float) : result unit * BenchmarkTaskLearner :=
  let '(r, s) := learner_learn (_learner b) (learner_state (_learner b)) k c a rwd prob in
  (r, set_learner b s).

(** [abs(sum(p) - 1) < .0001] *)
Definition valid_probabilities (p : list float) : bool :=
  Float.ltb (Float.abs (Float.sub (Float.sum p) f_1)) f_0_0001.

Definition choose (b : BenchmarkTaskLearner) (k : Key) (c : Context)
    (acts : list Action) : result (Action * float) * BenchmarkTaskLearner :=
  let '(r, b1) := predict b k c acts in
  match r with
  | Raise e => (Raise e, b1)
  | Ok p =>
      let cs := combine acts p in
      if valid_probabilities p then
        let '(r', g) := rng_choice (_random b1) (rng_state (_random b1)) cs p in
        (r', {| _learner := _learner b1; _random := with_rng (_random b1) g |})
      else (Raise AssertionError, b1)
  end.

(** ** The online evaluation loop *)

(** The calls [_process_batch] makes, each with what it returned. *)
Inductive call : Type :=
| CallChoose (k : Key) (c : Context) (acts : list Action)
    (ret : result (Action * float))
| CallObserve (choices : list (Key * Context * Action)) (ret : result (list float))
| CallLearn (k : Key) (c : Context) (a : Action) (rwd prob : float)
    (ret : result unit).

(** What the first loop has appended to [keys], [contexts], [actions] and
    [probs] for one interaction. *)
Record Choice : Type := {
  ch_key : Key;
  ch_context : Context;
  ch_action : Action;
  ch_prob : float
}.

Definition triple (c : Choice) : Key * Context * Action :=
  (ch_key c, ch_context c, ch_action c).

(** The first loop of [_process_batch]. *)
Fixpoint choose_loop (learner : BenchmarkTaskLearner) (batch : list Interaction)
  : list call * BenchmarkTaskLearner * result (list Choice) :=
  match batch with
  | [] => ([], learner, Ok [])
  | i :: batch' =>
      let '(r, learner1) := choose learner (key i) (context i) (actions i) in
      let ev := CallChoose (key i) (context i) (actions i) r in
      match r with
      | Raise e => ([ev], learner1, Raise e)
      | Ok (a, p) =>
          let '(tr, learner2, rest) := choose_loop learner1 batch' in
          let c := {| ch_key := key i; ch_context := context i;
                      ch_action := a; ch_prob := p |} in
          (ev :: tr, learner2,
           match rest with Ok cs => Ok (c :: cs) | Raise e => Raise e end)
      end
  end.

(** The second loop: [zip] stops at the shorter of the choices and the
    rewards. *)
Fixpoint learn_loop (learner : BenchmarkTaskLearner) (items : list (Choice * float))
  : list call * BenchmarkTaskLearner * result unit :=
  match items with
  | [] => ([], learner, Ok tt)
  | (c, rwd) :: items' =>
      let '(r, learner1) :=
        learn learner (ch_key c) (ch_context c) (ch_action c) rwd (ch_prob c) in
      let ev := CallLearn (ch_key c) (ch_context c) (ch_action c) rwd (ch_prob c) r in
      match r with
      | Raise e => ([ev], learner1, Raise e)
      | Ok _ =>
          let '(tr, learner2, rest) := learn_loop learner1 items' in
          (ev :: tr, learner2, rest)
      end
  end.

(** [round(mean(rewards), 5)] *)
Definition mean_reward (rewards : list float) : result float :=
  result_bind (Float.mean rewards) (fun m => Ok (Float.round m 5)).

Definition process_batch (batch : list Interaction) (learner : BenchmarkTaskLearner)
    (rwd : Reward) : list call * BenchmarkTaskLearner * result float :=
  let '(tr1, learner1, r1) := choose_loop learner batch in
  match r1 with
  | Raise e => (tr1, learner1, Raise e)
  | Ok choices =>
      let r := observe rwd (map triple choices) in
      let ev := CallObserve (map triple choices) r in
      match r with
      | Raise e => (tr1 ++ [ev], learner1, Raise e)
      | Ok rewards =>
          let '(tr2, learner2, r2) := learn_loop learner1 (combine choices rewards) in
          match r2 with
          | Raise e => (tr1 ++ ev :: tr2, learner2, Raise e)
          | Ok _ => (tr1 ++ ev :: tr2, learner2, mean_reward rewards)
          end
      end
  end.

(** [_context_sizes] and [_action_counts] *)
Definition context_size (c : Context) : Z :=
  match c with
  | CNone => 0
  | CTuple items => Z.of_nat (length items)
  | COther _ => 1
  end.

Definition context_sizes (interactions : list Interaction) : list Z :=
  map (fun i => context_size (context i)) interactions.

Definition action_counts (interactions : list Interaction) : list Z :=
  (if Nat.eqb (length interactions) 0 then [0] else [])
  ++ map (fun i => Z.of_nat (length (actions i))) interactions.

(** ** Sources, simulation handles and tasks *)

(** A source of a simulation: an object with an identity and [read()]. *)
Record Source : Type := {
  source_obj : obj_id;
  source_read : result Simulation
}.

Record Filter : Type := {
  apply_filter : Simulation -> result Simulation
}.

Definition IdentityFilter : Filter := {| apply_filter := fun item => Ok item |}.

(** What the caller lists as a simulation: a source, or a
    [Pipe.SourceFilters] joining a source and a filter. *)
Inductive Pipe : Type :=
| PlainSource (s : Source)
| SourceFilters (_source : Source) (_filter : Filter).

(** *** BenchmarkTask.BenchmarkTaskSimulation

    The wrapper is an object of its own, created by [BenchmarkTask]; the
    class defines no [__eq__] and its abstract base [Source] is taken to
    define none, so two wrappers are equal when they are the same object. *)
Record BenchmarkTaskSimulation : Type := {
  wrapper_obj : obj_id;
  _pipe : Pipe
}.

Definition source (s : BenchmarkTaskSimulation) : Source :=
  match _pipe s with
  | SourceFilters src _ => src
  | PlainSource src => src
  end.

Definition filter_of (s : BenchmarkTaskSimulation) : Filter :=
  match _pipe s with
  | SourceFilters _ f => f
  | PlainSource _ => IdentityFilter
  end.

Record BenchmarkTask : Type := {
  src_id : Z;
  sim_id : Z;
  lrn_id : Z;
  simulation : BenchmarkTaskSimulation;
  learner : BenchmarkTaskLearner
}.

(** [enumerate] and [itertools.product] *)
Definition enumerate {A} (l : list A) : list (Z * A) :=
  combine (map Z.of_nat (seq 0 (length l))) l.

Definition product {A B} (l1 : list A) (l2 : list B) : list (A * B) :=
  flat_map (fun a => map (fun b => (a, b)) l2) l1.

(** [defaultdict(lambda x=count(): next(x))]: a missing key is given the
    next value of the counter; the keys are sources, hashed and compared by
    identity. *)
Record SourceIds : Type := {
  ids : gmap obj_id Z;
  counter : Z
}.

Definition SourceIds_new : SourceIds := {| ids := ∅; counter := 0 |}.

Definition SourceIds_get (d : SourceIds) (k : obj_id) : Z * SourceIds :=
  match ids d !! k with
  | Some v => (v, d)
  | None => (counter d, {| ids := <[k := counter d]> (ids d); counter := counter d + 1 |})
  end.

Section TaskGenerator.

(** [CobaRandom(seed)] *)
Variable CobaRandom_new : option Z -> CobaRandom.

(** [BenchmarkTask(src_id, sim_id, lrn_id, simulation, learner, seed)],
    with the identity of the wrapper it creates. *)
Definition BenchmarkTask_new (obj : obj_id) (src sim lrn : Z) (p : Pipe)
    (l : Learner) (seed : option Z) : BenchmarkTask :=
  {| src_id := src; sim_id := sim; lrn_id := lrn;
     simulation := {| wrapper_obj := obj; _pipe := p |};
     learner := {| _learner := l; _random := CobaRandom_new seed |} |}.

(** The loop of [Tasks.read]; [obj] is the identity the next wrapper gets. *)
Fixpoint Tasks_loop (pairs : list ((Z * Pipe) * (Z * Learner)))
    (source_ids : SourceIds) (obj : obj_id) (seed : option Z)
  : list BenchmarkTask :=
  match pairs with
  | [] => []
  | ((sim_id, sim), (lrn_id, lrn)) :: pairs' =>
      let sim_source := match sim with
                        | SourceFilters src _ => src
                        | PlainSource src => src
                        end in
      let '(sid, source_ids') := SourceIds_get source_ids (source_obj sim_source) in
      BenchmarkTask_new obj sid sim_id lrn_id sim lrn seed
        :: Tasks_loop pairs' source_ids' (S obj) seed
  end.

Definition Tasks_read (simulations : list Pipe) (learners : list Learner)
    (seed : option Z) (obj : obj_id) : list BenchmarkTask :=
  Tasks_loop (product (enumerate simulations) (enumerate learners))
    SourceIds_new obj seed.

End TaskGenerator.

(** ** The completion filter *)

(** Modelled from the spec: the restored [Result] of a previous run, which
    is declared outside this file.  [batches] holds the
    [(simulation_id, learner_id)] pairs with a recorded result, and each row
    of [simulations] has the number of batches of a simulation. *)
Record SimulationRow : Type := {
  row_simulation_id : Z;
  row_batch_count : Z
}.

Record Result : Type := {
  simulations : list SimulationRow;
  batches : list (Z * Z)
}.

Definition get_where_batch_count (rows : list SimulationRow) (n : Z)
  : list SimulationRow :=
  List.filter (fun row => row_batch_count row =? n) rows.

Definition in_pairs (p : Z * Z) (l : list (Z * Z)) : bool :=
  existsb (fun q => (fst p =? fst q) && (snd p =? snd q)) l.

Definition in_ints (z : Z) (l : list Z) : bool :=
  existsb (Z.eqb z) l.

Definition is_not_complete (restored : Result) (sim learn_id : Z) : bool :=
  let no_batch_sim_rows := get_where_batch_count (simulations restored) 0 in
  let no_batch_sim_ids := map row_simulation_id no_batch_sim_rows in
  negb (in_pairs (sim, learn_id) (batches restored))
  && negb (in_ints sim no_batch_sim_ids).

Definition Unfinished_filter (restored : Result) (tasks : list BenchmarkTask)
  : list BenchmarkTask :=
  List.filter (fun task => is_not_complete restored (sim_id task) (lrn_id task)) tasks.

(** ** The grouping stage *)

Definition GroupBySource_filter (tasks : list BenchmarkTask)
  : list (list BenchmarkTask) :=
  map snd (groupby src_id Z.eqb (sorted src_id tasks)).

Definition GroupByNone_filter (tasks : list BenchmarkTask)
  : list (list BenchmarkTask) :=
  map (fun task => [task]) tasks.

(** ** The evaluation engine *)

(** [Transaction.batch(sim_id, lrn_id, C=..., A=..., N=..., reward=...)] *)
Record Transaction : Type := {
  t_sim_id : Z;
  t_lrn_id : Z;
  t_C : list Z;
  t_A : list Z;
  t_N : list Z;
  t_reward : list float
}.

(** What the engine does, in order: the calls on sources, filters, learners
    and reward functions, the log entries that matter, and the transactions
    it yields. *)
Inductive event : Type :=
| EvLoadSource (src : Z) (obj : obj_id)
| EvCreateSimulation (sim src : Z)
| EvNothingToEvaluate (sim : Z)
| EvInit (sim lrn : Z) (ret : result unit)
| EvCall (sim lrn : Z) (c : call)
| EvLogException (e : exn)
| EvYield (t : Transaction).

Definition batchify (s : Simulation) : list (list Interaction) :=
  match s with
  | BatchedSimulation bs _ => bs
  | PlainSimulation inters _ => map (fun interaction => [interaction]) inters
  end.

(** [[self._process_batch(batch, learner, simulation.reward) for batch in
    batches]]: the learner is the same object from batch to batch. *)
Fixpoint process_batches (bs : list (list Interaction))
    (l : BenchmarkTaskLearner) (rwd : Reward)
  : list call * BenchmarkTaskLearner * result (list float) :=
  match bs with
  | [] => ([], l, Ok [])
  | batch :: bs' =>
      let '(tr, l1, r) := process_batch batch l rwd in
      match r with
      | Raise e => (tr, l1, Raise e)
      | Ok m =>
          let '(tr', l2, r') := process_batches bs' l1 rwd in
          (tr ++ tr', l2,
           match r' with Ok ms => Ok (m :: ms) | Raise e => Raise e end)
      end
  end.

(** The body of the [try] for one learner, up to the transaction it is
    about to yield. *)
Definition evaluate (sim lrn : Z) (l : BenchmarkTaskLearner)
    (s : Simulation) (bs : list (list Interaction))
  : list event * result Transaction :=
  let '(r0, l0) := init l in
  let ev0 := EvInit sim lrn r0 in
  match r0 with
  | Raise e => ([ev0], Raise e)
  | Ok _ =>
      match result_map (fun batch => int_median (context_sizes batch)) bs with
      | Raise e => ([ev0], Raise e)
      | Ok cs =>
          match result_map (fun batch => int_median (action_counts batch)) bs with
          | Raise e => ([ev0], Raise e)
          | Ok acs =>
              let ns := map (fun batch => Z.of_nat (length batch)) bs in
              let '(tr, _, r) := process_batches bs l0 (reward s) in
              let evs := ev0 :: map (EvCall sim lrn) tr in
              match r with
              | Raise e => (evs, Raise e)
              | Ok ms =>
                  (evs, Ok {| t_sim_id := sim; t_lrn_id := lrn; t_C := cs;
                              t_A := acs; t_N := ns; t_reward := ms |})
              end
          end
      end
  end.

(** The state of a loop when it is left: the events so far, and whether it
    ran to its end or an exception is on its way out. *)
Definition outcome : Type := list event * result unit.

Section Engine.

Variable ignore_raise : bool.

(** The loop over the learners of one simulation.  [indices] is what is
    left of [sorted(range(len(learners)), reverse=True)]; the two lists are
    the pending learners, shortened in the [finally] clause.  Returns the
    two lists as the loop leaves them. *)
Fixpoint learners_loop (sim : Z) (s : Simulation) (bs : list (list Interaction))
    (indices : list nat) (learner_ids : list Z) (learners : list BenchmarkTaskLearner)
  : outcome * (list Z * list BenchmarkTaskLearner) :=
  match indices with
  | [] => (([], Ok tt), (learner_ids, learners))
  | i :: indices' =>
      match learner_ids !! i, learners !! i with
      | Some lrn, Some l =>
          let '(tr, r) := evaluate sim lrn l s bs in
          let learner_ids' := delete i learner_ids in
          let learners' := delete i learners in
          match r with
          | Ok t =>
              let '((tr', r'), pending) :=
                learners_loop sim s bs indices' learner_ids' learners' in
              ((tr ++ EvYield t :: tr', r'), pending)
          | Raise e =>
              if is_Exception e then
                if ignore_raise then
                  let '((tr', r'), pending) :=
                    learners_loop sim s bs indices' learner_ids' learners' in
                  ((tr ++ EvLogException e :: tr', r'), pending)
                else ((tr ++ [EvLogException e], Raise e), (learner_ids', learners'))
              else ((tr, Raise e), (learner_ids', learners'))
          end
      | _, _ => (([], Raise IndexError), (learner_ids, learners))
      end
  end.

Definition reversed_range (n : nat) : list nat := rev (seq 0 n).

(** The loop over the simulations of one source. *)
Fixpoint simulations_loop (src : Z) (loaded_source : Simulation)
    (groups : list ((Z * BenchmarkTaskSimulation) * list BenchmarkTask))
  : outcome :=
  match groups with
  | [] => ([], Ok tt)
  | ((sim, handle), tasks_by_src_sim) :: groups' =>
      let learner_ids := map lrn_id tasks_by_src_sim in
      let learners := map learner tasks_by_src_sim in
      let ev := EvCreateSimulation sim src in
      match apply_filter (filter_of handle) loaded_source with
      | Raise e => ([ev], Raise e)
      | Ok s =>
          let bs := batchify s in
          match bs with
          | [] =>
              let '(tr', r') := simulations_loop src loaded_source groups' in
              (ev :: EvNothingToEvaluate sim :: tr', r')
          | _ :: _ =>
              let '((tr, r), _) :=
                learners_loop sim s bs (reversed_range (length learners))
                  learner_ids learners in
              match r with
              | Raise e => (ev :: tr, Raise e)
              | Ok _ =>
                  let '(tr', r') := simulations_loop src loaded_source groups' in
                  (ev :: tr ++ tr', r')
              end
          end
      end
  end.

Definition grp_sim_eqb (k1 k2 : Z * BenchmarkTaskSimulation) : bool :=
  (fst k1 =? fst k2) && Nat.eqb (wrapper_obj (snd k1)) (wrapper_obj (snd k2)).

Definition grp_src_eqb (k1 k2 : Z * Source) : bool :=
  (fst k1 =? fst k2) && Nat.eqb (source_obj (snd k1)) (source_obj (snd k2)).

(** The loop over the sources. *)
Fixpoint sources_loop (groups : list ((Z * Source) * list BenchmarkTask))
  : outcome :=
  match groups with
  | [] => ([], Ok tt)
  | ((src, src_object), tasks_by_src) :: groups' =>
      let ev := EvLoadSource src (source_obj src_object) in
      match source_read src_object with
      | Raise e => ([ev], Raise e)
      | Ok loaded_source =>
          let '(tr, r) :=
            simulations_loop src loaded_source
              (groupby (fun t => (sim_id t, simulation t)) grp_sim_eqb
                 (sorted sim_id tasks_by_src)) in
          match r with
          | Raise e => (ev :: tr, Raise e)
          | Ok _ =>
              let '(tr', r') := sources_loop groups' in
              (ev :: tr ++ tr', r')
          end
      end
  end.

(** [_process_group]: the loops above inside the outer [try].  The method
    is a generator, so what the handler re-raises leaves it as
    [leaving_generator] has it. *)
Definition process_group (task_group : list BenchmarkTask) : outcome :=
  let '(tr, r) :=
    sources_loop
      (groupby (fun t => (src_id t, source (simulation t))) grp_src_eqb
         (sorted src_id task_group)) in
  match r with
  | Ok _ => (tr, Ok tt)
  | Raise e =>
      if is_Exception e then
        (tr ++ [EvLogException e],
         if ignore_raise then Ok tt else Raise (leaving_generator e))
      else (tr, Raise e)
  end.

(** [Transactions.filter]: the groups are chained into one sequence, which
    is processed as one group. *)
Definition Transactions_filter (task_groups : list (list BenchmarkTask))
  : outcome :=
  process_group (concat task_groups).

End Engine.

(** The transactions a run has yielded. *)
Definition transactions (tr : list event) : list Transaction :=
  flat_map (fun ev => match ev with EvYield t => [t] | _ => [] end) tr.

(** The learners a run has attempted: every attempt starts with [init]. *)
Definition attempts (tr : list event) : list Z :=
  flat_map (fun ev => match ev with EvInit _ lrn _ => [lrn] | _ => [] end) tr.

(** ** Notions the properties are stated with *)

(** *** The task generator *)

(** The identity of the source a task's simulation handle wraps. *)
Definition task_source_obj (t : BenchmarkTask) : obj_id :=
  source_obj (source (simulation t)).

(** The invariant of the dictionary of source ids: the counter is the number
    of keys, the values are below it, and no two keys share a value. *)
Record SourceIds_wf (d : SourceIds) : Prop := {
  wf_counter : counter d = Z.of_nat (size (ids d));
  wf_range : forall k v, ids d !! k = Some v -> 0 <= v < counter d;
  wf_inj : forall k1 k2 v, ids d !! k1 = Some v -> ids d !! k2 = Some v -> k1 = k2
}.

(** *** The completion filter *)

(** A task is outstanding when its pair has no recorded result and its
    simulation is not recorded with zero batches. *)
Definition outstanding (restored : Result) (t : BenchmarkTask) : Prop :=
  ((sim_id t, lrn_id t) ∉ batches restored)
  /\ ~ Exists (fun row => row_simulation_id row = sim_id t /\ row_batch_count row = 0)
         (simulations restored).

#[global] Instance outstanding_dec restored t : Decision (outstanding restored t).
Proof. unfold outstanding. apply _. Defined.

(** *** The online loop *)

(** A call that returned. *)
Definition returned (c : call) : bool :=
  match c with
  | CallChoose _ _ _ r => is_Ok r
  | CallObserve _ r => is_Ok r
  | CallLearn _ _ _ _ _ r => is_Ok r
  end.

(** The three kinds of calls. *)
Definition is_choose (c : call) : Prop :=
  match c with CallChoose _ _ _ _ => True | _ => False end.
Definition is_observe (c : call) : Prop :=
  match c with CallObserve _ _ => True | _ => False end.
Definition is_learn (c : call) : Prop :=
  match c with CallLearn _ _ _ _ _ _ => True | _ => False end.

(** A call that raised [e]. *)
Definition raises (c : call) (e : exn) : Prop :=
  match c with
  | CallChoose _ _ _ (Raise e') => e' = e
  | CallObserve _ (Raise e') => e' = e
  | CallLearn _ _ _ _ _ (Raise e') => e' = e
  | _ => False
  end.

(** The calls of a batch, given what [choose] returned for each interaction
    and the rewards. *)
Definition choose_call (i : Interaction) (ret : Action * float) : call :=
  CallChoose (key i) (context i) (actions i) (Ok ret).

Definition chosen (i : Interaction) (ret : Action * float) : Key * Context * Action :=
  (key i, context i, fst ret).

Definition learn_call (i : Interaction) (ret : Action * float) (rwd : float) : call :=
  CallLearn (key i) (context i) (fst ret) rwd (snd ret) (Ok tt).

Definition choice_of (i : Interaction) (ret : Action * float) : Choice :=
  {| ch_key := key i; ch_context := context i; ch_action := fst ret; ch_prob := snd ret |}.

Definition learn_calls (batch : list Interaction) (rets : list (Action * float))
    (rewards : list float) : list call :=
  zip_with (fun ir w => learn_call (fst ir) (snd ir) w) (zip batch rets) rewards.

(** The answers of the reward function in a run, each with the choices it
    was asked about. *)
Definition observations (tr : list call)
  : list (list (Key * Context * Action) * list float) :=
  flat_map (fun c => match c with
                     | CallObserve choices (Ok rewards) => [(choices, rewards)]
                     | _ => []
                     end) tr.

Definition recorded_observations (tr : list event)
  : list (list (Key * Context * Action) * list float) :=
  observations (flat_map (fun ev => match ev with EvCall _ _ c => [c] | _ => [] end) tr).

(** [m] is the mean reward of the batch: the reward function was asked
    about one choice per interaction of the batch, in order, and [m] is the
    rounded mean of its answer. *)
Definition observed (rwd : Reward) (batch : list Interaction)
    (ob : list (Key * Context * Action) * list float) (m : float) : Prop :=
  map (fun c => (fst (fst c), snd (fst c))) (fst ob) = map (fun i => (key i, context i)) batch
  /\ observe rwd (fst ob) = Ok (snd ob)
  /\ mean_reward (snd ob) = Ok m.

(** The lower of the two middle values of the data. *)
Definition lower_middle (data : list Z) : Z :=
  nth (length data / 2 - 1)%nat (sorted id data) 0.

(** *** The learners of a simulation *)

(** The pending learners as a queue attempted from its head; returns what is
    left of the queue. *)
Fixpoint run_learners (ignore_raise : bool) (sim : Z) (s : Simulation)
    (bs : list (list Interaction)) (queue : list (Z * BenchmarkTaskLearner))
  : outcome * list (Z * BenchmarkTaskLearner) :=
  match queue with
  | [] => (([], Ok tt), [])
  | (lrn, l) :: queue' =>
      let '(tr, r) := evaluate sim lrn l s bs in
      match r with
      | Ok t =>
          let '((tr', r'), rest) := run_learners ignore_raise sim s bs queue' in
          ((tr ++ EvYield t :: tr', r'), rest)
      | Raise e =>
          if is_Exception e then
            if ignore_raise then
              let '((tr', r'), rest) := run_learners ignore_raise sim s bs queue' in
              ((tr ++ EvLogException e :: tr', r'), rest)
            else ((tr ++ [EvLogException e], Raise e), queue')
          else ((tr, Raise e), queue')
      end
  end.

(** What one learner adds to the run when failures are suppressed: its
    calls, then its transaction or the log entry of its failure. *)
Definition learner_chunk (sim : Z) (s : Simulation) (bs : list (list Interaction))
    (q : Z * BenchmarkTaskLearner) : list event :=
  let '(tr, r) := evaluate sim (fst q) (snd q) s bs in
  tr ++ [match r with Ok t => EvYield t | Raise e => EvLogException e end].

(** The transaction of a learner whose evaluation returns. *)
Definition learner_record (sim : Z) (s : Simulation) (bs : list (list Interaction))
    (q : Z * BenchmarkTaskLearner) : list Transaction :=
  match snd (evaluate sim (fst q) (snd q) s bs) with
  | Ok t => [t]
  | Raise _ => []
  end.

(** The exception of a learner whose evaluation raises. *)
Definition learner_failure (sim : Z) (s : Simulation) (bs : list (list Interaction))
    (q : Z * BenchmarkTaskLearner) : list exn :=
  match snd (evaluate sim (fst q) (snd q) s bs) with
  | Ok _ => []
  | Raise e => [e]
  end.

(** The exceptions a run has logged. *)
Definition logged (tr : list event) : list exn :=
  flat_map (fun ev => match ev with EvLogException e => [e] | _ => [] end) tr.

(** *** A task on its own *)

(** The simulation a task is evaluated on: its source read and put through
    its filter. *)
Definition task_simulation (t : BenchmarkTask) : result Simulation :=
  result_bind (source_read (source (simulation t)))
    (apply_filter (filter_of (simulation t))).

(** The evaluation of the learner of a task on the simulation of the task,
    when the simulation has a batch. *)
Definition task_evaluation (t : BenchmarkTask)
  : option (list event * result Transaction) :=
  match task_simulation t with
  | Ok s =>
      match batchify s with
      | [] => None
      | _ :: _ => Some (evaluate (sim_id t) (lrn_id t) (learner t) s (batchify s))
      end
  | Raise _ => None
  end.

Definition task_record (t : BenchmarkTask) : list Transaction :=
  match task_evaluation t with
  | Some (_, Ok tx) => [tx]
  | _ => []
  end.

Definition task_failure (t : BenchmarkTask) : list exn :=
  match task_evaluation t with
  | Some (_, Raise e) => [e]
  | _ => []
  end.

(** An object is determined by its identity: two tasks with the same source
    object have the same source, and with the same handle object the same
    handle. *)
Definition identity_consistent (tasks : list BenchmarkTask) : Prop :=
  forall t t', In t tasks -> In t' tasks ->
    (source_obj (source (simulation t)) = source_obj (source (simulation t')) ->
     source (simulation t) = source (simulation t'))
    /\ (wrapper_obj (simulation t) = wrapper_obj (simulation t') ->
        simulation t = simulation t').

(** The simulation of the task is created, and what its evaluation raises,
    if anything, is an [Exception]. *)
Definition good_task (t : BenchmarkTask) : Prop :=
  (exists s, task_simulation t = Ok s)
  /\ forall e, In e (task_failure t) -> is_Exception e = true.

Definition good_sim_group (loaded : Simulation)
    (G : (Z * BenchmarkTaskSimulation) * list BenchmarkTask) : Prop :=
  (exists s, apply_filter (filter_of (snd (fst G))) loaded = Ok s)
  /\ forall t, In t (snd G) ->
       sim_id t = fst (fst G) /\ simulation t = snd (fst G)
       /\ source_read (source (simulation t)) = Ok loaded
       /\ good_task t.

Definition good_src_group (G : (Z * Source) * list BenchmarkTask) : Prop :=
  (exists loaded, source_read (snd (fst G)) = Ok loaded)
  /\ (forall t, In t (snd G) -> source (simulation t) = snd (fst G) /\ good_task t)
  /\ (forall t t', In t (snd G) -> In t' (snd G) ->
        wrapper_obj (simulation t) = wrapper_obj (simulation t') ->
        simulation t = simulation t').

(** *** The order of the groups *)

(** One loop after another: the second runs when the first ran to its end. *)
Definition and_then (o1 o2 : outcome) : outcome :=
  match snd o1 with
  | Raise e => o1
  | Ok _ => (fst o1 ++ fst o2, snd o2)
  end.

(** The sources of a group, as the outer loop of [_process_group] visits
    them. *)
Definition sources_of (task_group : list BenchmarkTask)
  : list ((Z * Source) * list BenchmarkTask) :=
  groupby (fun t => (src_id t, source (simulation t))) grp_src_eqb
    (sorted src_id task_group).

(** The groups processed one after another in the order given, none touched
    before the one before it is done. *)
Fixpoint groups_in_order (ignore_raise : bool) (task_groups : list (list BenchmarkTask))
  : outcome :=
  match task_groups with
  | [] => ([], Ok tt)
  | g :: gs =>
      and_then (sources_loop ignore_raise (sources_of g))
        (groups_in_order ignore_raise gs)
  end.

(** The outer [try] of [_process_group], and the way out of the generator. *)
Definition outer_handler (ignore_raise : bool) (o : outcome) : outcome :=
  match snd o with
  | Ok _ => (fst o, Ok tt)
  | Raise e =>
      if is_Exception e then
        (fst o ++ [EvLogException e],
         if ignore_raise then Ok tt else Raise (leaving_generator e))
      else (fst o, Raise e)
  end.

(** Every source id of a group is below every source id of a later group. *)
Fixpoint ascending_groups (task_groups : list (list BenchmarkTask)) : Prop :=
  match task_groups with
  | [] => True
  | g :: gs =>
      (forall t t', In t g -> In t' (concat gs) -> src_id t < src_id t')
      /\ ascending_groups gs
  end.

(** ** Examples *)

Definition f_0_2 : float := Float.of_ratio 2 10.
Definition f_0_4 : float := Float.of_ratio 4 10.
Definition f_0_5 : float := Float.of_ratio 5 10.
Definition f_0_6 : float := Float.of_ratio 6 10.
Definition f_1_3 : float := Float.of_ratio 1 3.
Definition f_0_33333 : float := Float.of_ratio 33333 100000.

(** A random stream that always draws the first element. *)
Definition first_choice (seed : option Z) : CobaRandom :=
  {| Rng := unit;
     rng_state := tt;
     rng_choice := fun g cs _ =>
       (match cs with c :: _ => Ok c | [] => Raise IndexError end, g) |}.

(** A learner without [init] that gives two actions the same probability
    and counts its [learn] calls. *)
Definition even_learner : Learner :=
  {| LState := Z;
     learner_state := 0;
     learner_init := fun n => (Raise AttributeError, n);
     learner_predict := fun n _ _ _ => (Ok [f_0_5; f_0_5], n);
     learner_learn := fun n _ _ _ _ _ => (Ok tt, n + 1) |}.

(** A learner whose probabilities are [[0.5, 0.6]]. *)
Definition broken_learner : Learner :=
  {| LState := Z;
     learner_state := 0;
     learner_init := fun n => (Raise AttributeError, n);
     learner_predict := fun n _ _ _ => (Ok [f_0_5; f_0_6], n);
     learner_learn := fun n _ _ _ _ _ => (Ok tt, n + 1) |}.

Definition adapter (l : Learner) : BenchmarkTaskLearner :=
  {| _learner := l; _random := first_choice None |}.

Definition interaction_1 : Interaction :=
  {| key := 0; context := CTuple [1; 2; 3]; actions := [1; 2] |}.
Definition interaction_2 : Interaction :=
  {| key := 1; context := CNone; actions := [1; 2] |}.
Definition interaction_3 : Interaction :=
  {| key := 2; context := COther 7; actions := [1; 2] |}.

(** A reward function that pays 0.4 for every choice, and one that answers
    with 0.2, 0.4 and 0.6. *)
Definition flat_reward : Reward :=
  {| observe := fun choices => Ok (map (fun _ => f_0_4) choices) |}.
Definition fixed_reward : Reward :=
  {| observe := fun _ => Ok [f_0_2; f_0_4; f_0_6] |}.
(** A reward function that answers with one reward, whatever it is asked. *)
Definition single_reward : Reward :=
  {| observe := fun _ => Ok [f_0_4] |}.

Definition plain_simulation : Simulation :=
  PlainSimulation [interaction_1; interaction_2] flat_reward.
Definition batched_simulation : Simulation :=
  BatchedSimulation [[interaction_1; interaction_2; interaction_3]] fixed_reward.
(** A simulation with one batch of two interactions, of context sizes 3 and
    0. *)
Definition paired_simulation : Simulation :=
  BatchedSimulation [[interaction_1; interaction_2]] flat_reward.
(** A simulation whose second batch is empty. *)
Definition holed_simulation : Simulation :=
  BatchedSimulation [[interaction_1]; []] flat_reward.

Definition source_X : Source :=
  {| source_obj := 10%nat; source_read := Ok plain_simulation |}.
Definition source_Y : Source :=
  {| source_obj := 11%nat; source_read := Ok plain_simulation |}.

Definition take_1 : Filter :=
  {| apply_filter := fun s =>
       match s with
       | PlainSimulation inters r => Ok (PlainSimulation (take 1%nat inters) r)
       | BatchedSimulation bs r => Ok (BatchedSimulation (take 1%nat bs) r)
       end |}.

(** Three simulations, the first and the third over the same source, and one
    learner. *)
Definition example_tasks : list BenchmarkTask :=
  Tasks_read first_choice
    [SourceFilters source_X take_1; PlainSource source_Y;
     SourceFilters source_X IdentityFilter]
    [even_learner] None 100%nat.

(** One simulation and three learners, the second of them broken. *)
Definition three_learner_tasks : list BenchmarkTask :=
  Tasks_read first_choice [PlainSource source_X]
    [even_learner; broken_learner; even_learner] None 200%nat.

(** The tasks of simulations 1, 2 and 3 with learners 0 and 1, and a store
    with a result for the pair (2, 1) and no batch for simulation 3. *)
Definition example_task (sim lrn : Z) : BenchmarkTask :=
  BenchmarkTask_new first_choice 0%nat 0 sim lrn (PlainSource source_X) even_learner None.

Definition six_tasks : list BenchmarkTask :=
  map (fun p => example_task (fst p) (snd p)) (product [1; 2; 3] [0; 1]).

Definition example_restored : Result :=
  {| simulations := [{| row_simulation_id := 2; row_batch_count := 5 |};
                     {| row_simulation_id := 3; row_batch_count := 0 |}];
     batches := [(2, 1)] |}.

(** ** Notions and examples for the further properties *)

(** The number of actions of each interaction of a batch. *)
Definition action_numbers (batch : list Interaction) : list Z :=
  map (fun i => Z.of_nat (length (actions i))) batch.

(** The calls for one interaction of a simulation that is not batched, when
    the reward function answers with the rewards [w :: ws]. *)
Definition online_step (i : Interaction) (ret : Action * float) (w : float)
    (ws : list float) : list call :=
  [choose_call i ret; CallObserve [chosen i ret] (Ok (w :: ws)); learn_call i ret w].

(** Where an exception that ends a run came from, read off the event before
    the entry of the outer handler: a source that was being read, a
    simulation that was being created, or an evaluation, whose exception the
    inner handler has logged. *)
Definition raised_at (ev : event) (e : exn) : Prop :=
  match ev with
  | EvLoadSource _ _ => True
  | EvCreateSimulation _ _ => True
  | EvLogException e' => e' = e
  | _ => False
  end.

Definition ends_with (tr : list event) (e : exn) : Prop :=
  exists tr' ev, tr = tr' ++ [ev] /\ raised_at ev e.

(** The sources a run has read, each with the source id it was read for. *)
Definition loads (tr : list event) : list (Z * obj_id) :=
  flat_map (fun ev => match ev with EvLoadSource src o => [(src, o)] | _ => [] end) tr.

(** Source ids that tell the source objects of the tasks apart. *)
Definition src_ids_faithful (tasks : list BenchmarkTask) : Prop :=
  forall t1 t2, In t1 tasks -> In t2 tasks ->
    (src_id t1 = src_id t2 <-> task_source_obj t1 = task_source_obj t2).

(** The evaluations a run has started and the records it has yielded, as
    pairs of a simulation id and a learner id. *)
Definition attempted (tr : list event) : list (Z * Z) :=
  flat_map (fun ev => match ev with EvInit sim lrn _ => [(sim, lrn)] | _ => [] end) tr.

Definition recorded (tr : list event) : list (Z * Z) :=
  flat_map (fun ev => match ev with EvYield t => [(t_sim_id t, t_lrn_id t)] | _ => [] end) tr.

Definition task_ids (t : BenchmarkTask) : Z * Z := (sim_id t, lrn_id t).

(** A learner that returns no probabilities. *)
Definition silent_learner : Learner :=
  {| LState := Z;
     learner_state := 0;
     learner_init := fun n => (Ok tt, n);
     learner_predict := fun n _ _ _ => (Ok [], n + 1);
     learner_learn := fun n _ _ _ _ _ => (Ok tt, n) |}.

(** A source whose [read] raises. *)
Definition broken_source : Source :=
  {| source_obj := 12%nat; source_read := Raise ValueError |}.

(** A source whose [read] raises [StopIteration], and one task on it. *)
Definition stopping_source : Source :=
  {| source_obj := 13%nat; source_read := Raise StopIteration |}.

Definition stopping_tasks : list BenchmarkTask :=
  Tasks_read first_choice [PlainSource stopping_source] [even_learner] None 400%nat.

(** Three simulations over three sources, the second of which cannot be
    read, and one learner. *)
Definition failing_tasks : list BenchmarkTask :=
  Tasks_read first_choice
    [PlainSource source_X; PlainSource broken_source; PlainSource source_Y]
    [even_learner] None 300%nat.

(** *** Initialisation and the order of evaluation *)

(** The learner with another [init] method. *)
Definition with_init (b : BenchmarkTaskLearner)
    (f : LState (_learner b) -> result unit * LState (_learner b)) : BenchmarkTaskLearner :=
  {| _learner := {| LState := LState (_learner b);
                    learner_state := learner_state (_learner b);
                    learner_init := f;
                    learner_predict := learner_predict (_learner b);
                    learner_learn := learner_learn (_learner b) |};
     _random := _random b |}.

(** The adapter of a learner in a state, with the random stream in a state,
    and the same adapter with the method [f] for [init]. *)
Definition adapter_at (L : Learner) (s : LState L) (g : CobaRandom)
  : BenchmarkTaskLearner :=
  {| _learner := with_state L s; _random := g |}.

Definition patched_at (L : Learner) (f : LState L -> result unit * LState L)
    (s : LState L) (g : CobaRandom) : BenchmarkTaskLearner :=
  with_init (adapter_at L s g) f.

(** The simulations a run has created, each after the source id it was
    created for. *)
Definition creations (tr : list event) : list (Z * Z) :=
  flat_map (fun ev => match ev with EvCreateSimulation sim src => [(src, sim)] | _ => [] end)
    tr.

(** Pairs in ascending order: by the first number, then by the second. *)
Definition pair_le (a b : Z * Z) : Prop :=
  fst a < fst b \/ (fst a = fst b /\ snd a <= snd b).

(** The simulations of the tasks of one source, as the inner loop of
    [_process_group] visits them. *)
Definition simulations_of (tasks_by_src : list BenchmarkTask)
  : list ((Z * BenchmarkTaskSimulation) * list BenchmarkTask) :=
  groupby (fun t => (sim_id t, simulation t)) grp_sim_eqb (sorted sim_id tasks_by_src).

(** Tasks in ascending order: by source id, then by simulation id, then by
    learner id. *)
Definition ids_lt (t t' : BenchmarkTask) : Prop :=
  sim_id t < sim_id t' \/ (sim_id t = sim_id t' /\ lrn_id t < lrn_id t').

Definition task_lt (t t' : BenchmarkTask) : Prop :=
  src_id t < src_id t' \/ (src_id t = src_id t' /\ ids_lt t t').

(** The order in which the engine attempts the tasks it is given: source by
    source and simulation by simulation, the learners of a simulation from
    the last to the first. *)
Definition attempt_order (tasks : list BenchmarkTask) : list (Z * Z) :=
  flat_map (fun kg =>
              flat_map (fun g => rev (map (fun t => (fst (fst g), lrn_id t)) (snd g)))
                (simulations_of (snd kg)))
    (sources_of tasks).

(** *** The sources and simulations of a run *)

(** What a run visits: the sources it reads, each with its source id, and
    the simulations it creates, each with the source id it is created for. *)
Inductive visit : Type :=
| VisitSource (src : Z) (obj : obj_id)
| VisitSimulation (src sim : Z).

Definition visits (tr : list event) : list visit :=
  flat_map (fun ev => match ev with
                      | EvLoadSource src obj => [VisitSource src obj]
                      | EvCreateSimulation sim src => [VisitSimulation src sim]
                      | _ => []
                      end) tr.

(** A source that is read, and then the simulations created for it, by
    their ids. *)
Definition source_visit (seg : (Z * obj_id) * list Z) : list visit :=
  VisitSource (fst (fst seg)) (snd (fst seg))
  :: map (VisitSimulation (fst (fst seg))) (snd seg).

(** *** Floats as numbers *)

(** The rational [N / D] lies in [[m, m + 1)], at the place [l] says:
    on [m], below, on or above the middle. *)
Definition located (N D m : Z) (l : location) : Prop :=
  m * D <= N < (m + 1) * D
  /\ match l with
     | loc_Exact => N = m * D
     | loc_Inexact Lt => m * D < N /\ 2 * N < (2 * m + 1) * D
     | loc_Inexact Eq => 2 * N = (2 * m + 1) * D
     | loc_Inexact Gt => (2 * m + 1) * D < 2 * N
     end.

(** The float with the sign [s] and the value [k * 2^e], for [k] up to
    [2^53]: zero, a float with a significand below [2^53], or an infinity
    when the exponent is too large. *)
Definition float_of_rounded (s : bool) (k e : Z) : float :=
  if k =? 0 then S754_zero s
  else if k =? 2 ^ 53 then
    if e + 1 <=? 971 then S754_finite s (Z.to_pos (2 ^ 52)) (e + 1)
    else S754_infinity s
  else if e <=? 971 then S754_finite s (Z.to_pos k) e
  else S754_infinity s.

(** The number a finite float stands for. *)
Definition float_value (x : float) : Q :=
  match x with
  | S754_finite s m e => (inject_Z (if s then Zneg m else Zpos m) * 2 ^ e)%Q
  | _ => 0%Q
  end.

(** The finite numbers of the binary64 format. *)
Definition is_double (x : float) : bool :=
  Float.is_finite x && valid_binary 53 1024 x.

Definition even_significand (x : float) : bool :=
  match x with
  | S754_finite _ m _ => Z.even (Zpos m)
  | _ => true
  end.

(** [x] is the binary64 number nearest to [q], the one with the even
    significand when two are equally near. *)
Definition nearest_double (q : Q) (x : float) : Prop :=
  is_double x = true
  /\ (forall y, is_double y = true ->
        (Qabs (float_value x - q) <= Qabs (float_value y - q))%Q)
  /\ (forall y, is_double y = true ->
        (Qabs (float_value y - q) == Qabs (float_value x - q))%Q ->
        ~ (float_value y == float_value x)%Q ->
        even_significand x = true).

(** [k] is the integer nearest to [q], the even one when two are equally
    near. *)
Definition nearest_integer (q : Q) (k : Z) : Prop :=
  (Qabs (inject_Z k - q) <= 1 # 2)%Q
  /\ ((Qabs (inject_Z k - q) == 1 # 2)%Q -> Z.even k = true).

(** The largest number of the format. *)
Definition max_double : Q := (inject_Z (2 ^ 53 - 1) * 2 ^ 971)%Q.

(** The sum and the arithmetic mean of the numbers of a list of floats. *)
Definition exact_total (xs : list float) : Q :=
  fold_right Qplus 0%Q (map float_value xs).

Definition exact_mean (xs : list float) : Q :=
  (exact_total xs / inject_Z (Z.of_nat (length xs)))%Q.

(** ** The data filters (coba/data/filters.py) *)

(** The Python values the filters are applied to: [None], integers, strings
    and sequences.  A sequence is a list or a tuple; the filters only index,
    slice and iterate one, so the two are not told apart. *)
#[local] Unset Elimination Schemes.
Inductive value : Type :=
| VNone
| VInt (z : Z)
| VStr (s : string)
| VSeq (items : list value).
#[local] Set Elimination Schemes.

Definition TypeError : exn := OtherException 1.
Definition RecursionError : exn := OtherException 2.
(** The plain [Exception] of [ColEncoder._get_encoder]. *)
Definition EncoderNotFound : exn := OtherException 3.

(** The characters of a string, each a string of length one. *)
Fixpoint chars (s : string) : list value :=
  match s with
  | EmptyString => []
  | String a s' => VStr (String a EmptyString) :: chars s'
  end.

(** [list(v)] *)
Definition py_list (v : value) : result (list value) :=
  match v with
  | VSeq items => Ok items
  | VStr s => Ok (chars s)
  | _ => Raise TypeError
  end.

(** [zip] over the rows as its arguments: the tuples of the i-th elements of
    the rows, as many as the shortest row has elements, and none when there
    is no row. *)
Fixpoint zip_star {A} (rows : list (list A)) : list (list A) :=
  match rows with
  | [] => []
  | row :: rows' =>
      match rows' with
      | [] => map (fun x => [x]) row
      | _ :: _ => zip_with cons row (zip_star rows')
      end
  end.

(** *** RowRemover *)
Definition RowRemover_filter {A} (remove_rows : list Z) (items : list A) : list A :=
  flat_map (fun '(i, item) => if in_ints i remove_rows then [] else [item])
    (enumerate items).

(** *** ColSplitter and ColRemover

    The columns to split off or to remove are given by position or by
    header; which of the two is decided by the first name alone. *)
Inductive column_name : Type :=
| ByIndex (i : Z)
| ByHeader (s : string).

Definition _is_column_headers (names : list column_name) : bool :=
  match names with
  | ByHeader _ :: _ => true
  | _ => false
  end.

(** [v in names] *)
Definition value_in (v : value) (names : list column_name) : bool :=
  existsb (fun n => match v, n with
                    | VInt z, ByIndex i => z =? i
                    | VStr s, ByHeader h => String.eqb s h
                    | _, _ => false
                    end) names.

(** [is_split1_header or is_split1_index], which is also
    [is_ignored_header or is_ignored_index]: [raw_col[0]] is only looked at
    when the columns are named by header. *)
Definition is_named (names : list column_name) (index : Z) (raw_col : list value)
  : result bool :=
  let by_header :=
    if _is_column_headers names then
      match raw_col with
      | [] => Raise IndexError
      | header :: _ => Ok (value_in header names)
      end
    else Ok false in
  match by_header with
  | Raise e => Raise e
  | Ok is_header =>
      let is_index := negb (_is_column_headers names) && value_in (VInt index) names in
      Ok (is_header || is_index)
  end.

Fixpoint ColSplitter_loop (split1_columns : list column_name)
    (columns : list (Z * list value)) : result (list (list value) * list (list value)) :=
  match columns with
  | [] => Ok ([], [])
  | (index, raw_col) :: columns' =>
      match is_named split1_columns index raw_col with
      | Raise e => Raise e
      | Ok named =>
          match ColSplitter_loop split1_columns columns' with
          | Raise e => Raise e
          | Ok (split1, split2) =>
              if named then Ok (raw_col :: split1, split2)
              else Ok (split1, raw_col :: split2)
          end
      end
  end.

Definition ColSplitter_filter (split1_columns : list column_name)
    (columns : list (list value)) : result (list (list value) * list (list value)) :=
  ColSplitter_loop split1_columns (enumerate columns).

(** A generator: what it yields, and whether it ends or raises. *)
Fixpoint ColRemover_loop (remove_columns : list column_name)
    (columns : list (Z * list value)) : list (list value) * result unit :=
  match columns with
  | [] => ([], Ok tt)
  | (index, raw_col) :: columns' =>
      match is_named remove_columns index raw_col with
      | Raise e => ([], Raise e)
      | Ok named =>
          let '(out, r) := ColRemover_loop remove_columns columns' in
          (if named then out else raw_col :: out, r)
      end
  end.

Definition ColRemover_filter (remove_columns : list column_name)
    (columns : list (list value)) : list (list value) * result unit :=
  ColRemover_loop remove_columns (enumerate columns).

(** *** CsvTranspose *)

(** [_flatter]: a row whose second cell is a sequence other than a string
    becomes one row per cell after the first. *)
Definition _flatter_item (item : list value) : result (list (list value)) :=
  match item with
  | first :: second :: _ =>
      match second with
      | VSeq _ =>
          result_map (fun i => result_bind (py_list i) (fun l => Ok (first :: l)))
            (tl item)
      | _ => Ok [item]
      end
  | _ => Raise IndexError
  end.

Definition _flatter (items : list (list value)) : result (list (list value)) :=
  result_bind (result_map _flatter_item items) (fun rows => Ok (concat rows)).

(** [filter(None, items)] drops the empty rows. *)
Definition CsvTranspose_filter (flatten : bool) (items : list (list value))
  : result (list (list value)) :=
  let items := List.filter (fun item => negb (Nat.eqb (length item) 0)) items in
  result_bind (if flatten then _flatter items else Ok items)
    (fun rows => Ok (zip_star rows)).

(** *** ArffHeaderAdder *)
Fixpoint ArffHeaderAdder_loop (attributes : list value) (columns : list (Z * list value))
  : list (list value) * result unit :=
  match columns with
  | [] => ([], Ok tt)
  | (index, raw_col) :: columns' =>
      match attributes !! Z.to_nat index with
      | None => ([], Raise IndexError)
      | Some attribute =>
          let '(out, r) := ArffHeaderAdder_loop attributes columns' in
          ((attribute :: raw_col) :: out, r)
      end
  end.

Definition ArffHeaderAdder_filter (attributes : list value) (columns : list (list value))
  : list (list value) * result unit :=
  ArffHeaderAdder_loop attributes (enumerate columns).

(** *** Cartesian

    The argument is one item or an iterable of items; every filter is
    applied to every item, item by item. *)
Inductive cartesian_arg (A : Type) : Type :=
| OneItem (item : A)
| ManyItems (items : list A).
Arguments OneItem {A} item.
Arguments ManyItems {A} items.

(** The method is a generator: an exception of an application leaves it as
    [leaving_generator] has it. *)
Fixpoint Cartesian_loop {A B} (calls : list ((A -> result B) * A))
  : list B * result unit :=
  match calls with
  | [] => ([], Ok tt)
  | (filter, item) :: calls' =>
      match filter item with
      | Raise e => ([], Raise (leaving_generator e))
      | Ok y => let '(out, r) := Cartesian_loop calls' in (y :: out, r)
      end
  end.

(** The applications of the two nested loops, in order. *)
Definition applications {A B} (filters : list (A -> result B)) (items : list A)
  : list ((A -> result B) * A) :=
  flat_map (fun item => map (fun filter => (filter, item)) filters) items.

Definition Cartesian_filter {A B} (filters : list (A -> result B))
    (item : cartesian_arg A) : list B * result unit :=
  let items := match item with OneItem item => [item] | ManyItems items => items end in
  Cartesian_loop (applications filters items).

(** *** ColEncoder._get_encoder *)

(** [l[i]]: a negative index counts from the end. *)
Definition py_getitem {A} (l : list A) (i : Z) : result A :=
  let j := if i <? 0 then i + Z.of_nat (length l) else i in
  if j <? 0 then Raise IndexError
  else match l !! Z.to_nat j with
       | Some x => Ok x
       | None => Raise IndexError
       end.

(** [header in encoded_headers] and [encoded_headers.index(header)] *)
Fixpoint index_of (header : value) (headers : list string) : option nat :=
  match headers with
  | [] => None
  | h :: headers' =>
      if match header with VStr s => String.eqb s h | _ => false end then Some 0%nat
      else option_map S (index_of header headers')
  end.

Definition _get_encoder {E} (headers : list string) (encoders : list E)
    (default : option E) (index : Z) (header : value) : result E :=
  let encoded_headers := take (length encoders) headers in
  match index_of header encoded_headers with
  | Some i =>
      match encoders !! i with
      | Some encoder => Ok encoder
      | None => Raise IndexError
      end
  | None =>
      if Nat.eqb (length encoded_headers) 0 && (index <? Z.of_nat (length encoders))
      then py_getitem encoders index
      else match default with
           | Some encoder => Ok encoder
           | None => Raise EncoderNotFound
           end
  end.

(** *** Flatten._flat

    A string is a sequence of strings of length one, each of which is a
    sequence of itself: on a string that is not empty the recursion does
    not end, and Python gives up with a [RecursionError]. *)
Fixpoint _flat (item : value) : result (list value) :=
  match item with
  | VSeq items =>
      (fix sum_flat (items : list value) : result (list value) :=
         match items with
         | [] => Ok []
         | i :: items' =>
             match _flat i with
             | Raise e => Raise e
             | Ok l =>
                 match sum_flat items' with
                 | Raise e => Raise e
                 | Ok l' => Ok (l ++ l')
                 end
             end
         end) items
  | VStr EmptyString => Ok []
  | VStr (String _ _) => Raise RecursionError
  | _ => Ok [item]
  end.

(** [sum(map(self._flat, items), [])] *)
Fixpoint sum_flat (items : list value) : result (list value) :=
  match items with
  | [] => Ok []
  | i :: items' =>
      match _flat i with
      | Raise e => Raise e
      | Ok l =>
          match sum_flat items' with
          | Raise e => Raise e
          | Ok l' => Ok (l ++ l')
          end
      end
  end.

(** *** Flatten.filter *)

(** [isinstance(v, collections.Sequence)] *)
Definition is_sequence (v : value) : bool :=
  match v with
  | VSeq _ | VStr _ => true
  | _ => false
  end.

(** [_is_dense]: the first item decides; a sparse item is a pair of
    sequences.  The items come back as they were given. *)
Definition _is_dense (items : list value) : result bool :=
  match items with
  | [] => Raise StopIteration
  | item0 :: _ =>
      match item0 with
      | VSeq cells =>
          Ok (negb (Nat.eqb (length cells) 2) || negb (forallb is_sequence cells))
      | VStr s =>
          Ok (negb (Nat.eqb (String.length s) 2) || negb (forallb is_sequence (chars s)))
      | _ => Raise TypeError
      end
  end.

(** [map(self._flat, items)], a lazy map: what it yields, and whether it
    ends or raises. *)
Fixpoint Flatten_loop (items : list value) : list value * result unit :=
  match items with
  | [] => ([], Ok tt)
  | item :: items' =>
      match _flat item with
      | Raise e => ([], Raise e)
      | Ok l => let '(out, r) := Flatten_loop items' in (VSeq l :: out, r)
      end
  end.

Definition Flatten_filter (items : list value) : result (list value * result unit) :=
  match _is_dense items with
  | Raise e => Raise e
  | Ok is_dense => Ok (if is_dense then Flatten_loop items else (items, Ok tt))
  end.

(** *** Notions and examples for the filters *)

(** A value that is neither a string nor a sequence. *)
Definition is_atom (v : value) : Prop :=
  match v with
  | VNone | VInt _ => True
  | _ => False
  end.

Definition not_a_sequence (v : value) : Prop :=
  match v with
  | VSeq _ => False
  | _ => True
  end.

(** A table of three rows and two columns. *)
Definition example_table : list (list value) :=
  [[VStr "a"; VStr "b"]; [VInt 1; VInt 2]; [VInt 3; VInt 4]].


(** * Properties *)

(** ** Lists, sorting and grouping *)

Lemma length_enumerate {A} (l : list A) : length (enumerate l) = length l.
Proof. unfold enumerate. rewrite length_combine, length_map, length_seq. lia. Qed.

Lemma fst_enumerate {A} (l : list A) :
  map fst (enumerate l) = map Z.of_nat (seq 0 (length l)).
Proof.
  unfold enumerate. generalize 0%nat.
  induction l as [|x l IH]; intros n; simpl; [reflexivity|].
  f_equal. apply IH.
Qed.

Lemma snd_enumerate {A} (l : list A) : map snd (enumerate l) = l.
Proof.
  unfold enumerate. generalize 0%nat.
  induction l as [|x l IH]; intros n; simpl; [reflexivity|].
  f_equal. apply IH.
Qed.

Lemma length_product {A B} (l1 : list A) (l2 : list B) :
  length (product l1 l2) = (length l1 * length l2)%nat.
Proof.
  unfold product. induction l1 as [|a l1 IH]; simpl; [reflexivity|].
  rewrite length_app, length_map, IH. reflexivity.
Qed.

Lemma map_product {A B C D} (f : A -> C) (g : B -> D) (l1 : list A) (l2 : list B) :
  map (fun p => (f (fst p), g (snd p))) (product l1 l2) = product (map f l1) (map g l2).
Proof.
  unfold product. induction l1 as [|a l1 IH]; simpl; [reflexivity|].
  rewrite map_app, IH. f_equal.
  rewrite !map_map. reflexivity.
Qed.

Lemma elem_of_product {A B} (l1 : list A) (l2 : list B) a b :
  (a, b) ∈ product l1 l2 <-> a ∈ l1 /\ b ∈ l2.
Proof.
  unfold product. rewrite !list_elem_of_In, in_flat_map. split.
  - intros (x & Hx & Hin). apply in_map_iff in Hin as (y & Heq & Hy).
    inversion Heq; subst. auto.
  - intros [Ha Hb]. exists a. split; [assumption|].
    apply in_map_iff. exists b. auto.
Qed.

Lemma NoDup_product {A B} (l1 : list A) (l2 : list B) :
  NoDup l1 -> NoDup l2 -> NoDup (product l1 l2).
Proof.
  intros H1 H2. unfold product.
  induction H1 as [|a l1 Ha H1 IH]; simpl; [constructor|].
  apply NoDup_app. split; [|split; [|exact IH]].
  - apply (NoDup_fmap_2 (fun b => (a, b))), H2.
  - intros [x y] Hin Hin'.
    apply list_elem_of_In, in_map_iff in Hin as (b & Heq & _).
    inversion Heq; subst.
    apply (elem_of_product l1 l2) in Hin' as [Hin' _]. contradiction.
Qed.

Lemma insert_by_Permutation {A} (key : A -> Z) x l :
  Permutation (insert_by key x l) (x :: l).
Proof.
  induction l as [|y l IH]; simpl; [reflexivity|].
  destruct (key x <=? key y); [reflexivity|].
  rewrite IH. apply perm_swap.
Qed.

Lemma sorted_Permutation {A} (key : A -> Z) l : Permutation (sorted key l) l.
Proof.
  induction l as [|x l IH]; simpl; [reflexivity|].
  rewrite insert_by_Permutation, IH. reflexivity.
Qed.

Lemma length_sorted {A} (key : A -> Z) l : length (sorted key l) = length l.
Proof. apply Permutation_length, sorted_Permutation. Qed.

Lemma In_sorted {A} (key : A -> Z) l x : In x (sorted key l) <-> In x l.
Proof.
  split; apply Permutation_in; [|symmetry]; apply sorted_Permutation.
Qed.

Lemma insert_by_ordered {A} (key : A -> Z) x l :
  StronglySorted (fun a b => key a <= key b) l ->
  StronglySorted (fun a b => key a <= key b) (insert_by key x l).
Proof.
  intros Hl. induction Hl as [|y l Hl IH Hy]; simpl.
  - constructor; constructor.
  - destruct (Z.leb_spec (key x) (key y)) as [Hle|Hlt].
    + constructor; [constructor; assumption|].
      constructor; [exact Hle|].
      eapply Forall_impl; [exact Hy|]. intros z Hz. simpl in Hz. lia.
    + constructor; [exact IH|].
      apply Forall_forall. intros z Hz. apply list_elem_of_In in Hz.
      apply (Permutation_in _ (insert_by_Permutation key x l)) in Hz.
      destruct Hz as [<-|Hz]; [lia|].
      rewrite Forall_forall in Hy. apply Hy.
      apply list_elem_of_In. exact Hz.
Qed.

Lemma sorted_ordered {A} (key : A -> Z) l :
  StronglySorted (fun a b => key a <= key b) (sorted key l).
Proof.
  induction l as [|x l IH]; simpl; [constructor|]. apply insert_by_ordered, IH.
Qed.

(** Sorting is stable across a boundary that the keys respect. *)
Lemma insert_by_app {A} (key : A -> Z) x a b :
  (forall y, In y b -> key x <= key y) ->
  insert_by key x (a ++ b) = insert_by key x a ++ b.
Proof.
  intros Hb. induction a as [|z a IH]; simpl.
  - destruct b as [|y b]; [reflexivity|]. simpl.
    destruct (Z.leb_spec (key x) (key y)) as [_|Hlt]; [reflexivity|].
    specialize (Hb y (or_introl eq_refl)). lia.
  - destruct (key x <=? key z); [reflexivity|]. simpl. f_equal. exact IH.
Qed.

Lemma sorted_app {A} (key : A -> Z) l1 l2 :
  (forall x y, In x l1 -> In y l2 -> key x <= key y) ->
  sorted key (l1 ++ l2) = sorted key l1 ++ sorted key l2.
Proof.
  intros H. induction l1 as [|x l1 IH]; simpl; [reflexivity|].
  rewrite IH by (intros; apply H; [right|]; assumption).
  apply insert_by_app. intros y Hy. apply In_sorted in Hy.
  apply H; [left; reflexivity|exact Hy].
Qed.

Lemma groupby_head {A K} (key : A -> K) eqb l k g gs :
  groupby key eqb l = (k, g) :: gs -> exists x l', l = x :: l' /\ k = key x.
Proof.
  destruct l as [|x l]; simpl; [discriminate|].
  destruct (groupby key eqb l) as [|[k' g'] gs'].
  - intros [= <- _ _]. eauto.
  - destruct (eqb (key x) k'); intros [= <- _ _]; eauto.
Qed.

Lemma groupby_app {A K} (key : A -> K) eqb l1 l2 :
  (forall x y, In x l1 -> In y l2 -> eqb (key x) (key y) = false) ->
  groupby key eqb (l1 ++ l2) = groupby key eqb l1 ++ groupby key eqb l2.
Proof.
  intros H. induction l1 as [|x l1 IH]; [reflexivity|].
  simpl. rewrite IH by (intros; apply H; [right|]; assumption).
  destruct (groupby key eqb l1) as [|[k g] gs] eqn:Hg1; simpl.
  - destruct (groupby key eqb l2) as [|[k g] gs] eqn:Hg2; [reflexivity|].
    apply groupby_head in Hg2 as (y & l' & -> & ->).
    rewrite H; [reflexivity|left; reflexivity|left; reflexivity].
  - destruct (eqb (key x) k); reflexivity.
Qed.

(** Grouping loses and repeats nothing. *)
Lemma concat_groupby {A K} (key : A -> K) eqb l :
  concat (map snd (groupby key eqb l)) = l.
Proof.
  induction l as [|x l IH]; simpl; [reflexivity|].
  destruct (groupby key eqb l) as [|[k g] gs]; simpl in *.
  - rewrite <- IH. reflexivity.
  - destruct (eqb (key x) k); simpl; rewrite <- IH; reflexivity.
Qed.

Lemma nth_Forall {A} (P : A -> Prop) l i d : Forall P l -> P d -> P (nth i l d).
Proof.
  intros Hl Hd. revert i. induction Hl as [|x l Hx Hl IH]; intros [|i]; simpl; auto.
Qed.

Lemma flat_map_map_nil {A B C} (f : B -> list C) (g : A -> B) l :
  (forall x, f (g x) = []) -> flat_map f (map g l) = [].
Proof.
  intros H. induction l as [|x l IH]; simpl; [reflexivity|]. rewrite H. exact IH.
Qed.

Lemma map_fst_combine_eq {A B} (l : list A) (k : list B) :
  length l = length k -> map fst (combine l k) = l.
Proof.
  revert k. induction l as [|x l IH]; intros [|y k] H; simpl in *; try congruence.
  f_equal. apply IH. lia.
Qed.

Lemma map_snd_combine_eq {A B} (l : list A) (k : list B) :
  length l = length k -> map snd (combine l k) = k.
Proof.
  revert k. induction l as [|x l IH]; intros [|y k] H; simpl in *; try congruence.
  f_equal. apply IH. lia.
Qed.

Lemma take_prefix {A} (l a b : list A) n :
  l = a ++ b -> n = length a -> a = take n l.
Proof. intros -> ->. symmetry. apply take_app_length. Qed.

Lemma delete_last {A} (l : list A) x : delete (length l) (l ++ [x]) = l.
Proof.
  induction l as [|y l IH]; simpl; [reflexivity|]. f_equal. exact IH.
Qed.

Lemma lookup_last {A} (l : list A) x : (l ++ [x]) !! length l = Some x.
Proof. rewrite lookup_app_r by lia. rewrite Nat.sub_diag. reflexivity. Qed.

Lemma result_map_Forall2 {A B} (f : A -> result B) xs ys :
  result_map f xs = Ok ys -> Forall2 (fun x y => f x = Ok y) xs ys.
Proof.
  revert ys. induction xs as [|x xs IH]; intros ys; simpl.
  - intros [= <-]. constructor.
  - destruct (f x) as [y|e] eqn:Hx; [|discriminate].
    destruct (result_map f xs) as [ys'|e]; [|discriminate].
    intros [= <-]. constructor; auto.
Qed.

Lemma result_map_raises {A B} (f : A -> result B) xs x e :
  In x xs -> f x = Raise e -> exists e', result_map f xs = Raise e'.
Proof.
  intros Hin Hx. induction xs as [|y xs IH]; [destruct Hin|]. simpl.
  destruct (f y) as [b|e0] eqn:Hy; [|eauto].
  destruct Hin as [->|Hin]; [congruence|].
  destruct (IH Hin) as [e' ->]. eauto.
Qed.

(** ** The online evaluation loop *)

Lemma choose_loop_spec batch : forall learner tr l' r,
  choose_loop learner batch = (tr, l', r) ->
  match r with
  | Ok choices =>
      exists rets, length rets = length batch
        /\ tr = zip_with choose_call batch rets
        /\ choices = zip_with choice_of batch rets
  | Raise _ => forallb returned tr = false
  end.
Proof.
  induction batch as [|i batch IH]; intros learner tr l' r; simpl.
  - intros [= <- <- <-]. exists []. auto.
  - destruct (choose learner (key i) (context i) (actions i)) as [[[a p]|e] l1].
    + destruct (choose_loop l1 batch) as [[tr1 l2] r1] eqn:Hloop.
      specialize (IH _ _ _ _ Hloop).
      intros [= <- <- <-]. destruct r1 as [cs|e].
      * destruct IH as (rets & Hlen & -> & ->).
        exists ((a, p) :: rets). simpl. auto.
      * simpl. exact IH.
    + intros [= <- <- <-]. reflexivity.
Qed.

Lemma learn_loop_spec items : forall learner tr l' r,
  learn_loop learner items = (tr, l', r) ->
  match r with
  | Ok _ =>
      tr = map (fun cw => CallLearn (ch_key (fst cw)) (ch_context (fst cw))
                            (ch_action (fst cw)) (snd cw) (ch_prob (fst cw)) (Ok tt)) items
  | Raise _ => forallb returned tr = false
  end.
Proof.
  induction items as [|[c w] items IH]; intros learner tr l' r; simpl.
  - intros [= <- <- <-]. reflexivity.
  - destruct (learn learner _ _ _ _ _) as [[[]|e] l1].
    + destruct (learn_loop l1 items) as [[tr1 l2] r1] eqn:Hloop.
      specialize (IH _ _ _ _ Hloop).
      intros [= <- <- <-]. destruct r1 as [[]|e]; simpl.
      * rewrite IH. reflexivity.
      * exact IH.
    + intros [= <- <- <-]. reflexivity.
Qed.

Lemma map_triple_choice_of batch rets :
  map triple (zip_with choice_of batch rets) = zip_with chosen batch rets.
Proof.
  revert rets. induction batch as [|i batch IH]; intros [|r rets]; simpl; try reflexivity.
  f_equal. apply IH.
Qed.

Lemma learn_calls_combine batch rets rewards :
  map (fun cw => CallLearn (ch_key (fst cw)) (ch_context (fst cw))
                   (ch_action (fst cw)) (snd cw) (ch_prob (fst cw)) (Ok tt))
    (combine (zip_with choice_of batch rets) rewards)
  = learn_calls batch rets rewards.
Proof.
  unfold learn_calls. revert rets rewards.
  induction batch as [|i batch IH]; intros [|r rets] [|w rewards]; simpl; try reflexivity.
  f_equal. apply IH.
Qed.

(** The calls of a batch in which no call raised. *)
Lemma process_batch_shape batch learner rwd tr l' r :
  process_batch batch learner rwd = (tr, l', r) ->
  forallb returned tr = true ->
  exists rets rewards,
    length rets = length batch
    /\ observe rwd (zip_with chosen batch rets) = Ok rewards
    /\ tr = zip_with choose_call batch rets
            ++ CallObserve (zip_with chosen batch rets) (Ok rewards)
               :: learn_calls batch rets rewards
    /\ r = mean_reward rewards.
Proof.
  unfold process_batch.
  destruct (choose_loop learner batch) as [[tr1 l1] r1] eqn:H1.
  apply choose_loop_spec in H1.
  destruct r1 as [choices|e].
  2:{ intros [= <- <- <-] Hret. congruence. }
  destruct H1 as (rets & Hlen & -> & ->).
  rewrite map_triple_choice_of.
  destruct (observe rwd (zip_with chosen batch rets)) as [rewards|e] eqn:Hobs.
  2:{ intros [= <- <- <-] Hret. rewrite forallb_app in Hret. simpl in Hret.
      rewrite andb_false_r in Hret. discriminate. }
  destruct (learn_loop l1 _) as [[tr2 l2] r2] eqn:H2.
  apply learn_loop_spec in H2.
  destruct r2 as [[]|e]; intros [= <- <- <-] Hret.
  - exists rets, rewards. rewrite H2, learn_calls_combine. auto.
  - rewrite forallb_app in Hret. simpl in Hret. rewrite H2, andb_false_r in Hret.
    discriminate.
Qed.

(** A batch that gives a mean reward is one in which no call raised. *)
Lemma process_batch_Ok batch learner rwd tr l' m :
  process_batch batch learner rwd = (tr, l', Ok m) -> forallb returned tr = true.
Proof.
  unfold process_batch.
  destruct (choose_loop learner batch) as [[tr1 l1] r1] eqn:H1.
  apply choose_loop_spec in H1.
  destruct r1 as [choices|e]; [|discriminate].
  destruct H1 as (rets & Hlen & -> & ->).
  destruct (observe rwd _) as [rewards|e] eqn:Hobs; [|discriminate].
  destruct (learn_loop l1 _) as [[tr2 l2] r2] eqn:H2.
  apply learn_loop_spec in H2.
  destruct r2 as [[]|e]; [|discriminate]. intros [= <- <- Hm].
  rewrite forallb_app. simpl. rewrite H2.
  apply andb_true_intro. split.
  - clear. revert rets. induction batch as [|i batch IH]; intros [|r rets]; simpl; auto.
  - apply forallb_forall. intros c Hc. apply in_map_iff in Hc as (x & <- & _). reflexivity.
Qed.

Lemma choose_loop_calls batch : forall learner tr l' r,
  choose_loop learner batch = (tr, l', r) ->
  Forall is_choose tr /\ (length tr <= length batch)%nat.
Proof.
  induction batch as [|i batch IH]; intros learner tr l' r; simpl.
  - intros [= <- <- <-]. split; [constructor|reflexivity].
  - destruct (choose learner (key i) (context i) (actions i)) as [[[a p]|e] l1].
    + destruct (choose_loop l1 batch) as [[tr1 l2] r1] eqn:Hloop.
      destruct (IH _ _ _ _ Hloop) as [Hc Hlen].
      intros [= <- <- <-]. split; [constructor; [exact I|exact Hc]|simpl; lia].
    + intros [= <- <- <-]. split; [repeat constructor|simpl; lia].
Qed.

Lemma learn_loop_calls items : forall learner tr l' r,
  learn_loop learner items = (tr, l', r) ->
  Forall is_learn tr /\ (length tr <= length items)%nat.
Proof.
  induction items as [|[c w] items IH]; intros learner tr l' r; simpl.
  - intros [= <- <- <-]. split; [constructor|reflexivity].
  - destruct (learn learner _ _ _ _ _) as [[[]|e] l1].
    + destruct (learn_loop l1 items) as [[tr1 l2] r1] eqn:Hloop.
      destruct (IH _ _ _ _ Hloop) as [Hc Hlen].
      intros [= <- <- <-]. split; [constructor; [exact I|exact Hc]|simpl; lia].
    + intros [= <- <- <-]. split; [repeat constructor|simpl; lia].
Qed.

(** In every run of a batch, also one cut short by an exception, the calls
    of [choose] come first, then at most one call of the reward function,
    then the calls of [learn]. *)
Lemma process_batch_order batch learner rwd :
  exists tr_choose tr_observe tr_learn,
    fst (fst (process_batch batch learner rwd)) = tr_choose ++ tr_observe ++ tr_learn
    /\ Forall is_choose tr_choose /\ (length tr_choose <= length batch)%nat
    /\ Forall is_observe tr_observe /\ (length tr_observe <= 1)%nat
    /\ Forall is_learn tr_learn /\ (length tr_learn <= length batch)%nat.
Proof.
  unfold process_batch.
  destruct (choose_loop learner batch) as [[tr1 l1] r1] eqn:H1.
  destruct (choose_loop_calls _ _ _ _ _ H1) as [Hc Hlen].
  pose proof (choose_loop_spec _ _ _ _ _ H1) as Hspec.
  destruct r1 as [choices|e].
  2:{ exists tr1, [], []. simpl. rewrite app_nil_r.
      repeat split; auto; try constructor; lia. }
  destruct Hspec as (rets & Hrets & _ & Hchoices).
  destruct (observe rwd (map triple choices)) as [rewards|e].
  2:{ exists tr1, [CallObserve (map triple choices) (Raise e)], []. simpl.
      repeat split; auto; try (repeat constructor); lia. }
  destruct (learn_loop l1 (combine choices rewards)) as [[tr2 l2] r2] eqn:H2.
  destruct (learn_loop_calls _ _ _ _ _ H2) as [Hl Hlen2].
  assert (Hlen3 : (length tr2 <= length batch)%nat).
  { rewrite length_combine, Hchoices, length_zip_with in Hlen2. lia. }
  exists tr1, [CallObserve (map triple choices) (Ok rewards)], tr2.
  destruct r2 as [[]|e]; simpl; repeat split; auto; repeat constructor.
Qed.

(** C1, as the code has it.  The calls of a batch are calls of [choose],
    then at most one call of the reward function, then calls of [learn], of
    each kind no more than the batch has interactions.  In a batch of N
    interactions in which no call raises, with a reward function that answers
    N choices with N rewards, they are, in this order: N calls of [choose],
    one per interaction in batch order; one call of the reward function with
    the N (key, context, chosen action) triples in that order; and N calls of
    [learn], one per interaction in the same order, each with the reward at
    its position and the probability its [choose] returned. *)
Theorem process_batch_protocol batch learner rwd :
  let tr := fst (fst (process_batch batch learner rwd)) in
  (exists tr_choose tr_observe tr_learn,
      tr = tr_choose ++ tr_observe ++ tr_learn
      /\ Forall is_choose tr_choose /\ (length tr_choose <= length batch)%nat
      /\ Forall is_observe tr_observe /\ (length tr_observe <= 1)%nat
      /\ Forall is_learn tr_learn /\ (length tr_learn <= length batch)%nat)
  /\ (forallb returned tr = true ->
      (forall choices rewards, observe rwd choices = Ok rewards ->
                               length rewards = length choices) ->
      exists rets rewards,
        length rets = length batch
        /\ length rewards = length batch
        /\ observe rwd (zip_with chosen batch rets) = Ok rewards
        /\ tr = zip_with choose_call batch rets
                ++ CallObserve (zip_with chosen batch rets) (Ok rewards)
                   :: learn_calls batch rets rewards
        /\ length (zip_with choose_call batch rets) = length batch
        /\ length (learn_calls batch rets rewards) = length batch).
Proof.
  intros tr. split; [apply process_batch_order|].
  intros Hret Haligned.
  destruct (process_batch batch learner rwd) as [[tr0 l'] r] eqn:Hpb.
  simpl in tr. subst tr.
  destruct (process_batch_shape _ _ _ _ _ _ Hpb Hret)
    as (rets & rewards & Hlen & Hobs & Htr & _).
  exists rets, rewards.
  assert (Hlen' : length rewards = length batch).
  { rewrite (Haligned _ _ Hobs), length_zip_with. lia. }
  repeat split; auto.
  - rewrite length_zip_with. lia.
  - unfold learn_calls. rewrite !length_zip_with. lia.
Qed.

Lemma process_batch_protocol_witness :
  exists rets rewards,
    length rets = length [interaction_1; interaction_2]
    /\ length rewards = length [interaction_1; interaction_2]
    /\ observe flat_reward (zip_with chosen [interaction_1; interaction_2] rets) = Ok rewards
    /\ fst (fst (process_batch [interaction_1; interaction_2] (adapter even_learner)
                   flat_reward))
       = zip_with choose_call [interaction_1; interaction_2] rets
         ++ CallObserve (zip_with chosen [interaction_1; interaction_2] rets) (Ok rewards)
            :: learn_calls [interaction_1; interaction_2] rets rewards
    /\ length (zip_with choose_call [interaction_1; interaction_2] rets)
       = length [interaction_1; interaction_2]
    /\ length (learn_calls [interaction_1; interaction_2] rets rewards)
       = length [interaction_1; interaction_2].
Proof.
  apply (process_batch_protocol [interaction_1; interaction_2] (adapter even_learner)
           flat_reward).
  - vm_compute. reflexivity.
  - intros choices rewards H. injection H as <-. apply length_map.
Defined.

(** C1, as stated, fails.  With a learner whose probabilities fail the test
    of [choose], a batch of two interactions has one call of [choose], which
    raises, and no other call.  With a reward function that answers two
    choices with one reward, the batch has two calls of [choose] and one call
    of [learn], and ends without an exception. *)
Lemma process_batch_fewer_calls :
  process_batch [interaction_1; interaction_2] (adapter broken_learner) flat_reward
  = ([CallChoose 0 (CTuple [1; 2; 3]) [1; 2] (Raise AssertionError)],
     adapter broken_learner, Raise AssertionError)
  /\ fst (process_batch [interaction_1; interaction_2] (adapter even_learner) single_reward)
     = ([CallChoose 0 (CTuple [1; 2; 3]) [1; 2] (Ok (1, f_0_5));
         CallChoose 1 CNone [1; 2] (Ok (1, f_0_5));
         CallObserve [(0, CTuple [1; 2; 3], 1); (1, CNone, 1)] (Ok [f_0_4]);
         CallLearn 0 (CTuple [1; 2; 3]) 1 f_0_4 f_0_5 (Ok tt)],
        {| _learner := with_state even_learner 1; _random := first_choice None |})
  /\ snd (process_batch [interaction_1; interaction_2] (adapter even_learner) single_reward)
     = Ok f_0_4.
Proof. vm_compute. repeat split. Qed.

(** An exception raised by a call is the outcome of the loop around it. *)
Lemma choose_loop_raises batch : forall learner tr l' r c e,
  choose_loop learner batch = (tr, l', r) -> In c tr -> raises c e -> r = Raise e.
Proof.
  induction batch as [|i batch IH]; intros learner tr l' r c e; simpl.
  - intros [= <- <- <-] [].
  - destruct (choose learner (key i) (context i) (actions i)) as [[[a p]|e0] l1].
    + destruct (choose_loop l1 batch) as [[tr1 l2] r1] eqn:Hloop.
      intros [= <- <- <-] [<-|Hin] Hr; [destruct Hr|].
      rewrite (IH _ _ _ _ _ _ Hloop Hin Hr). reflexivity.
    + intros [= <- <- <-] [<-|[]] Hr. simpl in Hr. congruence.
Qed.

Lemma learn_loop_raises items : forall learner tr l' r c e,
  learn_loop learner items = (tr, l', r) -> In c tr -> raises c e -> r = Raise e.
Proof.
  induction items as [|[ch w] items IH]; intros learner tr l' r c e; simpl.
  - intros [= <- <- <-] [].
  - destruct (learn learner _ _ _ _ _) as [[[]|e0] l1].
    + destruct (learn_loop l1 items) as [[tr1 l2] r1] eqn:Hloop.
      intros [= <- <- <-] [<-|Hin] Hr; [destruct Hr|].
      apply (IH _ _ _ _ _ _ Hloop Hin Hr).
    + intros [= <- <- <-] [<-|[]] Hr. simpl in Hr. congruence.
Qed.

Lemma choose_loop_Ok batch learner tr l' cs c e :
  choose_loop learner batch = (tr, l', Ok cs) -> In c tr -> ~ raises c e.
Proof.
  intros H Hin Hr. pose proof (choose_loop_raises _ _ _ _ _ _ _ H Hin Hr). discriminate.
Qed.

Lemma process_batch_raises batch learner rwd tr l' r c e :
  process_batch batch learner rwd = (tr, l', r) -> In c tr -> raises c e -> r = Raise e.
Proof.
  unfold process_batch.
  destruct (choose_loop learner batch) as [[tr1 l1] r1] eqn:H1.
  destruct r1 as [choices|e1].
  2:{ intros [= <- <- <-] Hin Hr.
      pose proof (choose_loop_raises _ _ _ _ _ _ _ H1 Hin Hr). congruence. }
  destruct (observe rwd (map triple choices)) as [rewards|e1] eqn:Hobs.
  2:{ intros [= <- <- <-] Hin Hr. apply in_app_or in Hin as [Hin|[<-|[]]].
      - exfalso. eapply choose_loop_Ok; eassumption.
      - simpl in Hr. congruence. }
  destruct (learn_loop l1 _) as [[tr2 l2] r2] eqn:H2.
  assert (Hgen : In c (tr1 ++ CallObserve (map triple choices) (Ok rewards) :: tr2) ->
                 raises c e -> r2 = Raise e).
  { intros Hin Hr. apply in_app_or in Hin as [Hin|[<-|Hin]].
    - exfalso. eapply choose_loop_Ok; eassumption.
    - destruct Hr.
    - eapply learn_loop_raises; eassumption. }
  destruct r2 as [[]|e2]; intros [= <- <- <-] Hin Hr;
    specialize (Hgen Hin Hr); congruence.
Qed.

Lemma process_batches_raises bs : forall learner rwd tr l' r c e,
  process_batches bs learner rwd = (tr, l', r) -> In c tr -> raises c e -> r = Raise e.
Proof.
  induction bs as [|batch bs IH]; intros learner rwd tr l' r c e; simpl.
  - intros [= <- <- <-] [].
  - destruct (process_batch batch learner rwd) as [[tr1 l1] r1] eqn:H1.
    destruct r1 as [m|e1].
    + destruct (process_batches bs l1 rwd) as [[tr2 l2] r2] eqn:H2.
      intros [= <- <- <-] Hin Hr. apply in_app_or in Hin as [Hin|Hin].
      * pose proof (process_batch_raises _ _ _ _ _ _ _ _ H1 Hin Hr). discriminate.
      * rewrite (IH _ _ _ _ _ _ _ H2 Hin Hr). reflexivity.
    + intros [= <- <- <-] Hin Hr.
      pose proof (process_batch_raises _ _ _ _ _ _ _ _ H1 Hin Hr). congruence.
Qed.

Lemma observations_choose_calls batch rets :
  observations (zip_with choose_call batch rets) = [].
Proof.
  revert rets. induction batch as [|i batch IH]; intros [|r rets]; simpl; auto.
Qed.

Lemma observations_learn_calls batch rets rewards :
  observations (learn_calls batch rets rewards) = [].
Proof.
  unfold learn_calls. generalize (zip batch rets). intros l. revert rewards.
  induction l as [|i l IH]; intros [|r rewards]; simpl; auto.
Qed.

Lemma chosen_keys batch rets :
  length rets = length batch ->
  map (fun c => (fst (fst c), snd (fst c))) (zip_with chosen batch rets)
  = map (fun i => (key i, context i)) batch.
Proof.
  revert rets. induction batch as [|i batch IH]; intros [|r rets] H; simpl in *;
    try congruence. f_equal. apply IH. lia.
Qed.

Lemma process_batch_observed batch learner rwd tr l' m :
  process_batch batch learner rwd = (tr, l', Ok m) ->
  exists ob, observations tr = [ob] /\ observed rwd batch ob m.
Proof.
  intros H. pose proof (process_batch_Ok _ _ _ _ _ _ H) as Hret.
  destruct (process_batch_shape _ _ _ _ _ _ H Hret)
    as (rets & rewards & Hlen & Hobs & -> & Hm).
  exists (zip_with chosen batch rets, rewards). split.
  - unfold observations. rewrite flat_map_app. simpl.
    fold (observations (zip_with choose_call batch rets)).
    fold (observations (learn_calls batch rets rewards)).
    rewrite observations_choose_calls, observations_learn_calls. reflexivity.
  - split; [apply chosen_keys, Hlen|]. split; [exact Hobs|]. symmetry. exact Hm.
Qed.

Lemma process_batches_observed bs : forall learner rwd tr l' ms,
  process_batches bs learner rwd = (tr, l', Ok ms) ->
  Forall3 (observed rwd) bs (observations tr) ms.
Proof.
  induction bs as [|batch bs IH]; intros learner rwd tr l' ms; simpl.
  - intros [= <- <- <-]. constructor.
  - destruct (process_batch batch learner rwd) as [[tr1 l1] [m|e]] eqn:H1; [|discriminate].
    destruct (process_batches bs l1 rwd) as [[tr2 l2] [ms'|e]] eqn:H2; [|discriminate].
    intros [= <- <- <-].
    destruct (process_batch_observed _ _ _ _ _ _ H1) as (ob & Hob & Hobs).
    unfold observations in *. rewrite flat_map_app, Hob. simpl.
    constructor; [exact Hobs|]. eapply IH. exact H2.
Qed.

(** ** One learner on one simulation *)

Lemma evaluate_Ok sim lrn l s bs tr t :
  evaluate sim lrn l s bs = (tr, Ok t) ->
  exists l0 calls l1,
    init l = (Ok tt, l0)
    /\ process_batches bs l0 (reward s) = (calls, l1, Ok (t_reward t))
    /\ tr = EvInit sim lrn (Ok tt) :: map (EvCall sim lrn) calls
    /\ Forall2 (fun batch c => int_median (context_sizes batch) = Ok c) bs (t_C t)
    /\ Forall2 (fun batch a => int_median (action_counts batch) = Ok a) bs (t_A t)
    /\ t_N t = map (fun batch => Z.of_nat (length batch)) bs
    /\ t_sim_id t = sim /\ t_lrn_id t = lrn.
Proof.
  unfold evaluate. destruct (init l) as [[[]|e] l0]; [|discriminate].
  destruct (result_map (fun batch => int_median (context_sizes batch)) bs)
    as [cs|e] eqn:Hcs; [|discriminate].
  destruct (result_map (fun batch => int_median (action_counts batch)) bs)
    as [acs|e] eqn:Hacs; [|discriminate].
  destruct (process_batches bs l0 (reward s)) as [[calls l1] [ms|e]] eqn:Hpb; [|discriminate].
  intros [= <- <-]. exists l0, calls, l1. simpl.
  repeat split; auto using result_map_Forall2.
Qed.

Lemma evaluate_events sim lrn l s bs :
  attempts (fst (evaluate sim lrn l s bs)) = [lrn]
  /\ transactions (fst (evaluate sim lrn l s bs)) = [].
Proof.
  unfold evaluate. destruct (init l) as [[[]|e] l0]; [|split; reflexivity].
  destruct (result_map (fun batch => int_median (context_sizes batch)) bs)
    as [cs|e]; [|split; reflexivity].
  destruct (result_map (fun batch => int_median (action_counts batch)) bs)
    as [acs|e]; [|split; reflexivity].
  destruct (process_batches bs l0 (reward s)) as [[tr l1] [ms|e]];
    unfold attempts, transactions; simpl;
    rewrite !flat_map_map_nil by reflexivity; split; reflexivity.
Qed.

Lemma evaluate_raises sim lrn l s bs c e :
  In (EvCall sim lrn c) (fst (evaluate sim lrn l s bs)) -> raises c e ->
  snd (evaluate sim lrn l s bs) = Raise e.
Proof.
  unfold evaluate. destruct (init l) as [[[]|e0] l0]; [|intros [H|[]]; discriminate].
  destruct (result_map (fun batch => int_median (context_sizes batch)) bs)
    as [cs|e0]; [|intros [H|[]]; discriminate].
  destruct (result_map (fun batch => int_median (action_counts batch)) bs)
    as [acs|e0]; [|intros [H|[]]; discriminate].
  destruct (process_batches bs l0 (reward s)) as [[tr l1] r] eqn:Hpb.
  assert (Hin : In (EvCall sim lrn c) (EvInit sim lrn (Ok tt) :: map (EvCall sim lrn) tr) ->
                In c tr).
  { intros [H|H]; [discriminate|]. apply in_map_iff in H as (c' & [= ->] & H). exact H. }
  destruct r as [ms|e0]; simpl; intros H Hr; apply Hin in H;
    pose proof (process_batches_raises _ _ _ _ _ _ _ _ Hpb H Hr); congruence.
Qed.

Lemma flat_map_calls sim lrn calls :
  flat_map (fun ev => match ev with EvCall _ _ c => [c] | _ => [] end)
    (map (EvCall sim lrn) calls) = calls.
Proof. induction calls as [|c calls IH]; simpl; congruence. Qed.

(** The integer [round] works with is a nearest one: it lies within half a
    unit of [a / 2^k]. *)
Lemma round_half_even_shift_nearest a k :
  0 < k ->
  2 * Z.abs (a - Float.round_half_even_shift a k * 2 ^ k) <= 2 ^ k.
Proof.
  intros Hk. unfold Float.round_half_even_shift.
  rewrite Z.shiftr_div_pow2, !Z.shiftl_mul_pow2 by lia.
  assert (Hd : 2 ^ k = 2 * 2 ^ (k - 1)).
  { replace k with (1 + (k - 1)) at 1 by lia. rewrite Z.pow_add_r by lia. reflexivity. }
  assert (Hh : 0 < 2 ^ (k - 1)) by (apply Z.pow_pos_nonneg; lia).
  pose proof (Z.div_mod a (2 ^ k) ltac:(lia)) as Hdm.
  pose proof (Z.mod_pos_bound a (2 ^ k) ltac:(lia)) as Hm.
  set (q := a / 2 ^ k) in *. set (r := a mod 2 ^ k) in *.
  replace (a - q * 2 ^ k) with r by lia.
  rewrite Z.mul_1_l.
  destruct (Z.ltb_spec r (2 ^ (k - 1))) as [H1|H1].
  - replace (a - q * 2 ^ k) with r by lia. lia.
  - destruct (Z.ltb_spec (2 ^ (k - 1)) r) as [H2|H2].
    + replace (a - (q + 1) * 2 ^ k) with (r - 2 ^ k) by lia. lia.
    + destruct (Z.even q).
      * replace (a - q * 2 ^ k) with r by lia. lia.
      * replace (a - (q + 1) * 2 ^ k) with (r - 2 ^ k) by lia. lia.
Qed.

(** ** The batch statistics *)

(** Halving a non-negative integer below 2^53 is exact in binary64, so
    [int((a + b) / 2)] is the integer quotient. *)
Lemma digits2_pos_size p : digits2_pos p = Pos.size p.
Proof. induction p; simpl; congruence. Qed.

Lemma Zdigits2_log2 p : Zdigits2 (Zpos p) = Z.log2 (Zpos p) + 1.
Proof.
  simpl. rewrite digits2_pos_size.
  destruct p; simpl; lia.
Qed.

Lemma div_core_half p :
  Z.log2 (Zpos p) <= 52 ->
  SFdiv_core_binary 53 1024 (Zpos p) 0 2 0
  = (Zpos p * 2 ^ (53 - Z.log2 (Zpos p)), Z.log2 (Zpos p) - 54, loc_Exact).
Proof.
  intros HL. pose proof (Z.log2_nonneg (Zpos p)) as H0.
  unfold SFdiv_core_binary. rewrite Zdigits2_log2.
  set (L := Z.log2 (Zpos p)) in *.
  change (Zdigits2 2) with 2.
  unfold fexp, emin.
  rewrite Z.max_l by lia. rewrite Z.min_l by lia.
  replace (0 - 0 - (L + 1 + 0 - (2 + 0) - 53)) with (54 - L) by lia.
  destruct (54 - L) as [|s|s] eqn:Hs; try lia.
  rewrite Z.shiftl_mul_pow2 by lia.
  destruct (Z.div_eucl (Zpos p * 2 ^ Zpos s) 2) as [q r] eqn:Hde.
  assert (Hq : q = Zpos p * 2 ^ Zpos s / 2) by (unfold Z.div; rewrite Hde; reflexivity).
  assert (Hr : r = Zpos p * 2 ^ Zpos s mod 2) by (unfold Z.modulo; rewrite Hde; reflexivity).
  assert (Hpow : 2 ^ Zpos s = 2 ^ (53 - L) * 2).
  { rewrite <- Hs. replace (54 - L) with (53 - L + 1) by lia.
    rewrite Z.pow_add_r by lia. reflexivity. }
  rewrite Hpow, Z.mul_assoc in Hq, Hr.
  rewrite Z.div_mul in Hq by lia. rewrite Z.mod_mul in Hr by lia.
  subst q r. f_equal. f_equal. lia.
Qed.

Lemma round_aux_even q2 e :
  Z.log2 (Zpos q2) = 52 -> -1075 <= e <= 970 ->
  binary_round_aux 53 1024 false (Zpos q2~0) e loc_Exact = S754_finite false q2 (e + 1).
Proof.
  intros HL He.
  assert (HL' : Z.log2 (Zpos q2~0) = 53).
  { change (Zpos q2~0) with (2 * Zpos q2). rewrite Z.log2_double by lia. lia. }
  unfold binary_round_aux, shr_fexp.
  rewrite (Zdigits2_log2 (q2~0)), HL'.
  unfold fexp, emin. rewrite Z.max_l by lia.
  replace (53 + 1 + e - 53 - e) with 1 by lia.
  cbn [shr shr_record_of_loc SpecFloat.iter_pos shr_1 loc_of_shr_record
       round_nearest_even shr_m orb].
  rewrite Zdigits2_log2, HL.
  rewrite Z.max_l by lia.
  replace (52 + 1 + (e + 1) - 53 - (e + 1)) with 0 by lia.
  cbn [shr shr_m shr_record_of_loc].
  destruct (Z.leb_spec (e + 1) (1024 - 53)); [reflexivity|lia].
Qed.

Lemma to_int_half z :
  0 <= z < 2 ^ 53 -> Float.to_int (Float.of_ratio z 2) = Ok (z / 2).
Proof.
  intros Hz. destruct z as [|p|p]; [reflexivity| |lia].
  assert (HL : Z.log2 (Zpos p) <= 52).
  { assert (Z.log2 (Zpos p) < 53) by (apply Z.log2_lt_pow2; lia). lia. }
  pose proof (Z.log2_nonneg (Zpos p)) as H0.
  unfold Float.of_ratio, Float.div, SFdiv, Float.prec, Float.emax.
  rewrite (div_core_half p HL).
  set (L := Z.log2 (Zpos p)) in *.
  assert (Hq : exists q2, Zpos p * 2 ^ (53 - L) = Zpos q2~0
                          /\ Zpos q2 = Zpos p * 2 ^ (52 - L)).
  { exists (Z.to_pos (Zpos p * 2 ^ (52 - L))).
    assert (0 < Zpos p * 2 ^ (52 - L)) by (apply Z.mul_pos_pos; [lia|apply Z.pow_pos_nonneg; lia]).
    rewrite Pos2Z.inj_xO, Z2Pos.id by assumption.
    split; [|reflexivity].
    replace (53 - L) with (52 - L + 1) by lia.
    rewrite Z.pow_add_r by lia. lia. }
  destruct Hq as (q2 & Hq & Hq2). rewrite Hq.
  rewrite round_aux_even.
  - unfold Float.to_int.
    destruct (L - 54 + 1) as [|k|k] eqn:Hk; try lia.
    rewrite Z.shiftr_div_pow2 by lia. f_equal.
    rewrite Hq2.
    assert (Hpow : 2 ^ Zpos k = 2 * 2 ^ (52 - L)).
    { replace (Zpos k) with (1 + (52 - L)) by lia. rewrite Z.pow_add_r by lia. reflexivity. }
    rewrite Hpow, Z.div_mul_cancel_r; [reflexivity|lia|].
    apply Z.pow_nonzero; lia.
  - rewrite Hq2, Z.log2_mul_pow2 by lia. fold L. lia.
  - lia.
Qed.

Lemma context_size_range c : 0 <= context_size c.
Proof. destruct c; simpl; lia. Qed.

(** The integer median of the context sizes of a batch. *)
Lemma int_median_context_sizes (batch : list Interaction) :
  Forall (fun i => context_size (context i) < 2 ^ 52) batch ->
  let sizes := sorted id (context_sizes batch) in
  let n := length batch in
  (n = 0%nat -> int_median (context_sizes batch) = Raise StatisticsError)
  /\ ((n mod 2 = 1)%nat -> int_median (context_sizes batch) = Ok (nth (n / 2) sizes 0))
  /\ (n <> 0%nat -> (n mod 2 = 0)%nat ->
      int_median (context_sizes batch)
      = Ok ((nth (n / 2 - 1) sizes 0 + nth (n / 2) sizes 0) / 2)).
Proof.
  intros Hb sizes n.
  assert (Hlen : length sizes = n).
  { unfold sizes, context_sizes. rewrite length_sorted, length_map. reflexivity. }
  assert (Hall : Forall (fun z => 0 <= z < 2 ^ 52) sizes).
  { unfold sizes. rewrite sorted_Permutation. unfold context_sizes.
    apply Forall_map. eapply Forall_impl; [exact Hb|].
    intros i Hi. simpl. split; [apply context_size_range|exact Hi]. }
  unfold int_median, median. fold sizes. rewrite Hlen.
  split; [|split].
  - intros ->. reflexivity.
  - intros Hodd. destruct (Nat.eqb_spec n 0) as [->|_]; [discriminate|].
    rewrite Hodd. reflexivity.
  - intros Hn Heven. destruct (Nat.eqb_spec n 0) as [|_]; [contradiction|].
    rewrite Heven. simpl.
    assert (Hd : 0 <= 0 < 2 ^ 52) by (split; reflexivity || discriminate).
    assert (Ha := nth_Forall _ sizes (n / 2 - 1)%nat 0 Hall Hd).
    assert (Hc := nth_Forall _ sizes (n / 2)%nat 0 Hall Hd).
    simpl in Ha, Hc. apply to_int_half.
    change (2 ^ 53) with (2 ^ 52 + 2 ^ 52). lia.
Qed.

(** C9, as the code has it.  The context size a transaction records for a
    batch is [int(median(sizes))] of the context sizes of its interactions,
    a size being 0 for no context, the number of elements for a tuple and 1
    otherwise: the middle value for an odd number of interactions, and for an
    even number the mean of the two middle values cut to an integer, which
    is their sum halved and rounded down (not the lower of the two).  A
    batch with the contexts (1,2,3) and None, of sizes 3 and 0, records 1. *)
Theorem recorded_context_size sim lrn l s bs tr t :
  evaluate sim lrn l s bs = (tr, Ok t) ->
  Forall (Forall (fun i => context_size (context i) < 2 ^ 52)) bs ->
  Forall2 (fun batch c =>
             let sizes := sorted id (context_sizes batch) in
             let n := length batch in
             n <> 0%nat
             /\ ((n mod 2 = 1)%nat -> c = nth (n / 2) sizes 0)
             /\ ((n mod 2 = 0)%nat ->
                 c = (nth (n / 2 - 1) sizes 0 + nth (n / 2) sizes 0) / 2))
    bs (t_C t)
  /\ (forall c, context_size c = match c with
                                 | CNone => 0
                                 | CTuple items => Z.of_nat (length items)
                                 | COther _ => 1
                                 end)
  /\ context_sizes [interaction_1; interaction_2] = [3; 0]
  /\ int_median [3; 0] = Ok 1.
Proof.
  intros H Hb. destruct (evaluate_Ok _ _ _ _ _ _ _ H) as (_ & _ & _ & _ & _ & _ & Hc & _).
  split; [|split; [intros []; reflexivity|split; reflexivity]].
  clear H. induction Hc as [|batch c bs cs Hbc Hc IH]; [constructor|].
  inversion Hb as [|? ? Hbatch Hbs]; subst.
  constructor; [|exact (IH Hbs)].
  destruct (int_median_context_sizes batch Hbatch) as (H0 & Hodd & Heven).
  split; [|split].
  - intros Hn. rewrite (H0 Hn) in Hbc. discriminate.
  - intros Hn. rewrite (Hodd Hn) in Hbc. congruence.
  - intros Hn. rewrite Heven in Hbc; [congruence| |exact Hn].
    intros Hz. rewrite (H0 Hz) in Hbc. discriminate.
Qed.

Lemma recorded_context_size_witness :
  Forall2 (fun batch c =>
             let sizes := sorted id (context_sizes batch) in
             let n := length batch in
             n <> 0%nat
             /\ ((n mod 2 = 1)%nat -> c = nth (n / 2) sizes 0)
             /\ ((n mod 2 = 0)%nat ->
                 c = (nth (n / 2 - 1) sizes 0 + nth (n / 2) sizes 0) / 2))
    [[interaction_1; interaction_2]] [1]
  /\ (forall c, context_size c = match c with
                                 | CNone => 0
                                 | CTuple items => Z.of_nat (length items)
                                 | COther _ => 1
                                 end)
  /\ context_sizes [interaction_1; interaction_2] = [3; 0]
  /\ int_median [3; 0] = Ok 1.
Proof.
  apply (recorded_context_size 0 0 (adapter even_learner) paired_simulation
           (batchify paired_simulation)
           (fst (evaluate 0 0 (adapter even_learner) paired_simulation
                   (batchify paired_simulation)))
           {| t_sim_id := 0; t_lrn_id := 0; t_C := [1]; t_A := [2]; t_N := [2];
              t_reward := [f_0_4] |}).
  - vm_compute. reflexivity.
  - repeat constructor.
Defined.

(** C9, as stated, fails: for the two contexts (1,2,3) and None the sizes are
    3 and 0, the lower of the two middle values is 0, and the integer median
    is 1. *)
Lemma context_size_not_lower_middle :
  context_sizes [interaction_1; interaction_2] = [3; 0]
  /\ lower_middle (context_sizes [interaction_1; interaction_2]) = 0
  /\ int_median (context_sizes [interaction_1; interaction_2]) = Ok 1
  /\ int_median (context_sizes [interaction_1; interaction_2])
     <> Ok (lower_middle (context_sizes [interaction_1; interaction_2])).
Proof.
  split; [reflexivity|]. split; [reflexivity|]. split; [reflexivity|].
  vm_compute. discriminate.
Qed.

(** ** The task generator *)

Lemma Tasks_loop_map new pairs d obj seed :
  map (fun t => ((sim_id t, _pipe (simulation t)), (lrn_id t, _learner (learner t))))
    (Tasks_loop new pairs d obj seed) = pairs.
Proof.
  revert d obj.
  induction pairs as [|[[s p] [l lr]] pairs IH]; intros d obj; simpl; [reflexivity|].
  destruct (SourceIds_get d _) as [sid d'].
  simpl. f_equal. apply IH.
Qed.

(** C3.  Reading the task generator gives one task per pair of the cross
    product of the simulations and the learners, in nested (simulation,
    learner) order; the ids of a task are the positions of its simulation
    and its learner in the sequences given; there are |S| * |L| tasks and no
    two have the same pair of ids. *)
Theorem Tasks_read_cross_product new sims lrns seed obj :
  let tasks := Tasks_read new sims lrns seed obj in
  length tasks = (length sims * length lrns)%nat
  /\ map (fun t => ((sim_id t, _pipe (simulation t)), (lrn_id t, _learner (learner t)))) tasks
     = product (enumerate sims) (enumerate lrns)
  /\ map (fun t => (sim_id t, lrn_id t)) tasks
     = product (map Z.of_nat (seq 0 (length sims))) (map Z.of_nat (seq 0 (length lrns)))
  /\ NoDup (map (fun t => (sim_id t, lrn_id t)) tasks).
Proof.
  intros tasks.
  assert (Hmap : map (fun t => ((sim_id t, _pipe (simulation t)),
                                (lrn_id t, _learner (learner t)))) tasks
                 = product (enumerate sims) (enumerate lrns))
    by apply Tasks_loop_map.
  assert (Hids : map (fun t => (sim_id t, lrn_id t)) tasks
                 = product (map Z.of_nat (seq 0 (length sims)))
                     (map Z.of_nat (seq 0 (length lrns)))).
  { rewrite <- !fst_enumerate, <- map_product, <- Hmap, map_map. reflexivity. }
  split; [|split; [exact Hmap|split; [exact Hids|]]].
  - rewrite <- (length_map (fun t => (sim_id t, lrn_id t))), Hids, length_product.
    rewrite !length_map, !length_seq. reflexivity.
  - rewrite Hids. apply NoDup_product;
      (apply (NoDup_fmap_2 Z.of_nat), NoDup_seq).
Qed.

Lemma SourceIds_new_wf : SourceIds_wf SourceIds_new.
Proof.
  split; simpl.
  - rewrite map_size_empty. reflexivity.
  - intros k v H. rewrite lookup_empty in H. discriminate.
  - intros k1 k2 v H. rewrite lookup_empty in H. discriminate.
Qed.

Lemma SourceIds_get_wf d k v d' :
  SourceIds_wf d -> SourceIds_get d k = (v, d') ->
  SourceIds_wf d'
  /\ ids d' !! k = Some v
  /\ ids d ⊆ ids d'
  /\ dom (ids d') = {[k]} ∪ dom (ids d)
  /\ (k ∉ dom (ids d) -> v = Z.of_nat (size (dom (ids d)))).
Proof.
  intros [Hc Hr Hi]. unfold SourceIds_get.
  destruct (ids d !! k) as [v0|] eqn:Hk; intros Heq; inversion Heq; subst; clear Heq.
  - split; [split; assumption|]. split; [assumption|]. split; [reflexivity|]. split.
    + apply set_eq. intros x. rewrite elem_of_union, elem_of_singleton, !elem_of_dom.
      split; [auto|]. intros [->|H]; [eauto|exact H].
    + intros Hn. exfalso. apply Hn, elem_of_dom. eauto.
  - simpl. split; [split; simpl|].
    + rewrite map_size_insert_None by exact Hk. lia.
    + intros k' v'. rewrite lookup_insert. case_decide as Hd.
      * intros [= <-]. lia.
      * intros Hv. apply Hr in Hv. lia.
    + intros k1 k2 v'. rewrite !lookup_insert.
      repeat case_decide; subst; try congruence.
      * intros [= <-] Hv. apply Hr in Hv. lia.
      * intros Hv [= <-]. apply Hr in Hv. lia.
      * apply Hi.
    + split; [apply lookup_insert_eq|]. split; [apply insert_subseteq; exact Hk|].
      split; [apply dom_insert_L|].
      intros _. rewrite size_dom. exact Hc.
Qed.

Lemma Tasks_loop_source_ids new seed pairs :
  forall d obj, SourceIds_wf d ->
  let tasks := Tasks_loop new pairs d obj seed in
  exists d',
    SourceIds_wf d'
    /\ ids d ⊆ ids d'
    /\ (forall t, t ∈ tasks -> ids d' !! task_source_obj t = Some (src_id t))
    /\ (forall j t, tasks !! j = Some t ->
        let seen : gset obj_id :=
          dom (ids d) ∪ list_to_set (map task_source_obj (take j tasks)) in
        task_source_obj t ∉ seen -> src_id t = Z.of_nat (size seen)).
Proof.
  induction pairs as [|[[s p] [l lr]] pairs IH]; intros d obj Hwf; simpl.
  - exists d. split; [assumption|]. split; [reflexivity|]. split.
    + intros t Ht. inversion Ht.
    + intros j t Ht. rewrite lookup_nil in Ht. discriminate.
  - set (k := source_obj match p with SourceFilters src _ => src | PlainSource src => src end).
    destruct (SourceIds_get d k) as [sid d1] eqn:Hget.
    destruct (SourceIds_get_wf _ _ _ _ Hwf Hget) as (Hwf1 & Hk1 & Hsub1 & Hdom1 & Hnew).
    destruct (IH d1 (S obj) Hwf1) as (d' & Hwf' & Hsub' & Hall & Hnum).
    exists d'. split; [assumption|]. split; [etransitivity; eassumption|]. split.
    + intros t Ht. apply elem_of_cons in Ht as [->|Ht]; [|apply Hall, Ht].
      unfold task_source_obj, source. simpl. fold k.
      eapply lookup_weaken; eassumption.
    + intros [|j] t Ht; simpl in Ht.
      * inversion Ht; subst t. simpl. unfold task_source_obj at 1, source; simpl. fold k.
        rewrite union_empty_r_L. intros Hn. simpl. apply Hnew, Hn.
      * simpl. intros Hn.
        assert (Heq : dom (ids d) ∪ ({[task_source_obj
                        (BenchmarkTask_new new obj sid s l p lr seed)]}
                        ∪ list_to_set (map task_source_obj
                            (take j (Tasks_loop new pairs d1 (S obj) seed))))
                      = dom (ids d1) ∪ list_to_set (map task_source_obj
                            (take j (Tasks_loop new pairs d1 (S obj) seed)))).
        { rewrite Hdom1. unfold task_source_obj at 1, source; simpl. fold k.
          apply set_eq. intros x. rewrite !elem_of_union, elem_of_singleton. tauto. }
        rewrite Heq in Hn |- *. apply (Hnum j t Ht Hn).
Qed.

(** C4.  In one reading of the task generator, two tasks have the same
    source id exactly when their simulation handles wrap the same source
    object, whatever the filters; and a task whose source is met for the
    first time gets as id the number of distinct sources met before it, so
    the ids are 0, 1, 2, ... in the order the sources are first met. *)
Theorem source_ids_first_occurrence new sims lrns seed obj :
  let tasks := Tasks_read new sims lrns seed obj in
  (forall t1 t2, t1 ∈ tasks -> t2 ∈ tasks ->
     (src_id t1 = src_id t2 <-> task_source_obj t1 = task_source_obj t2))
  /\ (forall j t, tasks !! j = Some t ->
        let seen : gset obj_id := list_to_set (map task_source_obj (take j tasks)) in
        (task_source_obj t ∉ seen -> src_id t = Z.of_nat (size seen))).
Proof.
  intros tasks.
  destruct (Tasks_loop_source_ids new seed (product (enumerate sims) (enumerate lrns))
              SourceIds_new obj SourceIds_new_wf) as (d' & Hwf & _ & Hall & Hnum).
  fold (Tasks_read new sims lrns seed obj) in Hall, Hnum. fold tasks in Hall, Hnum.
  split.
  - intros t1 t2 H1 H2. apply Hall in H1, H2. split.
    + intros Heq. rewrite Heq in H1. eapply (wf_inj _ Hwf); eassumption.
    + intros Heq. rewrite Heq in H1. congruence.
  - intros j t Ht seen Hn. specialize (Hnum j t Ht). simpl in Hnum.
    rewrite dom_empty_L, union_empty_l_L in Hnum. apply Hnum, Hn.
Qed.

Lemma source_ids_first_occurrence_witness :
  (src_id (nth 0 example_tasks (example_task 0 0))
   = src_id (nth 2 example_tasks (example_task 0 0))
   <-> task_source_obj (nth 0 example_tasks (example_task 0 0))
       = task_source_obj (nth 2 example_tasks (example_task 0 0)))
  /\ src_id (nth 1 example_tasks (example_task 0 0))
     = Z.of_nat (size (list_to_set (map task_source_obj (take 1 example_tasks))
                       : gset obj_id)).
Proof.
  destruct (source_ids_first_occurrence first_choice
              [SourceFilters source_X take_1; PlainSource source_Y;
               SourceFilters source_X IdentityFilter]
              [even_learner] None 100%nat) as [Hsame Hfirst].
  split.
  - apply Hsame; apply list_elem_of_lookup.
    + exists 0%nat. reflexivity.
    + exists 2%nat. reflexivity.
  - apply (Hfirst 1%nat); [reflexivity|].
    rewrite elem_of_list_to_set. intros H. apply list_elem_of_In in H.
    destruct H as [H|[]]. discriminate.
Defined.

(** ** The completion filter *)

Lemma in_pairs_spec p l : in_pairs p l = true <-> p ∈ l.
Proof.
  unfold in_pairs. rewrite existsb_exists. split.
  - intros ([a b] & Hin & Heq). simpl in Heq.
    apply andb_true_iff in Heq as [H1 H2]. apply Z.eqb_eq in H1, H2.
    destruct p as [c d]. simpl in *. subst. apply list_elem_of_In, Hin.
  - intros Hin. exists p. split; [apply list_elem_of_In, Hin|].
    rewrite !Z.eqb_refl. reflexivity.
Qed.

Lemma in_zero_batch_spec restored sim :
  in_ints sim (map row_simulation_id (get_where_batch_count (simulations restored) 0)) = true
  <-> Exists (fun row => row_simulation_id row = sim /\ row_batch_count row = 0)
        (simulations restored).
Proof.
  unfold in_ints, get_where_batch_count. rewrite existsb_exists, Exists_exists. split.
  - intros (z & Hin & Heq). apply Z.eqb_eq in Heq. subst z.
    apply in_map_iff in Hin as (row & Hid & Hin).
    apply filter_In in Hin as [Hin Hc]. apply Z.eqb_eq in Hc.
    exists row. split; [apply list_elem_of_In, Hin|]. auto.
  - intros (row & Hin & Hid & Hc). exists sim. split; [|apply Z.eqb_refl].
    apply in_map_iff. exists row. split; [exact Hid|].
    apply filter_In. split; [apply list_elem_of_In, Hin|]. apply Z.eqb_eq, Hc.
Qed.

Lemma is_not_complete_spec restored t :
  is_not_complete restored (sim_id t) (lrn_id t) = true <-> outstanding restored t.
Proof.
  unfold is_not_complete, outstanding.
  rewrite andb_true_iff, !negb_true_iff, <- !not_true_iff_false.
  rewrite in_pairs_spec, in_zero_batch_spec. reflexivity.
Qed.

(** C5.  The completion filter keeps exactly the tasks whose pair of ids has
    no recorded result and whose simulation is not recorded with zero
    batches, in the order of its input.  With a result for the pair (2, 1)
    and no batch for simulation 3, the six tasks of simulations 1, 2, 3 and
    learners 0, 1 leave (1, 0), (1, 1) and (2, 0). *)
Theorem Unfinished_filter_outstanding restored tasks :
  Unfinished_filter restored tasks = filter (outstanding restored) tasks
  /\ sublist (Unfinished_filter restored tasks) tasks
  /\ map (fun t => (sim_id t, lrn_id t)) six_tasks
     = [(1, 0); (1, 1); (2, 0); (2, 1); (3, 0); (3, 1)]
  /\ map (fun t => (sim_id t, lrn_id t)) (Unfinished_filter example_restored six_tasks)
     = [(1, 0); (1, 1); (2, 0)].
Proof.
  assert (Heq : Unfinished_filter restored tasks = filter (outstanding restored) tasks).
  { unfold Unfinished_filter. induction tasks as [|t tasks IH]; [reflexivity|].
    rewrite filter_cons. simpl.
    destruct (is_not_complete restored (sim_id t) (lrn_id t)) eqn:Hc.
    - apply is_not_complete_spec in Hc. rewrite decide_True by exact Hc.
      f_equal. exact IH.
    - rewrite decide_False; [exact IH|].
      intros Ho. apply is_not_complete_spec in Ho. congruence. }
  split; [exact Heq|]. split; [rewrite Heq; apply sublist_filter|].
  split; reflexivity.
Qed.

(** ** The learners of one simulation *)

Lemma reversed_range_S n : reversed_range (S n) = n :: reversed_range n.
Proof. unfold reversed_range. rewrite seq_S, rev_app_distr. reflexivity. Qed.

(** The loop over the indices, with its deletions, is the queue of pending
    learners attempted from its last element to its first. *)
Lemma learners_loop_queue ignore_raise sim s bs queue :
  learners_loop ignore_raise sim s bs (reversed_range (length queue))
    (map fst queue) (map snd queue)
  = let '(o, rest) := run_learners ignore_raise sim s bs (rev queue) in
    (o, (map fst (rev rest), map snd (rev rest))).
Proof.
  induction queue as [|[lrn l] queue IH] using rev_ind; [reflexivity|].
  rewrite length_app, Nat.add_1_r, reversed_range_S, rev_app_distr, !map_app.
  simpl rev. simpl app. cbn [learners_loop map fst snd run_learners].
  assert (H1 : (map fst queue ++ [lrn]) !! length queue = Some lrn)
    by (rewrite <- (length_map fst queue); apply lookup_last).
  assert (H2 : (map snd queue ++ [l]) !! length queue = Some l)
    by (rewrite <- (length_map snd queue); apply lookup_last).
  assert (H3 : delete (length queue) (map fst queue ++ [lrn]) = map fst queue)
    by (rewrite <- (length_map fst queue) at 1; apply delete_last).
  assert (H4 : delete (length queue) (map snd queue ++ [l]) = map snd queue)
    by (rewrite <- (length_map snd queue) at 1; apply delete_last).
  rewrite H1, H2, H3, H4.
  destruct (evaluate sim lrn l s bs) as [tr [t|e]].
  - rewrite IH. destruct (run_learners _ _ _ _ _) as [[tr' r'] rest]. reflexivity.
  - destruct (is_Exception e); [destruct ignore_raise|].
    + rewrite IH. destruct (run_learners _ _ _ _ _) as [[tr' r'] rest]. reflexivity.
    + rewrite rev_involutive. reflexivity.
    + rewrite rev_involutive. reflexivity.
Qed.

Lemma learners_loop_combine ignore_raise sim s bs ids learners :
  length ids = length learners ->
  learners_loop ignore_raise sim s bs (reversed_range (length learners)) ids learners
  = let '(o, rest) := run_learners ignore_raise sim s bs (rev (combine ids learners)) in
    (o, (map fst (rev rest), map snd (rev rest))).
Proof.
  intros Hlen. rewrite <- learners_loop_queue.
  rewrite map_fst_combine_eq, map_snd_combine_eq by exact Hlen.
  rewrite length_combine, Hlen, Nat.min_id. reflexivity.
Qed.

(** The learners attempted are a first part of the queue, and what is left
    is the rest of it. *)
Lemma run_learners_progress ignore_raise sim s bs queue :
  let '((tr, r), rest) := run_learners ignore_raise sim s bs queue in
  exists done,
    queue = done ++ rest
    /\ attempts tr = map fst done
    /\ transactions tr = flat_map (learner_record sim s bs) done
    /\ (r = Ok tt -> rest = []).
Proof.
  induction queue as [|[lrn l] queue IH]; simpl.
  - exists []. auto.
  - pose proof (evaluate_events sim lrn l s bs) as [Ha Ht].
    assert (Hrec : forall r tr0, evaluate sim lrn l s bs = (tr0, r) ->
              learner_record sim s bs (lrn, l)
              = match r with Ok t => [t] | Raise _ => [] end).
    { intros r tr0 H. unfold learner_record. simpl. rewrite H. reflexivity. }
    destruct (evaluate sim lrn l s bs) as [tr [t|e]] eqn:Hev; simpl in Ha, Ht;
      specialize (Hrec _ _ eq_refl).
    + destruct (run_learners _ _ _ _ queue) as [[tr' r'] rest].
      destruct IH as (done & -> & Ha' & Ht' & Hr).
      exists ((lrn, l) :: done). unfold attempts, transactions in *.
      rewrite !flat_map_app. simpl. rewrite Ha, Ht, Ha', Ht', Hrec. auto.
    + destruct (is_Exception e); [destruct ignore_raise|].
      * destruct (run_learners _ _ _ _ queue) as [[tr' r'] rest].
        destruct IH as (done & -> & Ha' & Ht' & Hr).
        exists ((lrn, l) :: done). unfold attempts, transactions in *.
        rewrite !flat_map_app. simpl. rewrite Ha, Ht, Ha', Ht', Hrec. auto.
      * exists [(lrn, l)]. unfold attempts, transactions in *.
        rewrite !flat_map_app. simpl. rewrite Ha, Ht, Hrec.
        repeat split; auto. discriminate.
      * exists [(lrn, l)]. unfold attempts, transactions in *.
        simpl. rewrite Ha, Ht, Hrec. rewrite !app_nil_r. repeat split; auto. discriminate.
Qed.

(** When every exception is suppressed the whole queue is attempted. *)
Lemma run_learners_complete ignore_raise sim s bs queue :
  (forall q e, q ∈ queue -> snd (evaluate sim (fst q) (snd q) s bs) = Raise e ->
               ignore_raise = true /\ is_Exception e = true) ->
  run_learners ignore_raise sim s bs queue
  = ((concat (map (learner_chunk sim s bs) queue), Ok tt), []).
Proof.
  induction queue as [|[lrn l] queue IH]; intros H; simpl; [reflexivity|].
  assert (Hq : forall q e, q ∈ queue ->
             snd (evaluate sim (fst q) (snd q) s bs) = Raise e ->
             ignore_raise = true /\ is_Exception e = true).
  { intros q e Hin. apply H. right. exact Hin. }
  specialize (H (lrn, l)). simpl in H. unfold learner_chunk at 1. simpl.
  destruct (evaluate sim lrn l s bs) as [tr [t|e]].
  - rewrite (IH Hq). rewrite <- app_assoc. reflexivity.
  - destruct (H e) as [-> ->]; [left|reflexivity|].
    rewrite (IH Hq). rewrite <- app_assoc. reflexivity.
Qed.

(** C7, as the code has it.  The learners of a simulation with at least one
    batch are attempted in the reverse of the order in which they were
    collected, each removed from the pending lists right after its attempt,
    also when it raises: at any exit of the loop the attempts made are a
    first part of the reversed order and the pending lists hold exactly the
    learners not attempted.  When the loop runs to its end every learner
    has been attempted once and none is left pending; it runs to its end
    when no attempt raises, or failures are suppressed and what is raised is
    an [Exception]. *)
Theorem learners_reverse_order ignore_raise sim s bs ids learners :
  length ids = length learners ->
  let '((tr, r), (ids', learners')) :=
    learners_loop ignore_raise sim s bs (reversed_range (length learners)) ids learners in
  (exists k, (k <= length ids)%nat
      /\ attempts tr = take k (rev ids)
      /\ ids' = take (length ids - k) ids
      /\ learners' = take (length ids - k) learners)
  /\ (r = Ok tt -> attempts tr = rev ids /\ ids' = [] /\ learners' = [])
  /\ ((forall lrn l e, In (lrn, l) (combine ids learners) ->
         snd (evaluate sim lrn l s bs) = Raise e ->
         ignore_raise = true /\ is_Exception e = true) ->
      r = Ok tt).
Proof.
  intros Hlen. rewrite learners_loop_combine by exact Hlen.
  pose proof (run_learners_progress ignore_raise sim s bs (rev (combine ids learners))) as Hp.
  destruct (run_learners _ _ _ _ _) as [[tr r] rest] eqn:Hrun.
  destruct Hp as (done & Hq & Ha & _ & Hr).
  assert (Hcomb : combine ids learners = rev rest ++ rev done).
  { rewrite <- rev_app_distr, <- Hq, rev_involutive. reflexivity. }
  assert (Hids : ids = map fst (rev rest) ++ map fst (rev done)).
  { rewrite <- map_app, <- Hcomb, map_fst_combine_eq by exact Hlen. reflexivity. }
  assert (Hlrn : learners = map snd (rev rest) ++ map snd (rev done)).
  { rewrite <- map_app, <- Hcomb, map_snd_combine_eq by exact Hlen. reflexivity. }
  assert (Hk : length ids = (length rest + length done)%nat).
  { rewrite Hids at 1. rewrite length_app, !length_map, !length_rev. reflexivity. }
  split.
  - exists (length done). split; [lia|]. split; [|split].
    + rewrite Ha. apply (take_prefix _ _ (map fst rest)).
      * rewrite <- map_app, <- Hq, map_rev, map_fst_combine_eq by exact Hlen. reflexivity.
      * rewrite length_map. reflexivity.
    + apply (take_prefix _ _ _ _ Hids). rewrite length_map, length_rev. lia.
    + apply (take_prefix _ _ _ _ Hlrn). rewrite length_map, length_rev. lia.
  - split.
    + intros Hok. rewrite (Hr Hok) in *. rewrite app_nil_r in Hq.
      split; [|split; reflexivity].
      rewrite Ha, <- Hq, map_rev, map_fst_combine_eq by exact Hlen.
      reflexivity.
    + intros Hraise. rewrite run_learners_complete in Hrun.
      * injection Hrun as _ Hr' _. congruence.
      * intros [lrn l] e Hin. apply (Hraise lrn l e).
        apply list_elem_of_In in Hin. apply in_rev in Hin. exact Hin.
Qed.

Lemma learners_reverse_order_witness :
  let '((tr, r), (ids', learners')) :=
    learners_loop true 0 plain_simulation (batchify plain_simulation)
      (reversed_range
         (length [adapter even_learner; adapter broken_learner; adapter even_learner]))
      [0; 1; 2]
      [adapter even_learner; adapter broken_learner; adapter even_learner] in
  (exists k, (k <= length [0; 1; 2])%nat
      /\ attempts tr = take k (rev [0; 1; 2])
      /\ ids' = take (length [0; 1; 2] - k) [0; 1; 2]
      /\ learners' = take (length [0; 1; 2] - k)
           [adapter even_learner; adapter broken_learner; adapter even_learner])
  /\ r = Ok tt /\ attempts tr = rev [0; 1; 2] /\ ids' = [] /\ learners' = [].
Proof.
  pose proof (learners_reverse_order true 0 plain_simulation (batchify plain_simulation)
                [0; 1; 2]
                [adapter even_learner; adapter broken_learner; adapter even_learner]
                eq_refl) as H.
  destruct (learners_loop true 0 plain_simulation (batchify plain_simulation) _ _ _)
    as [[tr r] [ids' learners']].
  destruct H as (H1 & H2 & H3). split; [exact H1|].
  assert (Hr : r = Ok tt); [|split; [exact Hr|exact (H2 Hr)]].
  apply H3. intros lrn l e Hin Hev. split; [reflexivity|].
  destruct Hin as [Hin|[Hin|[Hin|[]]]]; injection Hin as <- <-;
    vm_compute in Hev; try discriminate.
  injection Hev as <-. reflexivity.
Defined.

(** C7, as stated, fails: with failures not suppressed, the learner
    collected last is attempted first, its evaluation raises, and the
    learner collected first is never attempted and stays pending. *)
Lemma unsuppressed_failure_leaves_pending :
  let '((tr, r), (ids', learners')) :=
    learners_loop false 0 plain_simulation (batchify plain_simulation)
      (reversed_range 2) [0; 1] [adapter even_learner; adapter broken_learner] in
  attempts tr = [1] /\ r = Raise AssertionError /\ ids' = [0] /\ length learners' = 1%nat.
Proof. vm_compute. repeat split. Qed.

(** ** Batches without interactions *)

(** Every transaction a run yields satisfies a property that every
    transaction of an evaluation over at least one batch satisfies. *)
Section Yields.

Variable P : Transaction -> Prop.
Hypothesis evaluate_P : forall sim lrn l s bs tr t,
  bs <> [] -> evaluate sim lrn l s bs = (tr, Ok t) -> P t.

Lemma learners_loop_yields ignore_raise sim s bs ids learners :
  bs <> [] -> length ids = length learners ->
  Forall P (transactions
              (fst (fst (learners_loop ignore_raise sim s bs
                           (reversed_range (length learners)) ids learners)))).
Proof.
  intros Hbs Hlen. rewrite learners_loop_combine by exact Hlen.
  pose proof (run_learners_progress ignore_raise sim s bs (rev (combine ids learners)))
    as Hp.
  destruct (run_learners _ _ _ _ _) as [[tr r] rest].
  destruct Hp as (done & _ & _ & Ht & _). simpl. rewrite Ht. clear Ht.
  induction done as [|[lrn l] done IH]; simpl; [constructor|].
  apply Forall_app. split; [|exact IH].
  unfold learner_record. simpl.
  destruct (evaluate sim lrn l s bs) as [tr0 [t|e]] eqn:Hev; simpl; [|constructor].
  constructor; [|constructor]. eapply evaluate_P; eassumption.
Qed.

Lemma simulations_loop_yields ignore_raise src loaded groups :
  Forall P (transactions (fst (simulations_loop ignore_raise src loaded groups))).
Proof.
  induction groups as [|[[sim handle] tasks] groups IH]; simpl; [constructor|].
  destruct (apply_filter (filter_of handle) loaded) as [s|e]; [|constructor].
  destruct (batchify s) as [|batch bs] eqn:Hb.
  - destruct (simulations_loop ignore_raise src loaded groups) as [tr' r']. exact IH.
  - pose proof (learners_loop_yields ignore_raise sim s (batch :: bs)
                  (map lrn_id tasks) (map learner tasks)) as Hl.
    destruct (learners_loop _ _ _ _ _ _ _) as [[tr r] pending].
    assert (HP : Forall P (transactions tr)).
    { apply Hl; [discriminate|]. rewrite !length_map. reflexivity. }
    destruct r as [[]|e]; [|exact HP].
    destruct (simulations_loop ignore_raise src loaded groups) as [tr' r'].
    simpl. unfold transactions in *. rewrite flat_map_app.
    apply Forall_app. split; assumption.
Qed.

Lemma sources_loop_yields ignore_raise groups :
  Forall P (transactions (fst (sources_loop ignore_raise groups))).
Proof.
  induction groups as [|[[src obj] tasks] groups IH]; simpl; [constructor|].
  destruct (source_read obj) as [loaded|e]; [|constructor].
  pose proof (simulations_loop_yields ignore_raise src loaded
                (groupby (fun t => (sim_id t, simulation t)) grp_sim_eqb
                   (sorted sim_id tasks))) as Hs.
  destruct (simulations_loop _ _ _ _) as [tr [[]|e]]; [|exact Hs].
  destruct (sources_loop ignore_raise groups) as [tr' r'].
  simpl. unfold transactions in *. rewrite flat_map_app.
  apply Forall_app. split; assumption.
Qed.

Lemma Transactions_filter_yields ignore_raise task_groups :
  Forall P (transactions (fst (Transactions_filter ignore_raise task_groups))).
Proof.
  unfold Transactions_filter, process_group.
  pose proof (sources_loop_yields ignore_raise
                (groupby (fun t => (src_id t, source (simulation t))) grp_src_eqb
                   (sorted src_id (concat task_groups)))) as Hs.
  destruct (sources_loop _ _) as [tr [[]|e]]; [exact Hs|].
  destruct (is_Exception e); [|exact Hs].
  simpl. unfold transactions in *. rewrite flat_map_app. simpl. rewrite app_nil_r.
  exact Hs.
Qed.

End Yields.

Lemma evaluate_batches_inhabited sim lrn l s bs tr t :
  evaluate sim lrn l s bs = (tr, Ok t) -> ~ In 0 (t_N t).
Proof.
  intros H. destruct (evaluate_Ok _ _ _ _ _ _ _ H) as (_ & _ & _ & _ & _ & _ & Hc & _ & HN & _).
  rewrite HN. clear -Hc. intros Hin. apply in_map_iff in Hin as (batch & Hlen & Hin).
  induction Hc as [|b c bs cs Hbc Hc IH]; [destruct Hin|].
  destruct Hin as [->|Hin]; [|exact (IH Hin)].
  destruct batch; [discriminate|]. simpl in Hlen. lia.
Qed.

(** C10.  When a simulation has a batch without interactions, the
    evaluation of every learner on it raises: the list of context sizes of
    that batch is empty and its median is an error, where the list of action
    counts of an empty batch is [[0]], with median 0.  When [init] returns,
    that is all the evaluation does, so no [choose] is called.  Whether
    failures are suppressed or not, the loop over the learners of that
    simulation yields no transaction, and no transaction the engine yields
    has a batch of size 0. *)
Theorem empty_batch_no_record ignore_raise sim s bs ids learners :
  In [] bs ->
  length ids = length learners ->
  (forall lrn l, exists e,
      snd (evaluate sim lrn l s bs) = Raise e
      /\ (fst (init l) = Ok tt -> fst (evaluate sim lrn l s bs) = [EvInit sim lrn (Ok tt)]))
  /\ transactions
       (fst (fst (learners_loop ignore_raise sim s bs
                    (reversed_range (length learners)) ids learners))) = []
  /\ int_median (context_sizes []) = Raise StatisticsError
  /\ int_median (action_counts []) = Ok 0
  /\ (forall task_groups,
        Forall (fun t => ~ In 0 (t_N t))
          (transactions (fst (Transactions_filter ignore_raise task_groups)))).
Proof.
  intros Hin Hlen.
  assert (Hev : forall lrn l, exists e,
             snd (evaluate sim lrn l s bs) = Raise e
             /\ (fst (init l) = Ok tt ->
                 fst (evaluate sim lrn l s bs) = [EvInit sim lrn (Ok tt)])).
  { intros lrn l. unfold evaluate.
    destruct (init l) as [[[]|e0] l0]; simpl; [|exists e0; split; [reflexivity|discriminate]].
    destruct (result_map_raises (fun batch => int_median (context_sizes batch))
                bs [] StatisticsError Hin eq_refl) as [e' ->].
    exists e'. split; reflexivity. }
  split; [exact Hev|]. split; [|split; [reflexivity|split; [reflexivity|]]].
  - rewrite learners_loop_combine by exact Hlen.
    pose proof (run_learners_progress ignore_raise sim s bs (rev (combine ids learners)))
      as Hp.
    destruct (run_learners _ _ _ _ _) as [[tr r] rest].
    destruct Hp as (done & _ & _ & Ht & _). simpl. rewrite Ht.
    clear -Hev. induction done as [|[lrn l] done IH]; simpl; [reflexivity|].
    unfold learner_record at 1. simpl.
    destruct (Hev lrn l) as (e & -> & _). exact IH.
  - intros task_groups. apply Transactions_filter_yields.
    intros sim0 lrn0 l0 s0 bs0 tr0 t0 _. apply evaluate_batches_inhabited.
Qed.

Lemma empty_batch_no_record_witness :
  (forall lrn l, exists e,
      snd (evaluate 0 lrn l holed_simulation (batchify holed_simulation)) = Raise e
      /\ (fst (init l) = Ok tt ->
          fst (evaluate 0 lrn l holed_simulation (batchify holed_simulation))
          = [EvInit 0 lrn (Ok tt)]))
  /\ transactions
       (fst (fst (learners_loop true 0 holed_simulation (batchify holed_simulation)
                    (reversed_range (length [adapter even_learner; adapter even_learner]))
                    [0; 1] [adapter even_learner; adapter even_learner]))) = []
  /\ int_median (context_sizes []) = Raise StatisticsError
  /\ int_median (action_counts []) = Ok 0
  /\ (forall task_groups,
        Forall (fun t => ~ In 0 (t_N t))
          (transactions (fst (Transactions_filter true task_groups)))).
Proof.
  apply (empty_batch_no_record true 0 holed_simulation (batchify holed_simulation)
           [0; 1] [adapter even_learner; adapter even_learner]).
  - right. left. reflexivity.
  - reflexivity.
Defined.

(** The run of the witness: both learners fail on the statistics and are
    logged, the second batch being empty. *)
Example empty_batch_run :
  fst (learners_loop true 0 holed_simulation (batchify holed_simulation)
         (reversed_range 2) [0; 1] [adapter even_learner; adapter even_learner])
  = ([EvInit 0 1 (Ok tt); EvLogException StatisticsError;
      EvInit 0 0 (Ok tt); EvLogException StatisticsError], Ok tt).
Proof. vm_compute. reflexivity. Qed.

(** ** The order of the groups *)

Lemma sources_loop_app ignore_raise G1 G2 :
  sources_loop ignore_raise (G1 ++ G2)
  = and_then (sources_loop ignore_raise G1) (sources_loop ignore_raise G2).
Proof.
  induction G1 as [|[[src obj] tasks] G1 IH]; simpl.
  - destruct (sources_loop ignore_raise G2) as [tr r]. reflexivity.
  - destruct (source_read obj) as [loaded|e]; [|reflexivity].
    destruct (simulations_loop _ _ _ _) as [tr [[]|e]]; [|reflexivity].
    rewrite IH. unfold and_then.
    destruct (sources_loop ignore_raise G1) as [tr1 [[]|e]]; simpl; [|reflexivity].
    destruct (sources_loop ignore_raise G2) as [tr2 r2]. simpl.
    rewrite <- app_assoc. reflexivity.
Qed.

Lemma sources_of_app g1 g2 :
  (forall t t', In t g1 -> In t' g2 -> src_id t < src_id t') ->
  sources_of (g1 ++ g2) = sources_of g1 ++ sources_of g2.
Proof.
  intros H. unfold sources_of.
  rewrite sorted_app by (intros x y Hx Hy; specialize (H x y Hx Hy); lia).
  apply groupby_app. intros x y Hx Hy. apply In_sorted in Hx, Hy.
  specialize (H x y Hx Hy). unfold grp_src_eqb. simpl.
  destruct (Z.eqb_spec (src_id x) (src_id y)); [lia|reflexivity].
Qed.

Lemma sources_loop_concat ignore_raise task_groups :
  ascending_groups task_groups ->
  sources_loop ignore_raise (sources_of (concat task_groups))
  = groups_in_order ignore_raise task_groups.
Proof.
  induction task_groups as [|g gs IH]; intros Hasc; [reflexivity|].
  destruct Hasc as [Hg Hgs]. simpl.
  rewrite sources_of_app by exact Hg.
  rewrite sources_loop_app, IH by exact Hgs. reflexivity.
Qed.

Lemma process_group_handler ignore_raise task_group :
  process_group ignore_raise task_group
  = outer_handler ignore_raise (sources_loop ignore_raise (sources_of task_group)).
Proof.
  unfold process_group, outer_handler. fold (sources_of task_group).
  destruct (sources_loop ignore_raise (sources_of task_group)) as [tr [[]|e]]; reflexivity.
Qed.

Lemma groupby_ordered l :
  StronglySorted (fun a b => src_id a <= src_id b) l ->
  ascending_groups (map snd (groupby src_id Z.eqb l))
  /\ match groupby src_id Z.eqb l with
     | (k, g) :: _ => exists t0, In t0 g /\ forall t, In t g -> src_id t = k
     | [] => True
     end.
Proof.
  intros Hl. induction Hl as [|x l Hl IH Hx]; simpl; [auto|].
  pose proof (concat_groupby src_id Z.eqb l) as Hcat.
  destruct (groupby src_id Z.eqb l) as [|[k g] gs] eqn:Hg; simpl in *.
  - split; [split; [intros t t' _ []|exact I]|].
    exists x. split; [left; reflexivity|]. intros t [<-|[]]. reflexivity.
  - destruct IH as [[Hasc Hrest] (t0 & Ht0 & Hkey)].
    destruct (Z.eqb_spec (src_id x) k) as [Hk|Hk]; simpl.
    + split; [split; [|exact Hrest]|].
      * intros t t' [<-|Ht] Ht'; [|apply Hasc; assumption].
        rewrite Hk, <- (Hkey t0 Ht0). apply Hasc; assumption.
      * exists x. split; [left; reflexivity|].
        intros t [<-|Ht]; [reflexivity|]. rewrite Hk. apply Hkey, Ht.
    + split; [split; [|split; assumption]|].
      * intros t t' [<-|[]] Ht'. rewrite Hcat in Ht'.
        rewrite Forall_forall in Hx.
        pose proof (Hx t' (proj2 (list_elem_of_In _ _) Ht')) as Hle. simpl in Hle.
        apply groupby_head in Hg as (y & l' & -> & ->).
        assert (Hy : src_id y <= src_id t').
        { destruct Ht' as [<-|Ht']; [lia|].
          inversion Hl as [|? ? _ Hall]; subst. rewrite Forall_forall in Hall.
          apply Hall, list_elem_of_In, Ht'. }
        assert (Hxy : src_id x <= src_id y) by (apply Hx; left).
        lia.
      * exists x. split; [left; reflexivity|]. intros t [<-|[]]. reflexivity.
Qed.

(** The groups of [GroupBySource] come in ascending order of source id. *)
Lemma GroupBySource_ascending tasks : ascending_groups (GroupBySource_filter tasks).
Proof. apply groupby_ordered, sorted_ordered. Qed.

(** C6, as stated, fails: given the three tasks of [example_tasks] one per
    group, in the order of their simulations 0, 1, 2, the engine yields the
    transaction of simulation 2, which shares its source with simulation 0,
    before that of simulation 1, where processing group after group yields
    them in the order given. *)
Lemma Transactions_filter_reorders :
  map (map (fun t => (src_id t, sim_id t))) (GroupByNone_filter example_tasks)
  = [[(0, 0)]; [(1, 1)]; [(0, 2)]]
  /\ map t_sim_id
       (transactions (fst (Transactions_filter true (GroupByNone_filter example_tasks))))
     = [0; 2; 1]
  /\ map t_sim_id
       (transactions
          (fst (outer_handler true
                  (groups_in_order true (GroupByNone_filter example_tasks)))))
     = [0; 1; 2]
  /\ Transactions_filter true (GroupByNone_filter example_tasks)
     <> outer_handler true (groups_in_order true (GroupByNone_filter example_tasks)).
Proof.
  assert (H1 : map t_sim_id
                 (transactions
                    (fst (Transactions_filter true (GroupByNone_filter example_tasks))))
               = [0; 2; 1]) by (vm_compute; reflexivity).
  assert (H2 : map t_sim_id
                 (transactions
                    (fst (outer_handler true
                            (groups_in_order true (GroupByNone_filter example_tasks)))))
               = [0; 1; 2]) by (vm_compute; reflexivity).
  split; [reflexivity|]. split; [exact H1|]. split; [exact H2|].
  intros Heq. rewrite Heq, H2 in H1. discriminate.
Qed.

(** ** Failure isolation *)

Lemma choose_invalid b k c acts p st :
  learner_predict (_learner b) (learner_state (_learner b)) k c acts = (Ok p, st) ->
  valid_probabilities p = false ->
  fst (choose b k c acts) = Raise AssertionError.
Proof.
  intros Hp Hv. unfold choose, predict. rewrite Hp, Hv. reflexivity.
Qed.

Lemma evaluate_logged sim lrn l s bs : logged (fst (evaluate sim lrn l s bs)) = [].
Proof.
  unfold evaluate. destruct (init l) as [[[]|e] l0]; [|reflexivity].
  destruct (result_map (fun batch => int_median (context_sizes batch)) bs)
    as [cs|e]; [|reflexivity].
  destruct (result_map (fun batch => int_median (action_counts batch)) bs)
    as [acs|e]; [|reflexivity].
  destruct (process_batches bs l0 (reward s)) as [[tr l1] [ms|e]];
    unfold logged; simpl; rewrite flat_map_map_nil by reflexivity; reflexivity.
Qed.

Lemma chunks_records sim s bs queue :
  transactions (concat (map (learner_chunk sim s bs) queue))
  = flat_map (learner_record sim s bs) queue
  /\ logged (concat (map (learner_chunk sim s bs) queue))
     = flat_map (learner_failure sim s bs) queue.
Proof.
  induction queue as [|[lrn l] queue [IHt IHl]]; [split; reflexivity|].
  simpl. unfold transactions, logged in *. rewrite !flat_map_app, IHt, IHl.
  unfold learner_chunk, learner_record, learner_failure. simpl.
  pose proof (evaluate_events sim lrn l s bs) as [_ Ht].
  pose proof (evaluate_logged sim lrn l s bs) as Hl.
  unfold transactions, logged in *.
  destruct (evaluate sim lrn l s bs) as [tr [t|e]]; simpl in *;
    rewrite !flat_map_app, Ht, Hl; split; reflexivity.
Qed.

(** With failures suppressed and only [Exception]s raised, the loop over
    the learners of a simulation attempts them all. *)
Lemma learners_loop_suppressed sim s bs ids learners :
  length ids = length learners ->
  (forall lrn l e, In (lrn, l) (combine ids learners) ->
     snd (evaluate sim lrn l s bs) = Raise e -> is_Exception e = true) ->
  learners_loop true sim s bs (reversed_range (length learners)) ids learners
  = ((concat (map (learner_chunk sim s bs) (rev (combine ids learners))), Ok tt), ([], [])).
Proof.
  intros Hlen Hexc. rewrite learners_loop_combine by exact Hlen.
  rewrite run_learners_complete; [reflexivity|].
  intros [lrn l] e Hin Hr. split; [reflexivity|].
  apply list_elem_of_In in Hin. apply in_rev in Hin. eapply Hexc; eassumption.
Qed.

Lemma groupby_groups {A K K'} (key : A -> K) eqb (f : K -> K') l :
  (forall k1 k2, eqb k1 k2 = true <-> f k1 = f k2) ->
  Forall (fun kg => (exists x, In x (snd kg) /\ fst kg = key x)
                    /\ forall x, In x (snd kg) -> f (key x) = f (fst kg))
    (groupby key eqb l).
Proof.
  intros Heqb. induction l as [|x l IH]; simpl; [constructor|].
  destruct (groupby key eqb l) as [|[k g] gs].
  - constructor; [|constructor]. simpl. split; [exists x; auto|].
    intros y [<-|[]]. reflexivity.
  - inversion IH as [|? ? [Hk Hg] Hgs]; subst. simpl in *.
    destruct (eqb (key x) k) eqn:He.
    + constructor; [|exact Hgs]. simpl. split; [exists x; auto|].
      intros y [<-|Hy]; [reflexivity|]. rewrite (Hg y Hy). symmetry.
      apply Heqb, He.
    + constructor; [|exact IH]. simpl. split; [exists x; auto|].
      intros y [<-|[]]. reflexivity.
Qed.

Lemma In_groupby {A K} (key : A -> K) eqb l k g x :
  In (k, g) (groupby key eqb l) -> In x g -> In x l.
Proof.
  intros Hg Hx. rewrite <- (concat_groupby key eqb l).
  apply in_concat. exists g. split; [|exact Hx].
  apply in_map_iff. exists (k, g). auto.
Qed.

Lemma flat_map_ext_In {A B} (f g : A -> list B) l :
  (forall x, In x l -> f x = g x) -> flat_map f l = flat_map g l.
Proof.
  intros H. induction l as [|x l IH]; simpl; [reflexivity|].
  rewrite H by (left; reflexivity). rewrite IH; [reflexivity|].
  intros y Hy. apply H. right. exact Hy.
Qed.

Lemma flat_map_nil_fun {A B} (l : list A) : flat_map (fun _ => @nil B) l = [].
Proof. induction l as [|x l IH]; simpl; auto. Qed.

Lemma combine_map {A B C} (f : A -> B) (g : A -> C) l :
  combine (map f l) (map g l) = map (fun x => (f x, g x)) l.
Proof. induction l as [|x l IH]; simpl; congruence. Qed.

Lemma flat_map_rev_map {A B C} (F : B -> list C) (h : A -> B) l :
  Permutation (flat_map F (rev (map h l))) (flat_map (fun x => F (h x)) l).
Proof.
  rewrite <- (Permutation_rev (map h l)).
  rewrite flat_map_concat_map, map_map, <- flat_map_concat_map. reflexivity.
Qed.

Lemma simulations_loop_suppressed src loaded G :
  Forall (good_sim_group loaded) G ->
  exists tr,
    simulations_loop true src loaded G = (tr, Ok tt)
    /\ Permutation (transactions tr) (flat_map task_record (concat (map snd G)))
    /\ Permutation (logged tr) (flat_map task_failure (concat (map snd G))).
Proof.
  intros HG. induction HG as [|[[sim h] ts] G [[s Hs] Hts] HG (tr' & Hloop & Ht' & Hl')];
    simpl in *.
  - exists []. repeat split; constructor.
  - rewrite Hs.
    assert (Hsim : forall t, In t ts -> task_simulation t = Ok s).
    { intros t Ht. destruct (Hts t Ht) as (_ & Hh & Hread & _).
      unfold task_simulation. rewrite Hread, Hh. exact Hs. }
    destruct (batchify s) as [|batch bs] eqn:Hbs.
    + rewrite Hloop. exists (EvCreateSimulation sim src :: EvNothingToEvaluate sim :: tr').
      split; [reflexivity|]. rewrite !flat_map_app.
      assert (Hnil : forall t, In t ts -> task_evaluation t = None).
      { intros t Ht. unfold task_evaluation. rewrite (Hsim t Ht), Hbs. reflexivity. }
      rewrite (flat_map_ext_In task_record (fun _ => []) ts)
        by (intros t Ht; unfold task_record; rewrite (Hnil t Ht); reflexivity).
      rewrite (flat_map_ext_In task_failure (fun _ => []) ts)
        by (intros t Ht; unfold task_failure; rewrite (Hnil t Ht); reflexivity).
      rewrite !flat_map_nil_fun. simpl. split; assumption.
    + assert (Hev : forall t, In t ts ->
                task_evaluation t
                = Some (evaluate sim (lrn_id t) (learner t) s (batch :: bs))).
      { intros t Ht. unfold task_evaluation. rewrite (Hsim t Ht), Hbs.
        destruct (Hts t Ht) as (-> & _). reflexivity. }
      rewrite learners_loop_suppressed.
      * rewrite Hloop. eexists. split; [reflexivity|].
        destruct (chunks_records sim s (batch :: bs)
                    (rev (combine (map lrn_id ts) (map learner ts)))) as [Hct Hcl].
        unfold transactions, logged in *. simpl. rewrite !flat_map_app, Hct, Hcl.
        rewrite combine_map. split.
        -- apply Permutation_app; [|exact Ht'].
           rewrite flat_map_rev_map. rewrite (flat_map_ext_In _ task_record); [reflexivity|].
           intros t Ht. unfold learner_record, task_record. simpl.
           rewrite (Hev t Ht). destruct (evaluate _ _ _ _ _) as [? [?|?]]; reflexivity.
        -- apply Permutation_app; [|exact Hl'].
           rewrite flat_map_rev_map. rewrite (flat_map_ext_In _ task_failure); [reflexivity|].
           intros t Ht. unfold learner_failure, task_failure. simpl.
           rewrite (Hev t Ht). destruct (evaluate _ _ _ _ _) as [? [?|?]]; reflexivity.
      * rewrite !length_map. reflexivity.
      * intros lrn l e Hin Hraise. rewrite combine_map in Hin.
        apply in_map_iff in Hin as (t & [= <- <-] & Ht).
        destruct (Hts t Ht) as (_ & _ & _ & _ & Hexc). apply Hexc.
        unfold task_failure. rewrite (Hev t Ht).
        destruct (evaluate _ _ _ _ _) as [? [?|?]]; simpl in *; [discriminate|].
        injection Hraise as ->. left. reflexivity.
Qed.

Lemma grp_sim_eqb_spec k1 k2 :
  grp_sim_eqb k1 k2 = true
  <-> (fst k1, wrapper_obj (snd k1)) = (fst k2, wrapper_obj (snd k2)).
Proof.
  unfold grp_sim_eqb. rewrite andb_true_iff, Z.eqb_eq, Nat.eqb_eq. split.
  - intros [-> ->]. reflexivity.
  - intros [= -> ->]. auto.
Qed.

Lemma grp_src_eqb_spec k1 k2 :
  grp_src_eqb k1 k2 = true
  <-> (fst k1, source_obj (snd k1)) = (fst k2, source_obj (snd k2)).
Proof.
  unfold grp_src_eqb. rewrite andb_true_iff, Z.eqb_eq, Nat.eqb_eq. split.
  - intros [-> ->]. reflexivity.
  - intros [= -> ->]. auto.
Qed.

Lemma sim_groups_good loaded o ts :
  source_read o = Ok loaded ->
  (forall t, In t ts -> source (simulation t) = o /\ good_task t) ->
  (forall t t', In t ts -> In t' ts ->
     wrapper_obj (simulation t) = wrapper_obj (simulation t') ->
     simulation t = simulation t') ->
  Forall (good_sim_group loaded)
    (groupby (fun t => (sim_id t, simulation t)) grp_sim_eqb (sorted sim_id ts)).
Proof.
  intros Hread Hts Hcons.
  pose proof (groupby_groups (fun t => (sim_id t, simulation t)) grp_sim_eqb
                (fun k => (fst k, wrapper_obj (snd k))) (sorted sim_id ts)
                grp_sim_eqb_spec) as Hgroups.
  rewrite Forall_forall in Hgroups. rewrite Forall_forall. intros [[sim h] g] Hin.
  apply list_elem_of_In in Hin.
  assert (Hmem : forall t, In t g -> In t ts).
  { intros t Ht. eapply In_sorted, In_groupby; eassumption. }
  destruct (Hgroups _ (proj2 (list_elem_of_In _ _) Hin)) as [(t0 & Ht0 & Hkey) Hall].
  simpl in *. injection Hkey as -> ->.
  assert (Hh : forall t, In t g -> sim_id t = sim_id t0 /\ simulation t = simulation t0).
  { intros t Ht. specialize (Hall t Ht). simpl in Hall. injection Hall as Hsim Hw.
    split; [exact Hsim|]. apply Hcons; auto. }
  split; simpl.
  - destruct (Hts t0 (Hmem t0 Ht0)) as [Ho [[s Hs] _]].
    exists s. unfold task_simulation in Hs. rewrite Ho, Hread in Hs. exact Hs.
  - intros t Ht. destruct (Hh t Ht) as [Hsim Hsimu].
    destruct (Hts t (Hmem t Ht)) as [Ho Hgood].
    split; [exact Hsim|]. split; [exact Hsimu|]. split; [|exact Hgood].
    rewrite Ho. exact Hread.
Qed.

Lemma sources_loop_suppressed G :
  Forall good_src_group G ->
  exists tr,
    sources_loop true G = (tr, Ok tt)
    /\ Permutation (transactions tr) (flat_map task_record (concat (map snd G)))
    /\ Permutation (logged tr) (flat_map task_failure (concat (map snd G))).
Proof.
  intros HG.
  induction HG as [|[[src o] ts] G ([loaded Hread] & Hts & Hcons) HG (tr' & Hloop & Ht' & Hl')];
    simpl in *.
  - exists []. repeat split; constructor.
  - rewrite Hread.
    destruct (simulations_loop_suppressed src loaded _
                (sim_groups_good loaded o ts Hread Hts Hcons)) as (tr & Hsims & Ht & Hl).
    rewrite Hsims, Hloop. eexists. split; [reflexivity|].
    rewrite concat_groupby in Ht, Hl.
    unfold transactions, logged in *. simpl. rewrite !flat_map_app. split.
    + apply Permutation_app; [|exact Ht']. rewrite Ht.
      apply Permutation_flat_map, sorted_Permutation.
    + apply Permutation_app; [|exact Hl']. rewrite Hl.
      apply Permutation_flat_map, sorted_Permutation.
Qed.

Lemma src_groups_good tasks :
  identity_consistent tasks -> Forall good_task tasks ->
  Forall good_src_group (sources_of tasks).
Proof.
  intros Hcons Hgood. unfold sources_of.
  pose proof (groupby_groups (fun t => (src_id t, source (simulation t))) grp_src_eqb
                (fun k => (fst k, source_obj (snd k))) (sorted src_id tasks)
                grp_src_eqb_spec) as Hgroups.
  rewrite Forall_forall in Hgroups. rewrite Forall_forall in Hgood.
  rewrite Forall_forall. intros [[src o] g] Hin.
  apply list_elem_of_In in Hin.
  assert (Hmem : forall t, In t g -> In t tasks).
  { intros t Ht. eapply In_sorted, In_groupby; eassumption. }
  destruct (Hgroups _ (proj2 (list_elem_of_In _ _) Hin)) as [(t0 & Ht0 & Hkey) Hall].
  simpl in *. injection Hkey as -> ->.
  assert (Ho : forall t, In t g -> source (simulation t) = source (simulation t0)).
  { intros t Ht. specialize (Hall t Ht). simpl in Hall. injection Hall as _ Hobj.
    apply (Hcons t t0); auto. }
  split; [|split]; simpl.
  - destruct (Hgood t0 (proj2 (list_elem_of_In _ _) (Hmem t0 Ht0))) as [[s Hs] _].
    unfold task_simulation in Hs.
    destruct (source_read (source (simulation t0))) as [loaded|e]; [eauto|discriminate].
  - intros t Ht. split; [apply Ho, Ht|].
    apply Hgood, list_elem_of_In, Hmem, Ht.
  - intros t t' Ht Ht'. apply (Hcons t t'); auto.
Qed.

(** C2.  With failures suppressed, when the simulation of every task is
    created and every exception raised in an evaluation is an [Exception],
    the engine runs to its end, the transactions it yields are exactly those
    of the tasks whose own evaluation returns, and the exceptions it logs
    are exactly those of the tasks whose evaluation raises: a learner that
    fails loses its own record and no other.  An exception a [choose]
    raises is the exception of that evaluation, and [choose] raises
    [AssertionError] when [predict] returns probabilities that fail
    [abs(sum(p) - 1) < .0001], as [[0.5, 0.6]] do. *)
Theorem failure_isolation task_groups :
  identity_consistent (concat task_groups) ->
  Forall good_task (concat task_groups) ->
  (exists tr,
      Transactions_filter true task_groups = (tr, Ok tt)
      /\ Permutation (transactions tr) (flat_map task_record (concat task_groups))
      /\ Permutation (logged tr) (flat_map task_failure (concat task_groups)))
  /\ (forall sim lrn l s bs k c acts e,
        In (EvCall sim lrn (CallChoose k c acts (Raise e))) (fst (evaluate sim lrn l s bs)) ->
        snd (evaluate sim lrn l s bs) = Raise e)
  /\ (forall b k c acts p st,
        learner_predict (_learner b) (learner_state (_learner b)) k c acts = (Ok p, st) ->
        valid_probabilities p = false ->
        fst (choose b k c acts) = Raise AssertionError)
  /\ valid_probabilities [f_0_5; f_0_6] = false
  /\ is_Exception AssertionError = true.
Proof.
  intros Hcons Hgood. split.
  - unfold Transactions_filter. rewrite process_group_handler.
    destruct (sources_loop_suppressed _ (src_groups_good _ Hcons Hgood))
      as (tr & Hloop & Ht & Hl).
    rewrite Hloop. exists tr. split; [reflexivity|].
    unfold sources_of in Ht, Hl. rewrite concat_groupby in Ht, Hl. split.
    + rewrite Ht. apply Permutation_flat_map, sorted_Permutation.
    + rewrite Hl. apply Permutation_flat_map, sorted_Permutation.
  - split; [|split; [|split; [vm_compute; reflexivity|reflexivity]]].
    + intros sim lrn l s bs k c acts e Hin.
      eapply evaluate_raises; [exact Hin|reflexivity].
    + apply choose_invalid.
Qed.

Lemma three_learner_tasks_consistent : identity_consistent (concat [three_learner_tasks]).
Proof.
  intros t t' Ht Ht'. simpl in Ht, Ht'. rewrite app_nil_r in Ht, Ht'.
  destruct Ht as [<-|[<-|[<-|[]]]]; destruct Ht' as [<-|[<-|[<-|[]]]];
    split; intros H; try reflexivity; discriminate H.
Qed.

Lemma three_learner_tasks_good : Forall good_task (concat [three_learner_tasks]).
Proof.
  simpl. rewrite app_nil_r. repeat constructor.
  all: try (eexists; reflexivity).
  all: intros e He; vm_compute in He;
    first [contradiction | destruct He as [<-|[]]; reflexivity].
Qed.

Lemma failure_isolation_witness :
  (exists tr,
      Transactions_filter true [three_learner_tasks] = (tr, Ok tt)
      /\ Permutation (transactions tr) (flat_map task_record (concat [three_learner_tasks]))
      /\ Permutation (logged tr) (flat_map task_failure (concat [three_learner_tasks])))
  /\ (forall sim lrn l s bs k c acts e,
        In (EvCall sim lrn (CallChoose k c acts (Raise e))) (fst (evaluate sim lrn l s bs)) ->
        snd (evaluate sim lrn l s bs) = Raise e)
  /\ (forall b k c acts p st,
        learner_predict (_learner b) (learner_state (_learner b)) k c acts = (Ok p, st) ->
        valid_probabilities p = false ->
        fst (choose b k c acts) = Raise AssertionError)
  /\ valid_probabilities [f_0_5; f_0_6] = false
  /\ is_Exception AssertionError = true.
Proof.
  exact (failure_isolation [three_learner_tasks] three_learner_tasks_consistent
           three_learner_tasks_good).
Defined.

(** The run of the witness: the three learners of the simulation are
    attempted, the second fails on its first [choose] and is logged, and the
    other two yield their transactions.  Each task that [Tasks.read] makes
    carries a handle of its own, so each is a group of its own under the key
    [(sim_id, simulation)] and the attempts follow the learner ids. *)
Example failure_isolation_run :
  map (fun t => (sim_id t, lrn_id t)) three_learner_tasks = [(0, 0); (0, 1); (0, 2)]
  /\ attempts (fst (Transactions_filter true [three_learner_tasks])) = [0; 1; 2]
  /\ map t_lrn_id (transactions (fst (Transactions_filter true [three_learner_tasks])))
     = [0; 2]
  /\ logged (fst (Transactions_filter true [three_learner_tasks])) = [AssertionError]
  /\ snd (Transactions_filter true [three_learner_tasks]) = Ok tt.
Proof. vm_compute. repeat split. Qed.

(** * Further properties of the pipeline *)

(** ** The grouping stage *)

Lemma insert_by_head {A} (key : A -> Z) x l :
  Forall (fun y => key x <= key y) l -> insert_by key x l = x :: l.
Proof.
  intros H. destruct l as [|y l]; [reflexivity|]. simpl.
  inversion H; subst. destruct (Z.leb_spec (key x) (key y)); [reflexivity|lia].
Qed.

Lemma sorted_fixed {A} (key : A -> Z) l :
  StronglySorted (fun a b => key a <= key b) l -> sorted key l = l.
Proof.
  induction 1 as [|x l Hl IH Hx]; simpl; [reflexivity|].
  change (fold_right (insert_by key) [] l) with (sorted key l).
  rewrite IH. apply insert_by_head, Hx.
Qed.

Lemma sorted_idempotent {A} (key : A -> Z) l : sorted key (sorted key l) = sorted key l.
Proof. apply sorted_fixed, sorted_ordered. Qed.

(** A stable sort keeps the order of the elements of one key. *)
Lemma filter_insert_by {A} (key : A -> Z) k x l :
  List.filter (fun y => key y =? k) (insert_by key x l)
  = List.filter (fun y => key y =? k) (x :: l).
Proof.
  induction l as [|y l IH]; [reflexivity|].
  cbn [insert_by]. destruct (Z.leb_spec (key x) (key y)) as [Hle|Hlt]; [reflexivity|].
  cbn [List.filter] in *. rewrite IH.
  destruct (Z.eqb_spec (key y) k), (Z.eqb_spec (key x) k); try reflexivity. lia.
Qed.

Lemma filter_sorted {A} (key : A -> Z) k l :
  List.filter (fun y => key y =? k) (sorted key l) = List.filter (fun y => key y =? k) l.
Proof.
  induction l as [|x l IH]; [reflexivity|].
  cbn [sorted fold_right]. change (fold_right (insert_by key) [] l) with (sorted key l).
  rewrite filter_insert_by. cbn [List.filter]. rewrite IH. reflexivity.
Qed.

Lemma filter_none {A} (f : A -> bool) l :
  (forall x, In x l -> f x = false) -> List.filter f l = [].
Proof.
  induction l as [|x l IH]; intros H; [reflexivity|]. simpl.
  rewrite (H x (or_introl eq_refl)). apply IH. intros y Hy. apply H. right. exact Hy.
Qed.

(** The groups of a list in ascending key order: each run holds all the
    elements of its key. *)
Lemma filter_cons_eq {A} (f : A -> bool) x l :
  List.filter f (x :: l) = if f x then x :: List.filter f l else List.filter f l.
Proof. reflexivity. Qed.

Lemma groupby_runs l :
  StronglySorted (fun a b => src_id a <= src_id b) l ->
  Forall (fun kg => (exists t, In t (snd kg) /\ src_id t = fst kg)
                    /\ snd kg = List.filter (fun t => src_id t =? fst kg) l)
    (groupby src_id Z.eqb l)
  /\ forall k g gs, groupby src_id Z.eqb l = (k, g) :: gs ->
       Forall (fun kg => k < fst kg) gs.
Proof.
  induction 1 as [|x l Hl IH Hx]; [split; [constructor|discriminate]|].
  destruct IH as [IHg IHk]. cbn [groupby].
  destruct (groupby src_id Z.eqb l) as [|[k g] gs] eqn:Hg.
  - assert (l = []) as ->.
    { destruct l as [|y l]; [reflexivity|]. simpl in Hg.
      destruct (groupby src_id Z.eqb l) as [|[? ?] ?]; [discriminate|].
      destruct (_ =? _); discriminate. }
    split.
    + constructor; [|constructor]. simpl. rewrite Z.eqb_refl. split; [|reflexivity].
      exists x. split; [left|]; reflexivity.
    + intros k g gs [= <- <- <-]. constructor.
  - specialize (IHk k g gs eq_refl).
    destruct (groupby_head _ _ _ _ _ _ Hg) as (y & l' & -> & ->).
    inversion IHg as [|? ? [[t [Ht Htk]] Hgk] IHgs]; subst. cbn [fst snd] in *.
    assert (Hxy : src_id x <= src_id y) by (inversion Hx; assumption).
    assert (Hrest : Forall (fun kg => (exists t, In t (snd kg) /\ src_id t = fst kg)
                       /\ snd kg = List.filter (fun t => src_id t =? fst kg) (x :: y :: l')) gs).
    { rewrite Forall_forall in IHgs, IHk |- *. intros kg Hin.
      destruct (IHgs kg Hin) as [Hex Heq]. split; [exact Hex|].
      specialize (IHk kg Hin). rewrite (filter_cons_eq _ x).
      destruct (Z.eqb_spec (src_id x) (fst kg)); [lia|]. exact Heq. }
    destruct (Z.eqb_spec (src_id x) (src_id y)) as [Heq|Hne].
    + split.
      * constructor; [|exact Hrest]. cbn [fst snd]. split.
        -- exists x. split; [left|]; reflexivity.
        -- rewrite (filter_cons_eq _ x), Z.eqb_refl. f_equal.
           rewrite Heq. exact Hgk.
      * intros k g0 gs0 [= <- <- <-]. rewrite Heq. exact IHk.
    + split.
      * constructor; [|constructor; [|exact Hrest]]; cbn [fst snd].
        -- split; [exists x; split; [left|]; reflexivity|].
           rewrite (filter_cons_eq _ x), Z.eqb_refl. f_equal. symmetry.
           apply filter_none. intros z Hz. apply Z.eqb_neq.
           assert (src_id y <= src_id z).
           { destruct Hz as [<-|Hz]; [lia|]. inversion Hl; subst.
             rewrite Forall_forall in H2. apply H2, list_elem_of_In, Hz. }
           lia.
        -- split; [exists t; split; assumption|].
           rewrite (filter_cons_eq _ x).
           destruct (Z.eqb_spec (src_id x) (src_id y)); [lia|]. exact Hgk.
      * intros k g0 gs0 [= <- <- <-]. constructor; [simpl; lia|].
        eapply Forall_impl; [exact IHk|]. simpl. intros; lia.
Qed.

(** X1.  [GroupBySource] sorts the tasks by source id, stably, and cuts the
    result into one group per source id: the groups chained are the sorted
    tasks, a permutation of the input; every group holds all the tasks of
    the source id of one of its tasks, in the order of the input; and the
    source ids ascend from group to group. *)
Theorem GroupBySource_filter_groups tasks :
  let groups := GroupBySource_filter tasks in
  concat groups = sorted src_id tasks
  /\ Permutation (concat groups) tasks
  /\ Forall (fun g => exists t, In t g
                       /\ g = List.filter (fun t' => src_id t' =? src_id t) tasks) groups
  /\ ascending_groups groups.
Proof.
  unfold GroupBySource_filter. cbv zeta.
  split; [apply concat_groupby|]. split; [rewrite concat_groupby; apply sorted_Permutation|].
  split; [|apply GroupBySource_ascending].
  destruct (groupby_runs _ (sorted_ordered src_id tasks)) as [H _].
  rewrite Forall_forall in H. apply Forall_forall. intros g Hg.
  apply list_elem_of_In, in_map_iff in Hg as ([k g'] & <- & Hin).
  destruct (H _ (proj2 (list_elem_of_In _ _) Hin)) as [(t & Ht & Hk) Heq].
  cbn [fst snd] in *. exists t. split; [exact Ht|].
  rewrite Heq, Hk. apply filter_sorted.
Qed.

Lemma concat_GroupByNone tasks : concat (GroupByNone_filter tasks) = tasks.
Proof.
  unfold GroupByNone_filter. induction tasks as [|t ts IH]; simpl; congruence.
Qed.

(** X2.  The engine chains its groups and sorts the tasks again, so what it
    does with the tasks grouped by source, with every task in a group of its
    own, and with all tasks in one group is the same: the same events in the
    same order and the same outcome. *)
Theorem grouping_stage_irrelevant ignore_raise tasks :
  Transactions_filter ignore_raise (GroupBySource_filter tasks)
  = Transactions_filter ignore_raise (GroupByNone_filter tasks)
  /\ Transactions_filter ignore_raise (GroupByNone_filter tasks)
     = Transactions_filter ignore_raise [tasks].
Proof.
  unfold Transactions_filter.
  rewrite concat_GroupByNone. cbn [concat]. rewrite app_nil_r.
  split; [|reflexivity].
  unfold GroupBySource_filter. rewrite concat_groupby.
  unfold process_group. rewrite sorted_idempotent. reflexivity.
Qed.


(** ** Batch statistics and simulations that are not batched *)

(** The integer median of non-negative integers below 2^52. *)
Lemma int_median_bounded (data : list Z) :
  Forall (fun z => 0 <= z < 2 ^ 52) data ->
  let n := length data in
  (n = 0%nat -> int_median data = Raise StatisticsError)
  /\ ((n mod 2 = 1)%nat -> int_median data = Ok (nth (n / 2) (sorted id data) 0))
  /\ (n <> 0%nat -> (n mod 2 = 0)%nat ->
      int_median data
      = Ok ((nth (n / 2 - 1) (sorted id data) 0 + nth (n / 2) (sorted id data) 0) / 2)).
Proof.
  intros Hb n.
  assert (Hlen : length (sorted id data) = n) by apply length_sorted.
  assert (Hall : Forall (fun z => 0 <= z < 2 ^ 52) (sorted id data)).
  { rewrite sorted_Permutation. exact Hb. }
  unfold int_median, median. rewrite Hlen.
  split; [|split].
  - intros ->. reflexivity.
  - intros Hodd. destruct (Nat.eqb_spec n 0) as [Hn|_]; [rewrite Hn in Hodd; discriminate|].
    rewrite Hodd. reflexivity.
  - intros Hn Heven. destruct (Nat.eqb_spec n 0) as [|_]; [contradiction|].
    rewrite Heven. simpl.
    assert (Hd : 0 <= 0 < 2 ^ 52) by (split; reflexivity || discriminate).
    assert (Ha := nth_Forall _ (sorted id data) (n / 2 - 1)%nat 0 Hall Hd).
    assert (Hc := nth_Forall _ (sorted id data) (n / 2)%nat 0 Hall Hd).
    simpl in Ha, Hc. apply to_int_half.
    change (2 ^ 53) with (2 ^ 52 + 2 ^ 52). lia.
Qed.

Lemma action_counts_inhabited batch :
  batch <> [] -> action_counts batch = action_numbers batch.
Proof. destruct batch; [contradiction|reflexivity]. Qed.

Lemma action_numbers_bounded batch :
  Forall (fun i => Z.of_nat (length (actions i)) < 2 ^ 52) batch ->
  Forall (fun z => 0 <= z < 2 ^ 52) (action_numbers batch).
Proof.
  intros H. apply Forall_map. eapply Forall_impl; [exact H|]. simpl. intros; lia.
Qed.

Lemma int_median_range data a :
  Forall (fun z => 0 <= z < 2 ^ 52) data -> int_median data = Ok a -> 0 <= a < 2 ^ 52.
Proof.
  intros Hb Ha. destruct (int_median_bounded data Hb) as (H0 & Hodd & Heven).
  assert (Hall : Forall (fun z => 0 <= z < 2 ^ 52) (sorted id data)).
  { rewrite sorted_Permutation. exact Hb. }
  assert (Hd : 0 <= 0 < 2 ^ 52) by (split; reflexivity || discriminate).
  destruct (Nat.eq_dec (length data) 0%nat) as [Hn|Hn]; [rewrite (H0 Hn) in Ha; discriminate|].
  pose proof (Nat.mod_upper_bound (length data) 2 ltac:(lia)) as Hlt.
  destruct (Nat.eq_dec (length data mod 2)%nat 1%nat) as [Ho|Ho].
  - rewrite (Hodd Ho) in Ha. injection Ha as <-. apply (nth_Forall _ _ _ _ Hall Hd).
  - assert (He : (length data mod 2 = 0)%nat) by lia.
    rewrite (Heven Hn He) in Ha. injection Ha as <-.
    pose proof (nth_Forall _ _ (length data / 2 - 1)%nat 0 Hall Hd) as H1.
    pose proof (nth_Forall _ _ (length data / 2)%nat 0 Hall Hd) as H2.
    simpl in H1, H2. split; [apply Z.div_pos; lia|].
    apply Z.div_lt_upper_bound; lia.
Qed.

(** X3.  The action count a transaction records for a batch is
    [int(median(counts))] of the numbers of actions of its interactions: the
    middle value for an odd number of interactions, and the sum of the two
    middle values halved and rounded down for an even number.  Unlike the
    context sizes, the action counts never make the median fail: for a
    batch without interactions they are [[0]]. *)
Theorem recorded_action_count sim lrn l s bs tr t :
  evaluate sim lrn l s bs = (tr, Ok t) ->
  Forall (Forall (fun i => Z.of_nat (length (actions i)) < 2 ^ 52)) bs ->
  Forall2 (fun batch a =>
             let counts := sorted id (action_numbers batch) in
             let n := length batch in
             ((n mod 2 = 1)%nat -> a = nth (n / 2) counts 0)
             /\ ((n mod 2 = 0)%nat ->
                 a = (nth (n / 2 - 1) counts 0 + nth (n / 2) counts 0) / 2))
    bs (t_A t)
  /\ (forall batch,
        Forall (fun i => Z.of_nat (length (actions i)) < 2 ^ 52) batch ->
        exists a, int_median (action_counts batch) = Ok a
                  /\ 0 <= a /\ (batch = [] -> a = 0)).
Proof.
  intros H Hb. split.
  - destruct (evaluate_Ok _ _ _ _ _ _ _ H) as (_ & _ & _ & _ & _ & _ & Hc & Ha & _).
    clear H. revert Hc Hb. generalize (t_C t).
    induction Ha as [|batch a bs acs Hba Ha IH]; intros cs Hc Hb; [constructor|].
    inversion Hb as [|? ? Hbatch Hbs]; subst.
    inversion Hc as [|? c ? cs' Hbc Hcs]; subst.
    constructor; [|exact (IH _ Hcs Hbs)].
    assert (Hne : batch <> []).
    { intros ->. discriminate Hbc. }
    rewrite (action_counts_inhabited _ Hne) in Hba.
    destruct (int_median_bounded _ (action_numbers_bounded _ Hbatch)) as (H0 & Hodd & Heven).
    unfold action_numbers in H0, Hodd, Heven. rewrite length_map in H0, Hodd, Heven.
    fold (action_numbers batch) in *.
    split.
    + intros Hn. rewrite (Hodd Hn) in Hba. congruence.
    + intros Hn. rewrite Heven in Hba; [congruence| |exact Hn].
      destruct batch; [contradiction|discriminate].
  - intros batch Hbatch. destruct batch as [|i batch].
    + exists 0. repeat split; reflexivity || lia.
    + assert (Hne : i :: batch <> []) by discriminate.
      rewrite (action_counts_inhabited _ Hne).
      pose proof (action_numbers_bounded _ Hbatch) as Hall.
      destruct (int_median (action_numbers (i :: batch))) as [a|e] eqn:Ha.
      * exists a. split; [reflexivity|]. split; [|discriminate].
        apply (int_median_range _ _ Hall Ha).
      * exfalso. destruct (int_median_bounded _ Hall) as (_ & Hodd & Heven).
        pose proof (Nat.mod_upper_bound (length (action_numbers (i :: batch))) 2
                      ltac:(lia)) as Hlt.
        destruct (Nat.eq_dec (length (action_numbers (i :: batch)) mod 2)%nat 1%nat) as [Ho|Ho].
        -- rewrite (Hodd Ho) in Ha. discriminate.
        -- rewrite Heven in Ha; [discriminate|discriminate|lia].
Qed.

Lemma recorded_action_count_witness :
  Forall2 (fun batch a =>
             let counts := sorted id (action_numbers batch) in
             let n := length batch in
             ((n mod 2 = 1)%nat -> a = nth (n / 2) counts 0)
             /\ ((n mod 2 = 0)%nat ->
                 a = (nth (n / 2 - 1) counts 0 + nth (n / 2) counts 0) / 2))
    [[interaction_1; interaction_2]] [2]
  /\ (forall batch,
        Forall (fun i => Z.of_nat (length (actions i)) < 2 ^ 52) batch ->
        exists a, int_median (action_counts batch) = Ok a
                  /\ 0 <= a /\ (batch = [] -> a = 0)).
Proof.
  apply (recorded_action_count 0 0 (adapter even_learner) paired_simulation
           (batchify paired_simulation)
           (fst (evaluate 0 0 (adapter even_learner) paired_simulation
                   (batchify paired_simulation)))
           {| t_sim_id := 0; t_lrn_id := 0; t_C := [1]; t_A := [2]; t_N := [2];
              t_reward := [f_0_4] |}).
  - vm_compute. reflexivity.
  - repeat constructor.
Defined.



Lemma result_map_singletons {A B} (f : A -> B) (g : list A -> result B) xs :
  (forall x, g [x] = Ok (f x)) ->
  result_map g (map (fun x => [x]) xs) = Ok (map f xs).
Proof.
  intros H. induction xs as [|x xs IH]; [reflexivity|].
  simpl. rewrite H, IH. reflexivity.
Qed.

(** X4.  A simulation that is not batched is evaluated one interaction per
    batch: the transaction has one entry per interaction, every batch size
    is 1, and the context size and the action count of a batch are those of
    its interaction, with no rounding. *)
Theorem plain_simulation_statistics sim lrn l inters rwd tr t :
  evaluate sim lrn l (PlainSimulation inters rwd) (batchify (PlainSimulation inters rwd))
  = (tr, Ok t) ->
  t_N t = map (fun _ => 1) inters
  /\ t_C t = map (fun i => context_size (context i)) inters
  /\ t_A t = map (fun i => Z.of_nat (length (actions i))) inters
  /\ length (t_reward t) = length inters.
Proof.
  cbn [batchify]. unfold evaluate.
  destruct (init l) as [[[]|e] l0]; [|discriminate].
  rewrite (result_map_singletons (fun i => context_size (context i)))
    by (intros; reflexivity).
  rewrite (result_map_singletons (fun i => Z.of_nat (length (actions i))))
    by (intros; reflexivity).
  destruct (process_batches _ l0 _) as [[calls l1] [ms|e]] eqn:Hpb; [|discriminate].
  intros [= <- <-]. cbn [t_N t_C t_A t_reward].
  rewrite map_map. split; [reflexivity|]. split; [reflexivity|]. split; [reflexivity|].
  pose proof (process_batches_observed _ _ _ _ _ _ Hpb) as H3.
  clear Hpb. revert H3. generalize (observations calls). generalize ms.
  induction inters as [|i inters IH]; intros ms' obs H3.
  - inversion H3. reflexivity.
  - inversion H3; subst. simpl. f_equal. eapply IH. eassumption.
Qed.

Lemma plain_simulation_statistics_witness :
  let t := {| t_sim_id := 0; t_lrn_id := 0; t_C := [3; 0]; t_A := [2; 2]; t_N := [1; 1];
              t_reward := [f_0_4; f_0_4] |} in
  t_N t = map (fun _ => 1) [interaction_1; interaction_2]
  /\ t_C t = map (fun i => context_size (context i)) [interaction_1; interaction_2]
  /\ t_A t = map (fun i => Z.of_nat (length (actions i))) [interaction_1; interaction_2]
  /\ length (t_reward t) = length [interaction_1; interaction_2].
Proof.
  apply (plain_simulation_statistics 0 0 (adapter even_learner)
           [interaction_1; interaction_2] flat_reward
           (fst (evaluate 0 0 (adapter even_learner) plain_simulation
                   (batchify plain_simulation)))).
  vm_compute. reflexivity.
Defined.


Lemma plain_batches inters : forall l rwd calls l1 ms,
  process_batches (map (fun i => [i]) inters) l rwd = (calls, l1, Ok ms) ->
  exists rets obs,
    length rets = length inters /\ length obs = length inters
    /\ calls = concat (zip_with (fun ir o => online_step (fst ir) (snd ir) (fst o) (snd o))
                         (zip inters rets) obs)
    /\ Forall2 (fun o m => mean_reward (fst o :: snd o) = Ok m) obs ms
    /\ Forall2 (fun ir o => observe rwd [chosen (fst ir) (snd ir)] = Ok (fst o :: snd o))
         (zip inters rets) obs.
Proof.
  induction inters as [|i inters IH]; intros l rwd calls l1 ms H.
  - simpl in H. injection H as <- _ <-. exists [], []. repeat split; constructor.
  - cbn [map process_batches] in H.
    destruct (process_batch [i] l rwd) as [[tr l2] [m|e]] eqn:Hb; [|discriminate].
    destruct (process_batches _ l2 rwd) as [[tr' l3] [ms'|e]] eqn:Hbs; [|discriminate].
    injection H as <- _ <-.
    destruct (IH _ _ _ _ _ Hbs) as (rets & obs & Hr & Ho & -> & Hm & Hobs).
    pose proof (process_batch_Ok _ _ _ _ _ _ Hb) as Hret.
    destruct (process_batch_shape _ _ _ _ _ _ Hb Hret) as (rets1 & ws & Hl & Hw & -> & Hmean).
    destruct rets1 as [|ret [|? ?]]; try discriminate Hl.
    destruct ws as [|w ws]; [discriminate Hmean|].
    exists (ret :: rets), ((w, ws) :: obs). cbn [length]. split; [congruence|].
    split; [congruence|]. split; [reflexivity|].
    split; constructor; auto.
Qed.

(** X5.  On a simulation that is not batched the learner is evaluated
    online: for each interaction in turn [choose] is called, the reward of
    that one choice is observed, and [learn] is called with the first reward
    returned, before [choose] is called for the next interaction. *)
Theorem plain_simulation_online sim lrn l inters rwd tr t :
  evaluate sim lrn l (PlainSimulation inters rwd) (batchify (PlainSimulation inters rwd))
  = (tr, Ok t) ->
  exists rets obs,
    length rets = length inters /\ length obs = length inters
    /\ tr = EvInit sim lrn (Ok tt)
            :: map (EvCall sim lrn)
                 (concat (zip_with (fun ir o => online_step (fst ir) (snd ir) (fst o) (snd o))
                            (zip inters rets) obs))
    /\ Forall2 (fun o m => mean_reward (fst o :: snd o) = Ok m) obs (t_reward t)
    /\ Forall2 (fun ir o => observe rwd [chosen (fst ir) (snd ir)] = Ok (fst o :: snd o))
         (zip inters rets) obs.
Proof.
  intros H. destruct (evaluate_Ok _ _ _ _ _ _ _ H) as (l0 & calls & l1 & _ & Hpb & -> & _).
  cbn [batchify reward] in Hpb.
  destruct (plain_batches _ _ _ _ _ _ Hpb) as (rets & obs & Hr & Ho & -> & Hm & Hobs).
  exists rets, obs. auto.
Qed.

Lemma plain_simulation_online_witness :
  exists rets obs,
    length rets = length [interaction_1; interaction_2]
    /\ length obs = length [interaction_1; interaction_2]
    /\ fst (evaluate 0 0 (adapter even_learner) plain_simulation (batchify plain_simulation))
       = EvInit 0 0 (Ok tt)
         :: map (EvCall 0 0)
              (concat (zip_with (fun ir o => online_step (fst ir) (snd ir) (fst o) (snd o))
                         (zip [interaction_1; interaction_2] rets) obs))
    /\ Forall2 (fun o m => mean_reward (fst o :: snd o) = Ok m) obs [f_0_4; f_0_4]
    /\ Forall2 (fun ir o => observe flat_reward [chosen (fst ir) (snd ir)]
                            = Ok (fst o :: snd o))
         (zip [interaction_1; interaction_2] rets) obs.
Proof.
  apply (plain_simulation_online 0 0 (adapter even_learner)
           [interaction_1; interaction_2] flat_reward
           (fst (evaluate 0 0 (adapter even_learner) plain_simulation
                   (batchify plain_simulation)))
           {| t_sim_id := 0; t_lrn_id := 0; t_C := [3; 0]; t_A := [2; 2]; t_N := [1; 1];
              t_reward := [f_0_4; f_0_4] |}).
  vm_compute. reflexivity.
Defined.



(** ** The learner adapter and the reward function *)

Lemma add_not_finite x y :
  Float.is_finite x = false \/ Float.is_finite y = false ->
  Float.is_finite (Float.add x y) = false.
Proof.
  unfold Float.add, SFadd.
  intros [H|H]; destruct x as [sx|sx| |sx mx ex], y as [sy|sy| |sy my ey];
    try discriminate H; try reflexivity; destruct sx, sy; reflexivity.
Qed.

Lemma sum_not_finite p : forall acc,
  Float.is_finite acc = false \/ forallb Float.is_finite p = false ->
  Float.is_finite (fold_left Float.add p acc) = false.
Proof.
  induction p as [|x p IH]; intros acc H; simpl.
  - destruct H as [H|H]; [exact H|discriminate].
  - apply IH. simpl in H. rewrite andb_false_iff in H.
    destruct H as [H|[H|H]].
    + left. apply add_not_finite. left. exact H.
    + left. apply add_not_finite. right. exact H.
    + right. exact H.
Qed.

Lemma not_finite_invalid x :
  Float.is_finite x = false ->
  Float.ltb (Float.abs (Float.sub x f_1)) f_0_0001 = false.
Proof.
  assert (H1 : f_1 = S754_finite false 4503599627370496 (-52)) by (vm_compute; reflexivity).
  rewrite H1. destruct x as [s|s| |s m e]; try discriminate; intros _.
  - destruct s; vm_compute; reflexivity.
  - vm_compute; reflexivity.
Qed.

Lemma valid_probabilities_finite p :
  valid_probabilities p = true -> p <> [] /\ forallb Float.is_finite p = true.
Proof.
  intros H. split.
  - intros ->. vm_compute in H. discriminate.
  - destruct (forallb Float.is_finite p) eqn:Hf; [reflexivity|].
    unfold valid_probabilities in H. rewrite not_finite_invalid in H; [discriminate|].
    apply sum_not_finite. right. exact Hf.
Qed.

(** X6.  [choose] raises [AssertionError] when [predict] returns no
    probabilities, or a probability that is infinite or not a number; the
    learner keeps the state [predict] left it in and nothing is drawn from
    the random stream. *)
Theorem choose_rejects_degenerate b k c acts p st :
  learner_predict (_learner b) (learner_state (_learner b)) k c acts = (Ok p, st) ->
  p = [] \/ forallb Float.is_finite p = false ->
  choose b k c acts = (Raise AssertionError, set_learner b st).
Proof.
  intros Hp Hd. unfold choose, predict. rewrite Hp.
  destruct (valid_probabilities p) eqn:Hv; [|reflexivity].
  destruct (valid_probabilities_finite p Hv) as [Hne Hf].
  destruct Hd as [->|Hd]; [contradiction|congruence].
Qed.

Lemma choose_rejects_degenerate_witness :
  choose (adapter silent_learner) 0 CNone [1; 2]
  = (Raise AssertionError, set_learner (adapter silent_learner) 1).
Proof.
  apply (choose_rejects_degenerate (adapter silent_learner) 0 CNone [1; 2] [] 1).
  - reflexivity.
  - left. reflexivity.
Defined.


Lemma length_learn_calls batch rets rewards :
  length rets = length batch ->
  length (learn_calls batch rets rewards) = Nat.min (length batch) (length rewards).
Proof.
  intros H. unfold learn_calls. rewrite length_zip_with, length_zip_with. lia.
Qed.

(** X7.  The reward function is trusted with the number of rewards: when
    no call raises and it answers the N choices of a batch with k rewards,
    [learn] is called [min N k] times, for the first interactions, and the
    mean reward is taken over all k rewards, which fails with
    [StatisticsError] when there is none. *)
Theorem process_batch_reward_count batch learner rwd tr l' r :
  process_batch batch learner rwd = (tr, l', r) ->
  forallb returned tr = true ->
  exists rets rewards,
    length rets = length batch
    /\ observe rwd (zip_with chosen batch rets) = Ok rewards
    /\ tr = zip_with choose_call batch rets
            ++ CallObserve (zip_with chosen batch rets) (Ok rewards)
               :: learn_calls batch rets rewards
    /\ length (learn_calls batch rets rewards) = Nat.min (length batch) (length rewards)
    /\ r = mean_reward rewards
    /\ (rewards = [] -> r = Raise StatisticsError).
Proof.
  intros H Hret.
  destruct (process_batch_shape _ _ _ _ _ _ H Hret) as (rets & rewards & Hl & Ho & Ht & Hr).
  exists rets, rewards. split; [exact Hl|]. split; [exact Ho|]. split; [exact Ht|].
  split; [apply length_learn_calls, Hl|]. split; [exact Hr|].
  intros ->. rewrite Hr. reflexivity.
Qed.

(** The reward function of the witness answers two choices with three
    rewards: [learn] is called twice and the mean is taken over the three. *)
Lemma process_batch_reward_count_witness :
  exists rets rewards,
    length rets = length [interaction_1; interaction_2]
    /\ observe fixed_reward (zip_with chosen [interaction_1; interaction_2] rets) = Ok rewards
    /\ fst (fst (process_batch [interaction_1; interaction_2] (adapter even_learner)
                   fixed_reward))
       = zip_with choose_call [interaction_1; interaction_2] rets
         ++ CallObserve (zip_with chosen [interaction_1; interaction_2] rets) (Ok rewards)
            :: learn_calls [interaction_1; interaction_2] rets rewards
    /\ length (learn_calls [interaction_1; interaction_2] rets rewards)
       = Nat.min (length [interaction_1; interaction_2]) (length rewards)
    /\ Ok f_0_4 = mean_reward rewards
    /\ (rewards = [] -> Ok f_0_4 = Raise StatisticsError).
Proof.
  apply (process_batch_reward_count [interaction_1; interaction_2] (adapter even_learner)
           fixed_reward
           (fst (fst (process_batch [interaction_1; interaction_2] (adapter even_learner)
                        fixed_reward)))
           (snd (fst (process_batch [interaction_1; interaction_2] (adapter even_learner)
                        fixed_reward)))
           (Ok f_0_4)).
  - vm_compute. reflexivity.
  - vm_compute. reflexivity.
Defined.



(** ** Exceptions *)

Lemma logged_app tr1 tr2 : logged (tr1 ++ tr2) = logged tr1 ++ logged tr2.
Proof. unfold logged. apply flat_map_app. Qed.

Lemma ends_with_app tr1 tr2 e : ends_with tr2 e -> ends_with (tr1 ++ tr2) e.
Proof.
  intros (tr' & ev & -> & H). exists (tr1 ++ tr'), ev. rewrite app_assoc. auto.
Qed.

Lemma ends_with_cons ev tr e : ends_with tr e -> ends_with (ev :: tr) e.
Proof. apply (ends_with_app [ev]). Qed.

Lemma run_learners_exceptions ignore_raise sim s bs queue :
  let '((tr, r), _) := run_learners ignore_raise sim s bs queue in
  Forall (fun e => is_Exception e = true) (logged tr)
  /\ (forall e, r = Raise e -> is_Exception e = true ->
        ignore_raise = false /\ ends_with tr e /\ exists tr', tr = tr' ++ [EvLogException e]).
Proof.
  induction queue as [|[lrn l] queue IH]; cbn [run_learners].
  - split; [constructor|discriminate].
  - pose proof (evaluate_logged sim lrn l s bs) as Hlog.
    destruct (evaluate sim lrn l s bs) as [tr [t|e]]; cbn [fst] in Hlog.
    + destruct (run_learners _ _ _ _ queue) as [[tr' r'] rest].
      destruct IH as [IH1 IH2]. split.
      * rewrite logged_app, Hlog. exact IH1.
      * intros e Hr He. destruct (IH2 e Hr He) as (Hi & Hend & tr'' & ->).
        split; [exact Hi|]. split.
        -- apply ends_with_app, ends_with_cons, Hend.
        -- exists (tr ++ EvYield t :: tr''). rewrite <- app_assoc. reflexivity.
    + destruct (is_Exception e) eqn:He.
      * destruct ignore_raise.
        -- destruct (run_learners _ _ _ _ queue) as [[tr' r'] rest].
           destruct IH as [IH1 IH2]. split.
           ++ rewrite logged_app, Hlog. simpl. constructor; assumption.
           ++ intros e' Hr He'. destruct (IH2 e' Hr He') as (Hi & _). discriminate.
        -- split.
           ++ rewrite logged_app, Hlog. simpl. constructor; [assumption|constructor].
           ++ intros e' [= <-] _. split; [reflexivity|]. split; [|eauto].
              exists tr, (EvLogException e). split; reflexivity.
      * split.
        -- rewrite Hlog. constructor.
        -- intros e' [= <-] He'. congruence.
Qed.

Lemma simulations_loop_exceptions ignore_raise src loaded groups :
  let '(tr, r) := simulations_loop ignore_raise src loaded groups in
  Forall (fun e => is_Exception e = true) (logged tr)
  /\ (forall e, r = Raise e -> is_Exception e = true -> ends_with tr e).
Proof.
  induction groups as [|[[sim handle] ts] groups IH]; cbn [simulations_loop].
  - split; [constructor|discriminate].
  - destruct (apply_filter (filter_of handle) loaded) as [s|e].
    + destruct (batchify s) as [|b bs] eqn:Hbs.
      * destruct (simulations_loop _ _ _ groups) as [tr' r']. destruct IH as [IH1 IH2].
        split; [exact IH1|]. intros e Hr He.
        apply (ends_with_app [_; _]), IH2; assumption.
      * rewrite learners_loop_combine by (rewrite !length_map; reflexivity).
        pose proof (run_learners_exceptions ignore_raise sim s (b :: bs)
                      (rev (combine (map lrn_id ts) (map learner ts)))) as Hl.
        destruct (run_learners _ _ _ _ _) as [[tr r] rest]. destruct Hl as [Hl1 Hl2].
        destruct r as [[]|e].
        -- destruct (simulations_loop _ _ _ groups) as [tr' r']. destruct IH as [IH1 IH2].
           split.
           ++ change (logged (EvCreateSimulation sim src :: tr ++ tr'))
                with (logged (tr ++ tr')).
              rewrite logged_app. apply Forall_app. split; assumption.
           ++ intros e Hr He. apply ends_with_cons, ends_with_app, IH2; assumption.
        -- split; [exact Hl1|]. intros e' [= <-] He.
           apply ends_with_cons. apply (Hl2 e eq_refl He).
    + split; [constructor|]. intros e' [= <-] _.
      exists [], (EvCreateSimulation sim src). split; reflexivity.
Qed.

Lemma sources_loop_exceptions ignore_raise groups :
  let '(tr, r) := sources_loop ignore_raise groups in
  Forall (fun e => is_Exception e = true) (logged tr)
  /\ (forall e, r = Raise e -> is_Exception e = true -> ends_with tr e).
Proof.
  induction groups as [|[[src o] ts] groups IH]; cbn [sources_loop].
  - split; [constructor|discriminate].
  - destruct (source_read o) as [loaded|e].
    + pose proof (simulations_loop_exceptions ignore_raise src loaded
                    (groupby (fun t => (sim_id t, simulation t)) grp_sim_eqb
                       (sorted sim_id ts))) as Hs.
      destruct (simulations_loop _ _ _ _) as [tr r]. destruct Hs as [Hs1 Hs2].
      destruct r as [[]|e].
      * destruct (sources_loop _ groups) as [tr' r']. destruct IH as [IH1 IH2].
        split.
        -- change (logged (EvLoadSource src (source_obj o) :: tr ++ tr'))
             with (logged (tr ++ tr')).
           rewrite logged_app. apply Forall_app. split; assumption.
        -- intros e Hr He. apply ends_with_cons, ends_with_app, IH2; assumption.
      * split; [exact Hs1|]. intros e' [= <-] He. apply ends_with_cons, Hs2; auto.
    + split; [constructor|]. intros e' [= <-] _.
      exists [], (EvLoadSource src (source_obj o)). split; reflexivity.
Qed.

(** X8.  What the engine passes to [log_exception] is an [Exception], never
    a cancellation.  With failures suppressed it lets no [Exception] out.
    When an [Exception] leaves it, the outer handler has passed an exception
    to [log_exception] as the last event, after the source that was being
    read, the simulation that was being created, or the entry of the inner
    handler for the same exception (the failure of an evaluation reaches
    [log_exception] twice), and has re-raised it: what leaves the engine is
    that exception, or a [RuntimeError] in the place of a [StopIteration],
    which never leaves the engine.  What is not an [Exception] goes out
    without an entry. *)
Theorem exceptions_policy ignore_raise task_groups :
  let tr := fst (Transactions_filter ignore_raise task_groups) in
  let r := snd (Transactions_filter ignore_raise task_groups) in
  Forall (fun e => is_Exception e = true) (logged tr)
  /\ (ignore_raise = true -> forall e, r = Raise e -> is_Exception e = false)
  /\ (forall e', r = Raise e' -> is_Exception e' = true ->
        ignore_raise = false
        /\ exists tr' ev e,
             tr = tr' ++ [ev; EvLogException e] /\ raised_at ev e
             /\ e' = match e with StopIteration => RuntimeError | _ => e end)
  /\ r <> Raise StopIteration
  /\ (forall e, r = Raise e -> is_Exception e = false -> ~ In (EvLogException e) tr).
Proof.
  cbv zeta. unfold Transactions_filter, process_group.
  pose proof (sources_loop_exceptions ignore_raise
                (groupby (fun t => (src_id t, source (simulation t))) grp_src_eqb
                   (sorted src_id (concat task_groups)))) as H.
  destruct (sources_loop _ _) as [tr r]. destruct H as [H1 H2].
  assert (Hnot : forall tr0 e, Forall (fun e => is_Exception e = true) (logged tr0) ->
                   is_Exception e = false -> ~ In (EvLogException e) tr0).
  { intros tr0 e Hall He Hin. rewrite Forall_forall in Hall.
    assert (In e (logged tr0)).
    { unfold logged. apply in_flat_map. exists (EvLogException e). split; [exact Hin|left; reflexivity]. }
    apply list_elem_of_In, Hall in H. congruence. }
  destruct r as [[]|e]; cbn [fst snd].
  - split; [exact H1|]. repeat split; discriminate.
  - destruct (is_Exception e) eqn:He; cbn [fst snd].
    + assert (Hall : Forall (fun e => is_Exception e = true) (logged (tr ++ [EvLogException e]))).
      { rewrite logged_app. apply Forall_app. split; [exact H1|]. repeat constructor. exact He. }
      split; [exact Hall|]. split; [|split; [|split]].
      * intros ->. discriminate.
      * destruct ignore_raise; [discriminate|]. intros e' [= <-] _. split; [reflexivity|].
        destruct (H2 e eq_refl He) as (tr' & ev & -> & Hev).
        exists tr', ev, e. rewrite <- app_assoc. repeat split. exact Hev.
      * destruct ignore_raise; [discriminate|]. destruct e; discriminate.
      * intros e' Hr He'. apply Hnot; assumption.
    + split; [exact H1|]. split; [|split; [|split]].
      * intros _ e' [= <-]. exact He.
      * intros e' [= <-] He'. congruence.
      * intros [= ->]. discriminate.
      * intros e' [= <-] _. apply Hnot; assumption.
Qed.

(** X9.  A source whose [read] raises an [Exception] ends the run: the
    sources before it are done, the exception is passed to [log_exception],
    and no later source is touched; with failures suppressed the engine then
    returns as if the run were complete, and otherwise the exception leaves
    it, a [StopIteration] as a [RuntimeError]. *)
Theorem source_failure_ends_run ignore_raise tasks G1 k ts G2 e tr1 :
  sources_of tasks = G1 ++ (k, ts) :: G2 ->
  sources_loop ignore_raise G1 = (tr1, Ok tt) ->
  source_read (snd k) = Raise e ->
  is_Exception e = true ->
  Transactions_filter ignore_raise [tasks]
  = (tr1 ++ [EvLoadSource (fst k) (source_obj (snd k)); EvLogException e],
     if ignore_raise then Ok tt
     else Raise match e with StopIteration => RuntimeError | _ => e end).
Proof.
  intros HG H1 Hread He. unfold Transactions_filter. cbn [concat]. rewrite app_nil_r.
  rewrite process_group_handler, HG, sources_loop_app, H1.
  unfold and_then. cbn [fst snd]. destruct k as [src o]. cbn [sources_loop fst snd] in *.
  rewrite Hread. unfold outer_handler. cbn [fst snd]. rewrite He.
  rewrite <- app_assoc. reflexivity.
Qed.

Lemma source_failure_ends_run_witness :
  Transactions_filter true [failing_tasks]
  = (fst (sources_loop true (take 1 (sources_of failing_tasks)))
       ++ [EvLoadSource 1 12%nat; EvLogException ValueError],
     Ok tt).
Proof.
  apply (source_failure_ends_run true failing_tasks
           (take 1 (sources_of failing_tasks))
           (1, broken_source)
           (List.filter (fun t => src_id t =? 1) failing_tasks)
           (drop 2 (sources_of failing_tasks))
           ValueError
           (fst (sources_loop true (take 1 (sources_of failing_tasks))))).
  - vm_compute. reflexivity.
  - vm_compute. reflexivity.
  - reflexivity.
  - reflexivity.
Defined.

(** A [StopIteration] of a source, with failures not suppressed: it is
    passed to [log_exception], and what leaves the engine is a
    [RuntimeError]. *)
Example stop_iteration_run :
  Transactions_filter false [stopping_tasks]
  = ([EvLoadSource 0 13%nat; EvLogException StopIteration], Raise RuntimeError)
  /\ Transactions_filter true [stopping_tasks]
     = ([EvLoadSource 0 13%nat; EvLogException StopIteration], Ok tt).
Proof. split; vm_compute; reflexivity. Qed.

(** The run of the witness: the first source is read and its task gives a
    record, the second source fails, and the third is never read. *)
Example source_failure_run :
  map (fun t => (src_id t, sim_id t)) failing_tasks = [(0, 0); (1, 1); (2, 2)]
  /\ loads (fst (Transactions_filter true [failing_tasks])) = [(0, 10%nat); (1, 12%nat)]
  /\ recorded (fst (Transactions_filter true [failing_tasks])) = [(0, 0)]
  /\ logged (fst (Transactions_filter true [failing_tasks])) = [ValueError]
  /\ snd (Transactions_filter true [failing_tasks]) = Ok tt.
Proof. vm_compute. repeat split. Qed.



(** ** Sources and tasks *)

Lemma loads_app tr1 tr2 : loads (tr1 ++ tr2) = loads tr1 ++ loads tr2.
Proof. unfold loads. apply flat_map_app. Qed.

Lemma loads_evaluate sim lrn l s bs : loads (fst (evaluate sim lrn l s bs)) = [].
Proof.
  unfold evaluate. destruct (init l) as [[[]|e] l0]; [|reflexivity].
  destruct (result_map _ bs) as [cs|e]; [|reflexivity].
  destruct (result_map _ bs) as [acs|e]; [|reflexivity].
  destruct (process_batches bs l0 (reward s)) as [[tr l1] [ms|e]];
    unfold loads; simpl; apply flat_map_map_nil; reflexivity.
Qed.

Lemma loads_run_learners ignore_raise sim s bs queue :
  loads (fst (fst (run_learners ignore_raise sim s bs queue))) = [].
Proof.
  induction queue as [|[lrn l] queue IH]; cbn [run_learners]; [reflexivity|].
  pose proof (loads_evaluate sim lrn l s bs) as He.
  destruct (evaluate sim lrn l s bs) as [tr [t|e]]; cbn [fst] in He.
  - destruct (run_learners _ _ _ _ queue) as [[tr' r'] rest]. cbn [fst] in *.
    rewrite loads_app, He. exact IH.
  - destruct (is_Exception e); [destruct ignore_raise|]; cbn [fst].
    + destruct (run_learners _ _ _ _ queue) as [[tr' r'] rest]. cbn [fst] in *.
      rewrite loads_app, He. exact IH.
    + rewrite loads_app, He. reflexivity.
    + exact He.
Qed.

Lemma loads_simulations_loop ignore_raise src loaded groups :
  loads (fst (simulations_loop ignore_raise src loaded groups)) = [].
Proof.
  induction groups as [|[[sim handle] ts] groups IH]; cbn [simulations_loop]; [reflexivity|].
  destruct (apply_filter (filter_of handle) loaded) as [s|e]; [|reflexivity].
  destruct (batchify s) as [|b bs].
  - destruct (simulations_loop _ _ _ groups) as [tr' r']. exact IH.
  - rewrite learners_loop_combine by (rewrite !length_map; reflexivity).
    pose proof (loads_run_learners ignore_raise sim s (b :: bs)
                  (rev (combine (map lrn_id ts) (map learner ts)))) as Hl.
    destruct (run_learners _ _ _ _ _) as [[tr r] rest]. cbn [fst] in Hl.
    destruct r as [[]|e].
    + destruct (simulations_loop _ _ _ groups) as [tr' r']. cbn [fst] in *.
      change (loads (EvCreateSimulation sim src :: tr ++ tr')) with (loads (tr ++ tr')).
      rewrite loads_app, Hl. exact IH.
    + exact Hl.
Qed.

(** The sources are read in the order of the groups, up to the group at
    which the loop is left. *)
Lemma loads_sources_loop ignore_raise groups :
  exists rest,
    map (fun kg => (fst (fst kg), source_obj (snd (fst kg)))) groups
    = loads (fst (sources_loop ignore_raise groups)) ++ rest.
Proof.
  induction groups as [|[[src o] ts] groups [rest IH]]; cbn [sources_loop].
  - exists []. reflexivity.
  - cbn [map fst snd]. destruct (source_read o) as [loaded|e].
    + pose proof (loads_simulations_loop ignore_raise src loaded
                    (groupby (fun t => (sim_id t, simulation t)) grp_sim_eqb
                       (sorted sim_id ts))) as Hs.
      destruct (simulations_loop _ _ _ _) as [tr r]. cbn [fst] in Hs.
      destruct r as [[]|e].
      * destruct (sources_loop _ groups) as [tr' r']. cbn [fst] in *.
        exists rest. rewrite IH.
        change (loads (EvLoadSource src (source_obj o) :: tr ++ tr'))
          with ((src, source_obj o) :: loads (tr ++ tr')).
        rewrite loads_app, Hs. reflexivity.
      * cbn [fst]. eexists.
        change (loads (EvLoadSource src (source_obj o) :: tr))
          with ((src, source_obj o) :: loads tr).
        rewrite Hs. reflexivity.
    + cbn [fst]. eexists. reflexivity.
Qed.

(** The keys of the groups of tasks in ascending source id order. *)
Lemma sources_of_keys l :
  StronglySorted (fun a b => src_id a <= src_id b) l ->
  src_ids_faithful l ->
  let groups := groupby (fun t => (src_id t, source (simulation t))) grp_src_eqb l in
  StronglySorted Z.lt (map (fun kg => fst (fst kg)) groups)
  /\ Forall (fun kg => exists t, In t l /\ fst kg = (src_id t, source (simulation t))) groups
  /\ match groups with
     | (k, _) :: _ => exists x l', l = x :: l' /\ k = (src_id x, source (simulation x))
     | [] => True
     end.
Proof.
  induction 1 as [|x l Hl IH Hx]; intros Hf; [repeat split; constructor|].
  assert (Hf' : src_ids_faithful l).
  { intros t1 t2 H1 H2. apply Hf; right; assumption. }
  specialize (IH Hf'). cbv zeta in *. cbn [groupby].
  destruct (groupby _ grp_src_eqb l) as [|[k g] gs] eqn:Hg.
  - cbn [map fst]. split; [repeat constructor|]. split; [|eauto].
    constructor; [|constructor]. exists x. split; [left|]; reflexivity.
  - destruct IH as (Hs & Hall & (y & l' & -> & ->)).
    assert (Hrest : Forall (fun kg => exists t, In t (x :: y :: l')
                                       /\ fst kg = (src_id t, source (simulation t)))
                      ((src_id y, source (simulation y), g) :: gs)).
    { eapply Forall_impl; [exact Hall|]. intros kg (t & Ht & Hk). exists t. split; [right|]; assumption. }
    assert (Hxy : src_id x <= src_id y) by (inversion Hx; assumption).
    destruct (grp_src_eqb _ _) eqn:He.
    + apply grp_src_eqb_spec in He. cbn [fst snd] in He. injection He as He1 He2.
      cbn [map fst] in *. split; [rewrite He1; exact Hs|]. split; [|eauto].
      inversion Hrest; subst. constructor; [|assumption].
      exists x. split; [left|]; reflexivity.
    + assert (Hne : src_id x <> src_id y).
      { intros Heq. assert (H : grp_src_eqb (src_id x, source (simulation x))
                                  (src_id y, source (simulation y)) = true).
        { apply grp_src_eqb_spec. cbn [fst snd]. f_equal; [exact Heq|].
          apply (Hf x y); [left; reflexivity|right; left; reflexivity|exact Heq]. }
        congruence. }
      cbn [map fst] in *. split; [|split; [|eauto]].
      * constructor; [exact Hs|]. inversion Hs; subst.
        constructor; [lia|]. eapply Forall_impl; [eassumption|]. simpl. intros; lia.
      * constructor; [|exact Hrest]. exists x. split; [left|]; reflexivity.
Qed.

Lemma StronglySorted_lt_NoDup l : StronglySorted Z.lt l -> NoDup l.
Proof.
  induction 1 as [|x l Hl IH Hx]; constructor; [|exact IH].
  intros Hin. rewrite Forall_forall in Hx. specialize (Hx x Hin). lia.
Qed.

Lemma NoDup_map_transfer {A B C} (f : A -> B) (g : A -> C) l :
  (forall x y, In x l -> In y l -> g x = g y -> f x = f y) ->
  NoDup (map f l) -> NoDup (map g l).
Proof.
  induction l as [|x l IH]; intros Hinj Hnd; [constructor|].
  cbn [map] in *. apply NoDup_cons in Hnd as [Hx Hnd]. apply NoDup_cons. split.
  - intros Hin. apply Hx. apply list_elem_of_In, in_map_iff in Hin as (y & Hy & Hin).
    apply list_elem_of_In, in_map_iff. exists y. split; [|exact Hin].
    symmetry. apply Hinj; [left; reflexivity|right; exact Hin|symmetry; exact Hy].
  - apply IH; [|exact Hnd]. intros y z Hy Hz. apply Hinj; right; assumption.
Qed.

Lemma StronglySorted_app_l {A} (R : A -> A -> Prop) l1 l2 :
  StronglySorted R (l1 ++ l2) -> StronglySorted R l1.
Proof.
  induction l1 as [|x l1 IH]; intros H; [constructor|].
  inversion H; subst. constructor; [apply IH; assumption|].
  apply Forall_app in H3 as [H3 _]. exact H3.
Qed.

Lemma Tasks_read_src_ids_faithful new sims lrns seed obj :
  src_ids_faithful (Tasks_read new sims lrns seed obj).
Proof.
  destruct (Tasks_loop_source_ids new seed (product (enumerate sims) (enumerate lrns))
              SourceIds_new obj SourceIds_new_wf) as (d' & Hwf & _ & Hall & _).
  fold (Tasks_read new sims lrns seed obj) in Hall.
  intros t1 t2 H1 H2. apply list_elem_of_In, Hall in H1. apply list_elem_of_In, Hall in H2.
  split.
  - intros Heq. rewrite Heq in H1. eapply (wf_inj _ Hwf); eassumption.
  - intros Heq. rewrite Heq in H1. congruence.
Qed.

Lemma loads_once ignore_raise tasks :
  src_ids_faithful tasks ->
  let tr := fst (process_group ignore_raise tasks) in
  StronglySorted Z.lt (map fst (loads tr))
  /\ NoDup (map snd (loads tr))
  /\ forall src o, In (src, o) (loads tr) ->
       exists t, In t tasks /\ src_id t = src /\ task_source_obj t = o.
Proof.
  intros Hf. cbv zeta.
  assert (Hf' : src_ids_faithful (sorted src_id tasks)).
  { intros t1 t2 H1 H2. apply In_sorted in H1, H2. apply Hf; assumption. }
  destruct (sources_of_keys _ (sorted_ordered src_id tasks) Hf') as (Hs & Hall & _).
  cbv zeta in Hs, Hall.
  assert (Hloads : exists rest,
             map (fun kg => (fst (fst kg), source_obj (snd (fst kg))))
               (groupby (fun t => (src_id t, source (simulation t))) grp_src_eqb
                  (sorted src_id tasks))
             = loads (fst (process_group ignore_raise tasks)) ++ rest).
  { unfold process_group.
    destruct (loads_sources_loop ignore_raise
                (groupby (fun t => (src_id t, source (simulation t))) grp_src_eqb
                   (sorted src_id tasks))) as [rest Hrest].
    destruct (sources_loop _ _) as [tr r]. cbn [fst] in Hrest.
    destruct r as [[]|e]; [exists rest; exact Hrest|].
    destruct (is_Exception e); cbn [fst]; [|exists rest; exact Hrest].
    rewrite loads_app. cbn [loads flat_map]. rewrite app_nil_r. exists rest. exact Hrest. }
  destruct Hloads as [rest Hloads].
  set (G := groupby _ grp_src_eqb (sorted src_id tasks)) in *.
  assert (H1 : map fst (loads (fst (process_group ignore_raise tasks))) ++ map fst rest
               = map (fun kg => fst (fst kg)) G).
  { rewrite <- map_app, <- Hloads, map_map. reflexivity. }
  assert (H2 : map snd (loads (fst (process_group ignore_raise tasks))) ++ map snd rest
               = map (fun kg => source_obj (snd (fst kg))) G).
  { rewrite <- map_app, <- Hloads, map_map. reflexivity. }
  split; [|split].
  - rewrite <- H1 in Hs. eapply StronglySorted_app_l, Hs.
  - assert (Hnd : NoDup (map (fun kg => source_obj (snd (fst kg))) G)).
    { apply (NoDup_map_transfer (fun kg => fst (fst kg))).
      - intros kg1 kg2 Hk1 Hk2 Ho. rewrite Forall_forall in Hall.
        destruct (Hall kg1 (proj2 (list_elem_of_In _ _) Hk1)) as (t1 & Ht1 & E1).
        destruct (Hall kg2 (proj2 (list_elem_of_In _ _) Hk2)) as (t2 & Ht2 & E2).
        rewrite E1, E2 in *. cbn [fst snd] in *. apply Hf'; assumption.
      - apply StronglySorted_lt_NoDup, Hs. }
    rewrite <- H2 in Hnd. apply NoDup_app in Hnd as [Hnd _]. exact Hnd.
  - intros src o Hin.
    assert (Hin' : In (src, o) (map (fun kg => (fst (fst kg), source_obj (snd (fst kg)))) G)).
    { rewrite Hloads. apply in_or_app. left. exact Hin. }
    apply in_map_iff in Hin' as (kg & [= <- <-] & Hkg).
    rewrite Forall_forall in Hall.
    destruct (Hall kg (proj2 (list_elem_of_In _ _) Hkg)) as (t & Ht & E).
    exists t. rewrite E. cbn [fst snd]. split; [apply In_sorted in Ht; exact Ht|].
    split; reflexivity.
Qed.

(** X10.  Over tasks of one reading of the task generator, however they are
    filtered and grouped, the engine reads no source object twice: the
    sources are read in ascending source id order, each for a task of the
    run. *)
Theorem sources_read_once new sims lrns seed obj ignore_raise task_groups :
  (forall t, In t (concat task_groups) -> In t (Tasks_read new sims lrns seed obj)) ->
  let tr := fst (Transactions_filter ignore_raise task_groups) in
  StronglySorted Z.lt (map fst (loads tr))
  /\ NoDup (map snd (loads tr))
  /\ forall src o, In (src, o) (loads tr) ->
       exists t, In t (concat task_groups) /\ src_id t = src /\ task_source_obj t = o.
Proof.
  intros Hsub. unfold Transactions_filter. apply loads_once.
  intros t1 t2 H1 H2. apply (Tasks_read_src_ids_faithful new sims lrns seed obj); auto.
Qed.

Lemma sources_read_once_witness :
  let tr := fst (Transactions_filter true (GroupByNone_filter example_tasks)) in
  StronglySorted Z.lt (map fst (loads tr))
  /\ NoDup (map snd (loads tr))
  /\ forall src o, In (src, o) (loads tr) ->
       exists t, In t (concat (GroupByNone_filter example_tasks))
                 /\ src_id t = src /\ task_source_obj t = o.
Proof.
  apply (sources_read_once first_choice
           [SourceFilters source_X take_1; PlainSource source_Y;
            SourceFilters source_X IdentityFilter]
           [even_learner] None 100%nat true (GroupByNone_filter example_tasks)).
  intros t Ht. vm_compute in Ht. vm_compute. exact Ht.
Defined.



Lemma sim_groups_ids ts :
  flat_map (fun g => map (fun t => (fst (fst g), lrn_id t)) (snd g))
    (groupby (fun t => (sim_id t, simulation t)) grp_sim_eqb ts)
  = map task_ids ts.
Proof.
  pose proof (groupby_groups (fun t => (sim_id t, simulation t)) grp_sim_eqb
                (fun k => (fst k, wrapper_obj (snd k))) ts grp_sim_eqb_spec) as Hg.
  rewrite <- (concat_groupby (fun t => (sim_id t, simulation t)) grp_sim_eqb ts) at 2.
  induction Hg as [|[k g] gs [_ Hk] Hg IH]; [reflexivity|].
  cbn [flat_map map concat fst snd] in *. rewrite map_app, IH. f_equal.
  apply map_ext_in. intros t Ht. specialize (Hk t Ht). cbn [fst snd] in Hk.
  injection Hk as Hk _. unfold task_ids. rewrite Hk. reflexivity.
Qed.

(** Marks that an evaluation leaves at most once in a run are left at most
    once per task. *)
Section Marks.

Variable mark : event -> list (Z * Z).
Hypothesis mark_load : forall src o, mark (EvLoadSource src o) = [].
Hypothesis mark_create : forall sim src, mark (EvCreateSimulation sim src) = [].
Hypothesis mark_nothing : forall sim, mark (EvNothingToEvaluate sim) = [].
Hypothesis mark_log : forall e, mark (EvLogException e) = [].
Hypothesis mark_evaluate : forall sim lrn l s bs,
  flat_map mark (fst (evaluate sim lrn l s bs))
  ++ match snd (evaluate sim lrn l s bs) with
     | Ok t => mark (EvYield t)
     | Raise _ => []
     end
  ⊆+ [(sim, lrn)].

Lemma marks_run_learners ignore_raise sim s bs queue :
  flat_map mark (fst (fst (run_learners ignore_raise sim s bs queue)))
  ⊆+ map (fun q => (sim, fst q)) queue.
Proof.
  induction queue as [|[lrn l] queue IH]; cbn [run_learners]; [reflexivity|].
  pose proof (mark_evaluate sim lrn l s bs) as He.
  destruct (evaluate sim lrn l s bs) as [tr [t|e]]; cbn [fst snd] in He.
  - destruct (run_learners _ _ _ _ queue) as [[tr' r'] rest]. cbn [fst map] in *.
    rewrite flat_map_app. cbn [flat_map]. rewrite app_assoc.
    apply (submseteq_app _ [_]); assumption.
  - rewrite app_nil_r in He.
    destruct (is_Exception e); [destruct ignore_raise|]; cbn [fst map].
    + destruct (run_learners _ _ _ _ queue) as [[tr' r'] rest]. cbn [fst] in *.
      rewrite flat_map_app. cbn [flat_map]. rewrite mark_log. cbn [app].
      apply (submseteq_app _ [_]); assumption.
    + rewrite flat_map_app. cbn [flat_map]. rewrite mark_log, !app_nil_r.
      apply (submseteq_inserts_r _ _ [_]). exact He.
    + apply (submseteq_inserts_r _ _ [_]). exact He.
Qed.

Lemma marks_simulations_loop ignore_raise src loaded groups :
  flat_map mark (fst (simulations_loop ignore_raise src loaded groups))
  ⊆+ flat_map (fun g => map (fun t => (fst (fst g), lrn_id t)) (snd g)) groups.
Proof.
  induction groups as [|[[sim handle] ts] groups IH]; cbn [simulations_loop]; [reflexivity|].
  cbn [flat_map fst snd].
  destruct (apply_filter (filter_of handle) loaded) as [s|e].
  2:{ cbn [fst flat_map]. rewrite mark_create. apply submseteq_nil_l. }
  destruct (batchify s) as [|b bs].
  - destruct (simulations_loop _ _ _ groups) as [tr' r']. cbn [fst flat_map] in *.
    rewrite mark_create, mark_nothing. cbn [app].
    apply submseteq_inserts_l. exact IH.
  - rewrite learners_loop_combine by (rewrite !length_map; reflexivity).
    pose proof (marks_run_learners ignore_raise sim s (b :: bs)
                  (rev (combine (map lrn_id ts) (map learner ts)))) as Hl.
    rewrite map_rev, <- (map_map fst (fun lrn => (sim, lrn))),
      map_fst_combine_eq, map_map in Hl by (rewrite !length_map; reflexivity).
    rewrite <- map_rev in Hl.
    assert (Hl' : flat_map mark (fst (fst (run_learners ignore_raise sim s (b :: bs)
                     (rev (combine (map lrn_id ts) (map learner ts))))))
                  ⊆+ map (fun t => (sim, lrn_id t)) ts).
    { etransitivity; [exact Hl|]. apply Permutation_submseteq.
      apply Permutation_map. symmetry. apply Permutation_rev. }
    clear Hl. destruct (run_learners _ _ _ _ _) as [[tr r] rest]. cbn [fst] in Hl'.
    destruct r as [[]|e].
    + destruct (simulations_loop _ _ _ groups) as [tr' r']. cbn [fst flat_map] in *.
      rewrite mark_create, flat_map_app. cbn [app]. apply submseteq_app; assumption.
    + cbn [fst flat_map]. rewrite mark_create. cbn [app].
      apply submseteq_inserts_r. exact Hl'.
Qed.

Lemma marks_sources_loop ignore_raise groups :
  flat_map mark (fst (sources_loop ignore_raise groups))
  ⊆+ map task_ids (concat (map snd groups)).
Proof.
  induction groups as [|[[src o] ts] groups IH]; cbn [sources_loop]; [reflexivity|].
  cbn [map concat snd]. rewrite map_app.
  destruct (source_read o) as [loaded|e].
  2:{ cbn [fst flat_map]. rewrite mark_load. apply submseteq_nil_l. }
  pose proof (marks_simulations_loop ignore_raise src loaded
                (groupby (fun t => (sim_id t, simulation t)) grp_sim_eqb
                   (sorted sim_id ts))) as Hs.
  rewrite sim_groups_ids in Hs.
  assert (Hs' : flat_map mark (fst (simulations_loop ignore_raise src loaded
                   (groupby (fun t => (sim_id t, simulation t)) grp_sim_eqb
                      (sorted sim_id ts))))
                ⊆+ map task_ids ts).
  { etransitivity; [exact Hs|]. apply Permutation_submseteq, Permutation_map, sorted_Permutation. }
  clear Hs. destruct (simulations_loop _ _ _ _) as [tr r]. cbn [fst] in Hs'.
  destruct r as [[]|e].
  - destruct (sources_loop _ groups) as [tr' r']. cbn [fst flat_map] in *.
    rewrite mark_load, flat_map_app. cbn [app]. apply submseteq_app; assumption.
  - cbn [fst flat_map]. rewrite mark_load. cbn [app].
    apply submseteq_inserts_r. exact Hs'.
Qed.

Lemma marks_Transactions_filter ignore_raise task_groups :
  flat_map mark (fst (Transactions_filter ignore_raise task_groups))
  ⊆+ map task_ids (concat task_groups).
Proof.
  unfold Transactions_filter, process_group.
  pose proof (marks_sources_loop ignore_raise
                (groupby (fun t => (src_id t, source (simulation t))) grp_src_eqb
                   (sorted src_id (concat task_groups)))) as H.
  rewrite concat_groupby in H.
  assert (H' : flat_map mark (fst (sources_loop ignore_raise
                  (groupby (fun t => (src_id t, source (simulation t))) grp_src_eqb
                     (sorted src_id (concat task_groups)))))
               ⊆+ map task_ids (concat task_groups)).
  { etransitivity; [exact H|]. apply Permutation_submseteq, Permutation_map, sorted_Permutation. }
  clear H. destruct (sources_loop _ _) as [tr r]. cbn [fst] in H'.
  destruct r as [[]|e]; [exact H'|].
  destruct (is_Exception e); cbn [fst]; [|exact H'].
  rewrite flat_map_app. cbn [flat_map]. rewrite mark_log, !app_nil_r. exact H'.
Qed.

End Marks.

Lemma attempted_evaluate sim lrn l s bs :
  attempted (fst (evaluate sim lrn l s bs)) = [(sim, lrn)].
Proof.
  unfold evaluate. destruct (init l) as [[[]|e] l0]; [|reflexivity].
  destruct (result_map _ bs) as [cs|e]; [|reflexivity].
  destruct (result_map _ bs) as [acs|e]; [|reflexivity].
  destruct (process_batches bs l0 (reward s)) as [[tr l1] [ms|e]];
    unfold attempted; simpl; rewrite flat_map_map_nil by reflexivity; reflexivity.
Qed.

Lemma recorded_evaluate sim lrn l s bs :
  recorded (fst (evaluate sim lrn l s bs)) = [].
Proof.
  unfold evaluate. destruct (init l) as [[[]|e] l0]; [|reflexivity].
  destruct (result_map _ bs) as [cs|e]; [|reflexivity].
  destruct (result_map _ bs) as [acs|e]; [|reflexivity].
  destruct (process_batches bs l0 (reward s)) as [[tr l1] [ms|e]];
    unfold recorded; simpl; rewrite flat_map_map_nil by reflexivity; reflexivity.
Qed.

Lemma submseteq_NoDup_l {A} (l k : list A) : l ⊆+ k -> NoDup k -> NoDup l.
Proof.
  intros H Hk. apply submseteq_Permutation in H as [k' H].
  rewrite H in Hk. apply NoDup_app in Hk as [Hl _]. exact Hl.
Qed.

(** X11.  The engine starts an evaluation, and yields a record, only for
    the pairs of a simulation id and a learner id of the tasks it is given,
    and for each no more often than the pair occurs among the tasks: with
    pairs that are all different no evaluation is started twice and no pair
    gets two records. *)
Theorem tasks_evaluated_at_most_once ignore_raise task_groups :
  let tr := fst (Transactions_filter ignore_raise task_groups) in
  attempted tr ⊆+ map task_ids (concat task_groups)
  /\ recorded tr ⊆+ map task_ids (concat task_groups)
  /\ (NoDup (map task_ids (concat task_groups)) ->
      NoDup (attempted tr) /\ NoDup (recorded tr)).
Proof.
  cbv zeta.
  assert (Ha : attempted (fst (Transactions_filter ignore_raise task_groups))
               ⊆+ map task_ids (concat task_groups)).
  { apply marks_Transactions_filter; try reflexivity.
    intros sim lrn l s bs. fold (attempted (fst (evaluate sim lrn l s bs))).
    rewrite attempted_evaluate. destruct (snd (evaluate sim lrn l s bs)); reflexivity. }
  assert (Hr : recorded (fst (Transactions_filter ignore_raise task_groups))
               ⊆+ map task_ids (concat task_groups)).
  { apply marks_Transactions_filter; try reflexivity.
    intros sim lrn l s bs. fold (recorded (fst (evaluate sim lrn l s bs))).
    rewrite recorded_evaluate. cbn [app].
    destruct (evaluate sim lrn l s bs) as [tr [t|e]] eqn:He; cbn [snd];
      [|apply submseteq_nil_l].
    destruct (evaluate_Ok _ _ _ _ _ _ _ He) as (_ & _ & _ & _ & _ & _ & _ & _ & _ & <- & <-).
    reflexivity. }
  split; [exact Ha|]. split; [exact Hr|].
  intros Hnd. split; eapply submseteq_NoDup_l; eassumption.
Qed.


(** * Properties of the data filters *)

(** ** RowRemover *)

(** [enumerate] from a position on. *)
Lemma combine_seq_shift {A} (l : list A) : forall n k,
  combine (map Z.of_nat (seq (S n) k)) l
  = map (fun p => (fst p + 1, snd p)) (combine (map Z.of_nat (seq n k)) l).
Proof.
  induction l as [|y l IH]; intros n [|k]; cbn [seq map combine]; try reflexivity.
  rewrite IH. cbn [fst snd]. do 2 f_equal. lia.
Qed.

Lemma enumerate_cons {A} (x : A) l :
  enumerate (x :: l) = (0, x) :: map (fun p => (fst p + 1, snd p)) (enumerate l).
Proof.
  unfold enumerate. cbn [length seq map combine]. f_equal. apply combine_seq_shift.
Qed.

Lemma enumerate_lookup {A} (l : list A) i x :
  In (i, x) (enumerate l) <-> 0 <= i /\ l !! Z.to_nat i = Some x.
Proof.
  revert i. induction l as [|y l IH]; intros i.
  - simpl. split; [contradiction|]. intros [_ H]. discriminate.
  - rewrite enumerate_cons. cbn [In]. rewrite in_map_iff. split.
    + intros [[= <- <-]|([j z] & [= <- <-] & Hin)].
      * split; [lia|reflexivity].
      * apply IH in Hin as [Hj Hl]. split; [lia|].
        replace (Z.to_nat (j + 1)) with (S (Z.to_nat j)) by lia. exact Hl.
    + intros [Hi Hl]. destruct (Z.eq_dec i 0) as [->|Hne].
      * left. simpl in Hl. congruence.
      * right. exists (i - 1, x). split; [cbn; f_equal; lia|].
        apply IH. split; [lia|].
        replace (Z.to_nat i) with (S (Z.to_nat (i - 1))) in Hl by lia. exact Hl.
Qed.

Lemma sublist_flat_map_snd {A B} (f : B * A -> bool) (l : list (B * A)) :
  sublist (flat_map (fun p => if f p then [] else [snd p]) l) (map snd l).
Proof.
  induction l as [|p l IH]; [constructor|].
  cbn [flat_map map]. destruct (f p); cbn [app].
  - apply sublist_cons, IH.
  - apply sublist_skip, IH.
Qed.

Lemma flat_map_singleton {A B} (f : A -> B) l : flat_map (fun x => [f x]) l = map f l.
Proof. induction l as [|x l IH]; simpl; congruence. Qed.

Lemma flat_map_of_map {A B C} (f : B -> list C) (g : A -> B) l :
  flat_map f (map g l) = flat_map (fun x => f (g x)) l.
Proof. induction l as [|x l IH]; simpl; congruence. Qed.

Lemma RowRemover_filter_alt {A} rr (items : list A) :
  RowRemover_filter rr items
  = flat_map (fun p => if in_ints (fst p) rr then [] else [snd p]) (enumerate items).
Proof.
  unfold RowRemover_filter. apply flat_map_ext. intros [i x]. reflexivity.
Qed.

Lemma RowRemover_filter_first {A} (items : list A) :
  RowRemover_filter [0] items = tl items.
Proof.
  rewrite RowRemover_filter_alt.
  destruct items as [|x items]; [reflexivity|].
  rewrite enumerate_cons. cbn [flat_map fst snd in_ints existsb tl]. cbn [Z.eqb orb app].
  rewrite flat_map_of_map. rewrite <- (snd_enumerate items) at 2.
  rewrite <- (flat_map_singleton snd).
  apply flat_map_ext_In. intros [i y] Hp. cbn [fst snd].
  apply enumerate_lookup in Hp as [H0 _].
  unfold in_ints. cbn [existsb]. destruct (Z.eqb_spec (i + 1) 0); [lia|]. reflexivity.
Qed.

(** X12.  [RowRemover] keeps the rows whose position is not listed, in
    order: a row is in the output exactly when it is at a position that is
    not listed; positions that are negative or beyond the last row remove
    nothing; and removing position 0 drops the first row. *)
Theorem RowRemover_filter_rows {A} (remove_rows : list Z) (items : list A) :
  sublist (RowRemover_filter remove_rows items) items
  /\ (forall x, In x (RowRemover_filter remove_rows items)
        <-> exists i, items !! i = Some x /\ ~ In (Z.of_nat i) remove_rows)
  /\ ((forall r, In r remove_rows -> r < 0 \/ Z.of_nat (length items) <= r) ->
      RowRemover_filter remove_rows items = items)
  /\ RowRemover_filter [0] items = tl items.
Proof.
  rewrite !RowRemover_filter_alt.
  assert (Hin : forall i, in_ints i remove_rows = true <-> In i remove_rows).
  { intros i. unfold in_ints. rewrite existsb_exists. split.
    - intros (z & Hz & He). apply Z.eqb_eq in He. subst. exact Hz.
    - intros H. exists i. split; [exact H|apply Z.eqb_refl]. }
  split; [|split; [|split]].
  - rewrite <- (snd_enumerate items) at 2. apply sublist_flat_map_snd.
  - intros x. rewrite in_flat_map. split.
    + intros ([i y] & Hp & Hx). cbn [fst snd] in Hx.
      destruct (in_ints i remove_rows) eqn:Hi; [contradiction|].
      destruct Hx as [<-|[]]. apply enumerate_lookup in Hp as [H0 Hl].
      exists (Z.to_nat i). split; [exact Hl|].
      rewrite Z2Nat.id by exact H0. intros Hc. apply Hin in Hc. congruence.
    + intros (i & Hl & Hn). exists (Z.of_nat i, x). split.
      * apply enumerate_lookup. split; [lia|]. rewrite Nat2Z.id. exact Hl.
      * cbn [fst snd]. destruct (in_ints (Z.of_nat i) remove_rows) eqn:Hi.
        -- apply Hin in Hi. contradiction.
        -- left. reflexivity.
  - intros Hout. rewrite <- (snd_enumerate items) at 2.
    rewrite <- (flat_map_singleton snd).
    apply flat_map_ext_In. intros [i x] Hp. cbn [fst snd].
    destruct (in_ints i remove_rows) eqn:Hi; [|reflexivity].
    apply Hin, Hout in Hi. apply enumerate_lookup in Hp as [H0 Hl].
    apply lookup_lt_Some in Hl. lia.
  - rewrite <- RowRemover_filter_alt. apply RowRemover_filter_first.
Qed.


(** ** ColSplitter and ColRemover *)

Lemma is_named_cases names index raw_col :
  match is_named names index raw_col with
  | Ok _ => _is_column_headers names = false \/ raw_col <> []
  | Raise e => e = IndexError /\ _is_column_headers names = true /\ raw_col = []
  end.
Proof.
  unfold is_named. destruct (_is_column_headers names).
  - destruct raw_col; [auto|]. right. discriminate.
  - left. reflexivity.
Qed.

Lemma ColSplitter_loop_spec names cols :
  match ColSplitter_loop names cols with
  | Ok (split1, split2) =>
      Permutation (split1 ++ split2) (map snd cols)
      /\ sublist split1 (map snd cols) /\ sublist split2 (map snd cols)
      /\ ColRemover_loop names cols = (split2, Ok tt)
      /\ (_is_column_headers names = false \/ ~ In [] (map snd cols))
  | Raise e =>
      e = IndexError /\ _is_column_headers names = true /\ In [] (map snd cols)
      /\ snd (ColRemover_loop names cols) = Raise IndexError
  end.
Proof.
  induction cols as [|[index raw_col] cols IH]; cbn [ColSplitter_loop ColRemover_loop map snd].
  - split; [constructor|]. split; [constructor|]. split; [constructor|].
    split; [reflexivity|]. right. intros [].
  - pose proof (is_named_cases names index raw_col) as Hn.
    destruct (is_named names index raw_col) as [named|e].
    + destruct (ColSplitter_loop names cols) as [[s1 s2]|e'].
      * destruct IH as (Hp & H1 & H2 & Hr & Hh). rewrite Hr.
        assert (Hh' : _is_column_headers names = false \/ ~ In [] (raw_col :: map snd cols)).
        { destruct Hh as [Hh|Hh]; [left; exact Hh|].
          destruct Hn as [Hn|Hn]; [left; exact Hn|]. right. intros [Hc|Hc]; auto. }
        destruct named.
        -- split; [cbn [app]; constructor; exact Hp|].
           split; [apply sublist_skip, H1|]. split; [apply sublist_cons, H2|]. auto.
        -- split; [rewrite <- Permutation_middle; constructor; exact Hp|].
           split; [apply sublist_cons, H1|]. split; [apply sublist_skip, H2|]. auto.
      * destruct IH as (-> & Hh & Hin & Hr). split; [reflexivity|]. split; [exact Hh|].
        split; [right; exact Hin|].
        destruct (ColRemover_loop names cols) as [out r]. cbn [snd] in *. exact Hr.
    + destruct Hn as (-> & Hh & ->). repeat split; auto. left. reflexivity.
Qed.

Lemma value_in_index index rr :
  value_in (VInt index) (map ByIndex rr) = in_ints index rr.
Proof.
  unfold value_in, in_ints. induction rr as [|r rr IH]; [reflexivity|].
  cbn [map existsb]. rewrite IH. reflexivity.
Qed.

Lemma ColRemover_loop_by_index rr cols :
  ColRemover_loop (map ByIndex rr) cols
  = (flat_map (fun p => if in_ints (fst p) rr then [] else [snd p]) cols, Ok tt).
Proof.
  assert (Hh : _is_column_headers (map ByIndex rr) = false) by (destruct rr; reflexivity).
  induction cols as [|[index raw_col] cols IH]; [reflexivity|].
  cbn [ColRemover_loop flat_map fst snd]. unfold is_named. rewrite Hh, IH.
  cbn [negb andb orb]. rewrite value_in_index.
  destruct (in_ints index rr); reflexivity.
Qed.

(** X13.  [ColSplitter] returns two lists that together are the columns, each
    in the order of the input, and [ColRemover] with the same names yields
    the second of them.  Both raise only when the columns are named by
    header and a column is empty, and then an [IndexError]. *)
Theorem ColSplitter_filter_partition names columns :
  match ColSplitter_filter names columns with
  | Ok (split1, split2) =>
      Permutation (split1 ++ split2) columns
      /\ sublist split1 columns /\ sublist split2 columns
      /\ ColRemover_filter names columns = (split2, Ok tt)
      /\ (_is_column_headers names = false \/ ~ In [] columns)
  | Raise e =>
      e = IndexError /\ _is_column_headers names = true /\ In [] columns
      /\ snd (ColRemover_filter names columns) = Raise IndexError
  end.
Proof.
  unfold ColSplitter_filter, ColRemover_filter.
  pose proof (ColSplitter_loop_spec names (enumerate columns)) as H.
  rewrite snd_enumerate in H. exact H.
Qed.

(** X14.  Removing columns by position is removing rows at those positions
    from the list of columns, and never raises; with no column named every
    column is kept. *)
Theorem ColRemover_filter_by_index (remove_columns : list Z) columns :
  ColRemover_filter (map ByIndex remove_columns) columns
  = (RowRemover_filter remove_columns columns, Ok tt)
  /\ ColRemover_filter [] columns = (columns, Ok tt).
Proof.
  unfold ColRemover_filter. split.
  - rewrite ColRemover_loop_by_index. f_equal. unfold RowRemover_filter.
    apply flat_map_ext. intros [i x]. reflexivity.
  - rewrite (ColRemover_loop_by_index []). f_equal.
    rewrite <- (snd_enumerate columns) at 2.
    generalize (enumerate columns). intros l.
    induction l as [|p l IH]; [reflexivity|].
    cbn [flat_map map]. unfold in_ints at 1. cbn [existsb app]. congruence.
Qed.


(** ** CsvTranspose *)

Lemma zip_star_cons {A} (r : list A) M :
  M <> [] -> zip_star (r :: M) = zip_with cons r (zip_star M).
Proof. destruct M; [contradiction|reflexivity]. Qed.

Lemma zip_star_singletons {A} (r : list A) :
  r <> [] -> zip_star (map (fun x => [x]) r) = [r].
Proof.
  induction r as [|x r IH]; [contradiction|]. intros _.
  destruct r as [|y r]; [reflexivity|].
  change (map (fun x => [x]) (x :: y :: r)) with ([x] :: map (fun x => [x]) (y :: r)).
  rewrite zip_star_cons by discriminate. rewrite IH by discriminate. reflexivity.
Qed.

Lemma zip_star_zip_with {A} (M : list (list A)) : forall r,
  length r = length M -> M <> [] ->
  zip_star (zip_with cons r M) = r :: zip_star M.
Proof.
  induction M as [|c M IH]; intros r Hl Hne; [contradiction|].
  destruct r as [|x r]; [discriminate|]. injection Hl as Hl.
  destruct M as [|c' M].
  - destruct r; [|discriminate]. reflexivity.
  - destruct r as [|y r]; [discriminate|].
    change (zip_with cons (x :: y :: r) (c :: c' :: M))
      with ((x :: c) :: zip_with cons (y :: r) (c' :: M)).
    rewrite zip_star_cons by discriminate.
    rewrite IH by (exact Hl || discriminate).
    rewrite (zip_star_cons c) by discriminate. reflexivity.
Qed.

Lemma zip_with_cons_lengths {A} m (Z : list (list A)) : forall r,
  Forall (fun c => length c = m) Z ->
  Forall (fun c => length c = S m) (zip_with cons r Z).
Proof.
  induction Z as [|c Z IH]; intros [|x r] Hc; try constructor.
  - inversion Hc; subst. reflexivity.
  - inversion Hc; subst. apply IH. assumption.
Qed.

Lemma length_zip_star_rect {A} n (rows : list (list A)) :
  rows <> [] -> Forall (fun row => length row = n) rows ->
  length (zip_star rows) = n /\ Forall (fun c => length c = length rows) (zip_star rows).
Proof.
  induction rows as [|r rows IH]; [contradiction|]. intros _ Hall.
  inversion Hall as [|? ? Hr Hrows]; subst.
  destruct rows as [|r' rows].
  - cbn [zip_star]. rewrite length_map. split; [reflexivity|].
    apply Forall_map. apply Forall_forall. intros; reflexivity.
  - destruct (IH ltac:(discriminate) Hrows) as [Hl Hc].
    rewrite zip_star_cons by discriminate. rewrite length_zip_with, Hl. split; [lia|].
    apply zip_with_cons_lengths. exact Hc.
Qed.

Lemma zip_star_involutive {A} n (rows : list (list A)) :
  (0 < n)%nat -> Forall (fun row => length row = n) rows ->
  zip_star (zip_star rows) = rows.
Proof.
  intros Hn. induction rows as [|r rows IH]; [reflexivity|]. intros Hall.
  inversion Hall as [|? ? Hr Hrows]; subst.
  destruct rows as [|r' rows].
  - cbn [zip_star]. apply zip_star_singletons. destruct r; [simpl in Hn; lia|discriminate].
  - rewrite zip_star_cons by discriminate.
    destruct (length_zip_star_rect (length r) (r' :: rows) ltac:(discriminate) Hrows)
      as [Hl _].
    rewrite zip_star_zip_with.
    + rewrite IH by exact Hrows. reflexivity.
    + symmetry. exact Hl.
    + intros Hz. rewrite Hz in Hl. simpl in Hl. lia.
Qed.

Lemma filter_all {A} (f : A -> bool) l :
  Forall (fun x => f x = true) l -> List.filter f l = l.
Proof.
  induction 1 as [|x l Hx Hl IH]; [reflexivity|]. simpl. rewrite Hx, IH. reflexivity.
Qed.

(** X15.  On a table whose rows all have the same number of cells, at least
    one, [CsvTranspose] gives one column per cell position, each as long as
    the table, and applied to these columns it gives the rows back. *)
Theorem CsvTranspose_filter_involutive n (items : list (list value)) :
  (0 < n)%nat -> Forall (fun row => length row = n) items ->
  exists columns,
    CsvTranspose_filter false items = Ok columns
    /\ length columns = (if Nat.eqb (length items) 0 then 0 else n)%nat
    /\ Forall (fun column => length column = length items) columns
    /\ CsvTranspose_filter false columns = Ok items.
Proof.
  intros Hn Hall. unfold CsvTranspose_filter. cbn [result_bind].
  rewrite (filter_all _ items).
  2:{ eapply Forall_impl; [exact Hall|]. intros row Hr. simpl in Hr. rewrite Hr.
      destruct n; [lia|reflexivity]. }
  exists (zip_star items). split; [reflexivity|].
  destruct items as [|r items].
  - repeat split; constructor.
  - destruct (length_zip_star_rect n (r :: items) ltac:(discriminate) Hall) as [Hl Hc].
    split; [exact Hl|]. split; [exact Hc|].
    rewrite filter_all.
    + rewrite (zip_star_involutive n) by assumption. reflexivity.
    + eapply Forall_impl; [exact Hc|]. intros c Hlen. simpl in Hlen. rewrite Hlen. reflexivity.
Qed.

Lemma CsvTranspose_filter_involutive_witness :
  exists columns,
    CsvTranspose_filter false example_table = Ok columns
    /\ length columns = (if Nat.eqb (length example_table) 0 then 0 else 2)%nat
    /\ Forall (fun column => length column = length example_table) columns
    /\ CsvTranspose_filter false columns = Ok example_table.
Proof.
  apply (CsvTranspose_filter_involutive 2 example_table).
  - lia.
  - repeat constructor.
Defined.


Lemma map_nth_seq {A} (r : list A) d :
  map (fun j => nth j r d) (seq 0 (length r)) = r.
Proof.
  induction r as [|x r IH]; [reflexivity|].
  cbn [length seq map nth]. f_equal. rewrite <- seq_shift, map_map. exact IH.
Qed.

Lemma zip_with_cons_seq {A} (g : nat -> list A) d : forall (r : list A) k,
  zip_with cons r (map g (seq 0 k))
  = map (fun j => nth j r d :: g j) (seq 0 (Nat.min (length r) k)).
Proof.
  intros r. revert g. induction r as [|x r IH]; intros g k; [reflexivity|].
  destruct k as [|k]; [reflexivity|].
  cbn [length Nat.min seq map zip_with nth]. f_equal.
  rewrite <- !seq_shift, !map_map. apply IH.
Qed.

(** The columns of [zip] over the rows, cell by cell. *)
Lemma zip_star_cells {A} (rows : list (list A)) d :
  zip_star rows
  = map (fun j => map (fun row => nth j row d) rows) (seq 0 (length (zip_star rows)))
  /\ (forall row, In row rows -> (length (zip_star rows) <= length row)%nat)
  /\ (rows <> [] -> exists row, In row rows /\ length (zip_star rows) = length row).
Proof.
  induction rows as [|r rows IH]; [repeat split; [contradiction|contradiction]|].
  destruct rows as [|r' rows].
  - cbn [zip_star]. rewrite length_map. split; [|split].
    + rewrite <- (map_nth_seq r d) at 1. rewrite map_map. reflexivity.
    + intros row [<-|[]]. lia.
    + intros _. exists r. split; [left|]; reflexivity.
  - destruct IH as (Hc & Hle & Hex). rewrite zip_star_cons by discriminate.
    set (Z := zip_star (r' :: rows)) in *.
    rewrite length_zip_with. split; [|split].
    + rewrite Hc at 1. rewrite (zip_with_cons_seq _ d). reflexivity.
    + intros row [<-|Hin]; [lia|]. specialize (Hle row Hin). lia.
    + intros _. destruct (Hex ltac:(discriminate)) as (row & Hin & Hl).
      destruct (Nat.le_ge_cases (length r) (length Z)).
      * exists r. split; [left; reflexivity|lia].
      * exists row. split; [right; exact Hin|lia].
Qed.

(** X16.  [CsvTranspose] without flattening never raises.  It drops the empty
    rows, and its j-th column holds the j-th cell of every remaining row;
    there are as many columns as the shortest remaining row has cells, so
    the cells beyond that are dropped, and none when no row remains. *)
Theorem CsvTranspose_filter_columns (items : list (list value)) :
  let rows := List.filter (fun item => negb (Nat.eqb (length item) 0)) items in
  exists columns,
    CsvTranspose_filter false items = Ok columns
    /\ columns
       = map (fun j => map (fun row => nth j row VNone) rows) (seq 0 (length columns))
    /\ (forall row, In row rows -> (length columns <= length row)%nat)
    /\ (rows <> [] -> exists row, In row rows /\ length columns = length row)
    /\ (rows = [] -> columns = []).
Proof.
  cbv zeta. unfold CsvTranspose_filter. cbn [result_bind].
  set (rows := List.filter _ items).
  exists (zip_star rows). split; [reflexivity|].
  destruct (zip_star_cells rows VNone) as (H1 & H2 & H3).
  split; [exact H1|]. split; [exact H2|]. split; [exact H3|].
  intros ->. reflexivity.
Qed.


Lemma _flatter_item_plain first second rest :
  not_a_sequence second ->
  _flatter_item (first :: second :: rest) = Ok [first :: second :: rest].
Proof. destruct second; simpl; intros H; [reflexivity..|contradiction]. Qed.

Lemma _flatter_item_heads item rows :
  _flatter_item item = Ok rows ->
  Forall (fun row => hd_error row = hd_error item) rows.
Proof.
  destruct item as [|first [|second rest]]; try discriminate.
  cbn [_flatter_item]. destruct second as [| | |l].
  1-3: intros [= <-]; repeat constructor.
  cbn [tl hd_error]. generalize (VSeq l :: rest). intros cells. revert rows.
  induction cells as [|c cells IH]; intros rows; cbn [result_map].
  - intros [= <-]. constructor.
  - destruct (py_list c) as [lc|e]; cbn [result_bind]; [|discriminate].
    destruct (result_map _ cells) as [rs|e]; [|discriminate].
    intros [= <-]. constructor; [reflexivity|]. apply IH. reflexivity.
Qed.

(** X17.  [_flatter] leaves a row alone when its second cell is not a list
    or tuple, and turns a row of a first cell and lists into one row per
    list, each headed by the first cell; every row it gives starts with the
    first cell of a row of the input.  It raises on a row of one cell, and
    raises nothing but [IndexError] and [TypeError]. *)
Theorem flatter_rows (items : list (list value)) :
  (Forall (fun item => exists first second rest,
                         item = first :: second :: rest /\ not_a_sequence second) items ->
   _flatter items = Ok items)
  /\ (forall rows, _flatter items = Ok rows ->
        Forall (fun row => exists item, In item items /\ hd_error row = hd_error item) rows)
  /\ (forall first cells, cells <> [] ->
        _flatter [first :: map VSeq cells] = Ok (map (cons first) cells))
  /\ (forall x, In [x] items -> exists e, _flatter items = Raise e)
  /\ (forall e, _flatter items = Raise e -> e = IndexError \/ e = TypeError).
Proof.
  unfold _flatter. split; [|split; [|split; [|split]]].
  - induction 1 as [|item items (first & second & rest & -> & Hs) Hall IH]; [reflexivity|].
    cbn [result_map]. rewrite (_flatter_item_plain _ _ _ Hs).
    destruct (result_map _flatter_item items) as [rs|e]; [|discriminate].
    cbn [result_bind] in *. injection IH as IH. cbn [concat app]. congruence.
  - induction items as [|item items IH]; intros rows; cbn [result_map result_bind].
    + intros [= <-]. constructor.
    + destruct (_flatter_item item) as [r1|e] eqn:H1; [|discriminate].
      destruct (result_map _flatter_item items) as [rs|e]; [|discriminate].
      cbn [result_bind concat] in *. intros [= <-]. apply Forall_app. split.
      * eapply Forall_impl; [exact (_flatter_item_heads _ _ H1)|].
        intros row Hr. exists item. split; [left; reflexivity|exact Hr].
      * eapply Forall_impl; [exact (IH _ eq_refl)|].
        intros row (it & Hin & Hr). exists it. split; [right; exact Hin|exact Hr].
  - intros first cells Hne.
    assert (H : forall cs, result_map (fun i => result_bind (py_list i)
                                               (fun l => Ok (first :: l)))
                  (map VSeq cs) = Ok (map (cons first) cs)).
    { induction cs as [|c' cs IH]; [reflexivity|].
      cbn [map result_map py_list result_bind]. rewrite IH. reflexivity. }
    assert (Hitem : _flatter_item (first :: map VSeq cells) = Ok (map (cons first) cells)).
    { destruct cells as [|c cells]; [contradiction|]. exact (H (c :: cells)). }
    cbn [result_map]. rewrite Hitem. cbn [result_bind concat]. rewrite app_nil_r.
    reflexivity.
  - intros x Hin. induction items as [|item items IH]; [contradiction|].
    cbn [result_map]. destruct Hin as [->|Hin].
    + cbn [_flatter_item]. eexists. reflexivity.
    + destruct (_flatter_item item) as [r1|e]; [|eexists; reflexivity].
      destruct (IH Hin) as [e He].
      destruct (result_map _flatter_item items) as [rs|e']; [discriminate|].
      eexists. reflexivity.
  - assert (Hitem : forall item e, _flatter_item item = Raise e -> e = IndexError \/ e = TypeError).
    { intros item e. destruct item as [|first [|second rest]]; try (intros [= <-]; auto).
      cbn [_flatter_item]. destruct second as [| | |l]; try discriminate.
      cbn [tl]. generalize (VSeq l :: rest). intros cells.
      induction cells as [|c cells IH]; cbn [result_map]; [discriminate|].
      destruct c; cbn [py_list result_bind]; try (intros [= <-]; right; reflexivity).
      - destruct (result_map _ cells); [discriminate|]. intros [= <-]. apply IH. reflexivity.
      - destruct (result_map _ cells); [discriminate|]. intros [= <-]. apply IH. reflexivity. }
    induction items as [|item items IH]; intros e; cbn [result_map result_bind]; [discriminate|].
    destruct (_flatter_item item) as [r1|e1] eqn:H1.
    + destruct (result_map _flatter_item items) as [rs|e2]; [discriminate|].
      cbn [result_bind] in *. intros [= <-]. apply IH. reflexivity.
    + cbn [result_bind]. intros [= <-]. eapply Hitem. exact H1.
Qed.


(** ** ArffHeaderAdder and Cartesian *)

Lemma ArffHeaderAdder_loop_from attributes columns : forall n,
  ArffHeaderAdder_loop attributes
    (combine (map Z.of_nat (seq n (length columns))) columns)
  = (zip_with cons (drop n attributes) columns,
     if (length columns <=? length (drop n attributes))%nat then Ok tt
     else Raise IndexError).
Proof.
  induction columns as [|c columns IH]; intros n.
  - cbn. destruct (drop n attributes); reflexivity.
  - cbn [length seq map combine ArffHeaderAdder_loop]. rewrite Nat2Z.id.
    destruct (attributes !! n) as [a|] eqn:Ha.
    + rewrite IH. rewrite (drop_S _ _ _ Ha). cbn [zip_with length].
      cbn [Nat.leb]. reflexivity.
    + rewrite drop_ge by (apply lookup_ge_None; exact Ha). reflexivity.
Qed.

Lemma Cartesian_loop_total {A B} (f : A -> B) (items : list A) :
  Cartesian_loop (map (fun item => (fun x => Ok (f x), item)) items)
  = (map f items, Ok tt).
Proof.
  induction items as [|x items IH]; [reflexivity|].
  cbn [map Cartesian_loop]. rewrite IH. reflexivity.
Qed.

Lemma tl_zip_with_cons {A} (attributes : list A) : forall columns,
  map (@tl A) (zip_with cons attributes columns) = take (length attributes) columns.
Proof.
  induction attributes as [|a attributes IH]; intros [|c columns]; try reflexivity.
  cbn [zip_with map tl length take]. rewrite IH. reflexivity.
Qed.

(** X18.  [ArffHeaderAdder] puts the attribute of its position in front of
    every column; with fewer attributes than columns it yields the columns
    that have one and then raises [IndexError].  With enough attributes,
    removing row 0 from every column it yields, by [Cartesian] over
    [RowRemover], gives the columns back. *)
Theorem ArffHeaderAdder_filter_headers attributes columns :
  ArffHeaderAdder_filter attributes columns
  = (zip_with cons attributes columns,
     if (length columns <=? length attributes)%nat then Ok tt else Raise IndexError)
  /\ ((length columns <= length attributes)%nat ->
      Cartesian_filter [fun column => Ok (RowRemover_filter [0] column)]
        (ManyItems (fst (ArffHeaderAdder_filter attributes columns)))
      = (columns, Ok tt)).
Proof.
  assert (H : ArffHeaderAdder_filter attributes columns
              = (zip_with cons attributes columns,
                 if (length columns <=? length attributes)%nat then Ok tt
                 else Raise IndexError)).
  { unfold ArffHeaderAdder_filter, enumerate.
    rewrite (ArffHeaderAdder_loop_from attributes columns 0). reflexivity. }
  split; [exact H|]. intros Hlen. rewrite H. cbn [fst].
  unfold Cartesian_filter, applications.
  rewrite <- (take_ge columns (length attributes)) at 2 by exact Hlen.
  rewrite <- tl_zip_with_cons.
  generalize (zip_with cons attributes columns). intros rows.
  assert (Hcalls : flat_map (fun item => map (fun filter => (filter, item))
                     [fun column : list value => Ok (RowRemover_filter [0] column)]) rows
                   = map (fun item => (fun x => Ok (RowRemover_filter [0] x), item)) rows).
  { induction rows as [|r rows IH]; [reflexivity|].
    change (flat_map ?f (r :: rows)) with (f r ++ flat_map f rows).
    rewrite IH. reflexivity. }
  rewrite Hcalls, (Cartesian_loop_total (RowRemover_filter [0])). f_equal.
  apply map_ext. intros row. apply RowRemover_filter_first.
Qed.


Lemma Cartesian_loop_prefix {A B} (calls : list ((A -> result B) * A)) :
  let '(out, r) := Cartesian_loop calls in
  Forall2 (fun c y => fst c (snd c) = Ok y) (take (length out) calls) out
  /\ (r = Ok tt -> length out = length calls)
  /\ (forall e, r = Raise e ->
        exists c e0, calls !! length out = Some c /\ fst c (snd c) = Raise e0
                     /\ e = match e0 with StopIteration => RuntimeError | _ => e0 end).
Proof.
  induction calls as [|[f x] calls IH]; cbn [Cartesian_loop].
  - split; [constructor|]. split; [reflexivity|discriminate].
  - destruct (f x) as [y|e] eqn:Hf.
    + destruct (Cartesian_loop calls) as [out r]. destruct IH as (H1 & H2 & H3).
      cbn [length take]. split; [constructor; assumption|].
      split; [intros Hr; rewrite (H2 Hr); reflexivity|]. exact H3.
    + cbn [length take]. split; [constructor|]. split; [discriminate|].
      intros e' [= <-]. exists (f, x), e. split; [reflexivity|]. split; [exact Hf|reflexivity].
Qed.

Lemma length_applications {A B} (filters : list (A -> result B)) items :
  length (applications filters items) = (length items * length filters)%nat.
Proof.
  unfold applications. induction items as [|x items IH]; [reflexivity|].
  cbn [flat_map]. rewrite length_app, length_map, IH. reflexivity.
Qed.

(** X19.  [Cartesian] applies every filter to every item, item by item: what
    it yields are the results of the applications in that order, up to the
    first that raises, which ends it with the exception of that application,
    or with a [RuntimeError] when that exception is a [StopIteration], which
    never ends it; when none raises it yields one result per item and
    filter.  An argument that is not iterable is treated as one item. *)
Theorem Cartesian_filter_applications {A B} (filters : list (A -> result B))
    (items : list A) :
  let '(out, r) := Cartesian_filter filters (ManyItems items) in
  Forall2 (fun c y => fst c (snd c) = Ok y)
    (take (length out) (applications filters items)) out
  /\ (r = Ok tt -> length out = (length items * length filters)%nat)
  /\ (forall e, r = Raise e ->
        exists c e0, applications filters items !! length out = Some c
                     /\ fst c (snd c) = Raise e0
                     /\ e = match e0 with StopIteration => RuntimeError | _ => e0 end)
  /\ r <> Raise StopIteration
  /\ ((forall filter item, In filter filters -> In item items -> is_Ok (filter item) = true) ->
      r = Ok tt)
  /\ (forall item, Cartesian_filter filters (OneItem item)
                   = Cartesian_filter filters (ManyItems [item])).
Proof.
  unfold Cartesian_filter.
  pose proof (Cartesian_loop_prefix (applications filters items)) as H.
  destruct (Cartesian_loop (applications filters items)) as [out r].
  destruct H as (H1 & H2 & H3). split; [exact H1|].
  split; [intros Hr; rewrite (H2 Hr); apply length_applications|].
  split; [exact H3|]. split; [|split; [|reflexivity]].
  { intros ->. destruct (H3 _ eq_refl) as (c & e0 & _ & _ & He). destruct e0; discriminate. }
  intros Hok. destruct r as [[]|e]; [reflexivity|].
  destruct (H3 e eq_refl) as ([f x] & e0 & Hc & Hf & _). cbn [fst snd] in Hf.
  apply list_elem_of_lookup_2, list_elem_of_In in Hc.
  unfold applications in Hc. apply in_flat_map in Hc as (item & Hitem & Hin).
  apply in_map_iff in Hin as (filter & [= <- <-] & Hfilter).
  specialize (Hok _ _ Hfilter Hitem). rewrite Hf in Hok. discriminate.
Qed.

(** [Cartesian] over [Flatten] on an empty item: the [StopIteration] of
    [Flatten] ends the iteration as a [RuntimeError]. *)
Example Cartesian_Flatten_empty :
  Flatten_filter [] = Raise StopIteration
  /\ Cartesian_filter [Flatten_filter] (ManyItems [[VSeq [VInt 1]]; []])
     = ([Flatten_loop [VSeq [VInt 1]]], Raise RuntimeError).
Proof. split; reflexivity. Qed.

(** ** ColEncoder._get_encoder *)

Lemma index_of_Some header headers i :
  index_of header headers = Some i ->
  exists h, header = VStr h /\ headers !! i = Some h
            /\ forall j, (j < i)%nat -> headers !! j <> Some h.
Proof.
  revert i. induction headers as [|h0 headers IH]; intros i; [discriminate|].
  cbn [index_of]. destruct header as [| |s|]; cbn [option_map].
  1,2,4: destruct (index_of _ headers) as [k|] eqn:Hk; [|discriminate];
         destruct (IH k eq_refl) as (h & Hh & _); discriminate Hh.
  destruct (String.eqb_spec s h0) as [->|Hne].
  - intros [= <-]. exists h0. split; [reflexivity|]. split; [reflexivity|]. intros j Hj. lia.
  - destruct (index_of (VStr s) headers) as [k|] eqn:Hk; [|discriminate].
    intros [= <-]. destruct (IH k eq_refl) as (h & [= ->] & Hl & Hfirst).
    exists h. split; [reflexivity|]. split; [exact Hl|].
    intros [|j] Hj; cbn; [congruence|]. apply Hfirst. lia.
Qed.

Lemma index_of_None header headers :
  index_of header headers = None <-> forall h, header = VStr h -> ~ In h headers.
Proof.
  induction headers as [|h0 headers IH]; cbn [index_of].
  - split; [intros _ h _ []|reflexivity].
  - destruct header as [| |s|]; cbn [option_map].
    1,2,4: destruct (index_of _ headers) as [k|] eqn:Hk;
           [destruct (index_of_Some _ _ _ Hk) as (h & Hh & _); discriminate Hh|];
           split; [intros _ h Hh; discriminate Hh|reflexivity].
    destruct (String.eqb_spec s h0) as [->|Hne].
    + split; [discriminate|]. intros H. exfalso. apply (H h0 eq_refl). left. reflexivity.
    + destruct (index_of (VStr s) headers) as [k|] eqn:Hk.
      * split; [discriminate|]. intros H. exfalso.
        destruct (index_of_Some _ _ _ Hk) as (h & [= ->] & Hl & _).
        apply (H h eq_refl). right. apply list_elem_of_In. eapply list_elem_of_lookup_2, Hl.
      * split; [|reflexivity]. intros _ h [= ->] [Hc|Hc]; [congruence|].
        apply (proj1 IH eq_refl h eq_refl Hc).
Qed.

(** X20.  [_get_encoder] never raises [IndexError].  The encoder it returns
    is one of the encoders or the default.  A header found among the first
    headers, as many as there are encoders, gets the encoder at the position
    of its first occurrence; without headers the position of the column
    decides; otherwise the default is used, and with no default the plain
    exception is raised: with headers given the position is never used. *)
Theorem get_encoder_cases {E} (headers : list string) (encoders : list E)
    (default : option E) (index : Z) (header : value) :
  0 <= index ->
  let r := _get_encoder headers encoders default index header in
  r <> Raise IndexError
  /\ (forall encoder, r = Ok encoder -> In encoder encoders \/ default = Some encoder)
  /\ (forall encoder, default = Some encoder -> exists encoder', r = Ok encoder')
  /\ (forall h i, header = VStr h -> (i < length encoders)%nat ->
        headers !! i = Some h -> (forall j, (j < i)%nat -> headers !! j <> Some h) ->
        exists encoder, encoders !! i = Some encoder /\ r = Ok encoder)
  /\ (headers <> [] -> encoders <> [] ->
      (forall h, header = VStr h -> ~ In h (take (length encoders) headers)) ->
      r = match default with Some encoder => Ok encoder | None => Raise EncoderNotFound end)
  /\ (headers = [] -> index < Z.of_nat (length encoders) ->
      exists encoder, encoders !! Z.to_nat index = Some encoder /\ r = Ok encoder).
Proof.
  intros Hindex. cbv zeta. unfold _get_encoder.
  set (encoded_headers := take (length encoders) headers).
  assert (Hlen : (length encoded_headers <= length encoders)%nat).
  { unfold encoded_headers. rewrite length_take. lia. }
  destruct (index_of header encoded_headers) as [i|] eqn:Hi.
  - destruct (index_of_Some _ _ _ Hi) as (h & -> & Hl & Hfirst).
    assert (Hi' : (i < length encoders)%nat).
    { apply lookup_lt_Some in Hl. lia. }
    destruct (lookup_lt_is_Some_2 encoders i Hi') as [encoder He]. rewrite He.
    split; [discriminate|]. split; [|split; [|split; [|split]]].
    + intros e [= <-]. left. apply list_elem_of_In. eapply list_elem_of_lookup_2, He.
    + intros _ _. eauto.
    + intros h' i' [= <-] Hi'' Hl' Hfirst'.
      assert (Hl'' : encoded_headers !! i' = Some h).
      { unfold encoded_headers. rewrite lookup_take_lt by exact Hi''. exact Hl'. }
      assert (i = i').
      { destruct (Nat.lt_trichotomy i i') as [Hlt|[Heq|Hgt]]; [|exact Heq|].
        - exfalso. apply (Hfirst' i Hlt).
          unfold encoded_headers in Hl. rewrite lookup_take_lt in Hl by exact Hi'. exact Hl.
        - exfalso. apply (Hfirst i' Hgt). exact Hl''. }
      subst i'. eauto.
    + intros _ _ Hnot. exfalso. apply (Hnot h eq_refl).
      apply list_elem_of_In. eapply list_elem_of_lookup_2, Hl.
    + intros -> _. unfold encoded_headers in Hl. rewrite take_nil in Hl. discriminate.
  - pose proof (proj1 (index_of_None _ _) Hi) as Hnone.
    destruct (Nat.eqb_spec (length encoded_headers) 0) as [H0|H0]; cbn [andb].
    + destruct (Z.ltb_spec index (Z.of_nat (length encoders))) as [Hlt|Hge].
      * assert (Hn : (Z.to_nat index < length encoders)%nat) by lia.
        assert (Hnn : (index <? 0) = false) by (apply Z.ltb_ge; lia).
        unfold py_getitem. cbv zeta. rewrite Hnn. cbv iota. rewrite Hnn.
        destruct (lookup_lt_is_Some_2 encoders _ Hn) as [encoder He]. rewrite He.
        split; [discriminate|]. split; [|split; [|split; [|split]]].
        -- intros e [= <-]. left. apply list_elem_of_In. eapply list_elem_of_lookup_2, He.
        -- intros _ _. eauto.
        -- intros h i -> Hi' Hl _. exfalso. apply (Hnone h eq_refl).
           apply list_elem_of_In. eapply list_elem_of_lookup_2.
           unfold encoded_headers. rewrite lookup_take_lt by exact Hi'. exact Hl.
        -- intros Hh He' _. exfalso. unfold encoded_headers in H0.
           rewrite length_take in H0. destruct headers; [contradiction|].
           destruct encoders; [contradiction|]. simpl in H0. lia.
        -- intros _ _. eauto.
      * split; [destruct default; discriminate|]. split; [|split; [|split; [|split]]].
        -- intros e He. destruct default; [right; congruence|discriminate].
        -- intros e ->. eauto.
        -- intros h i -> Hi' Hl _. exfalso. apply (Hnone h eq_refl).
           apply list_elem_of_In. eapply list_elem_of_lookup_2.
           unfold encoded_headers. rewrite lookup_take_lt by exact Hi'. exact Hl.
        -- intros _ _ _. reflexivity.
        -- intros _ Hlt. lia.
    + split; [destruct default; discriminate|]. split; [|split; [|split; [|split]]].
      * intros e He. destruct default; [right; congruence|discriminate].
      * intros e ->. eauto.
      * intros h i -> Hi' Hl _. exfalso. apply (Hnone h eq_refl).
        apply list_elem_of_In. eapply list_elem_of_lookup_2.
        unfold encoded_headers. rewrite lookup_take_lt by exact Hi'. exact Hl.
      * intros _ _ _. reflexivity.
      * intros -> _. exfalso. apply H0. unfold encoded_headers. rewrite take_nil. reflexivity.
Qed.

Lemma get_encoder_cases_witness :
  let r := _get_encoder ["a"; "b"; "c"] [10; 20] (@None Z) 2 (VStr "b") in
  r <> Raise IndexError
  /\ (forall encoder, r = Ok encoder -> In encoder [10; 20] \/ @None Z = Some encoder)
  /\ (forall encoder, @None Z = Some encoder -> exists encoder', r = Ok encoder')
  /\ (forall h i, VStr "b" = VStr h -> (i < length [10; 20])%nat ->
        ["a"; "b"; "c"] !! i = Some h ->
        (forall j, (j < i)%nat -> ["a"; "b"; "c"] !! j <> Some h) ->
        exists encoder, [10; 20] !! i = Some encoder /\ r = Ok encoder)
  /\ (["a"; "b"; "c"] <> [] -> [10; 20] <> [] ->
      (forall h, VStr "b" = VStr h -> ~ In h (take (length [10; 20]) ["a"; "b"; "c"])) ->
      r = match @None Z with Some encoder => Ok encoder | None => Raise EncoderNotFound end)
  /\ (["a"; "b"; "c"] = [] -> 2 < Z.of_nat (length [10; 20]) ->
      exists encoder, [10; 20] !! Z.to_nat 2 = Some encoder /\ r = Ok encoder).
Proof.
  apply (get_encoder_cases ["a"; "b"; "c"] [10; 20] None 2 (VStr "b")). lia.
Defined.



(** ** Flatten *)

(** Induction on a value and on the values inside it. *)
Lemma value_nested_ind (P : value -> Prop) :
  P VNone -> (forall z, P (VInt z)) -> (forall s, P (VStr s)) ->
  (forall items, Forall P items -> P (VSeq items)) ->
  forall v, P v.
Proof.
  intros HN HI HS HQ. fix IH 1. intros [| z | s | items].
  - exact HN.
  - apply HI.
  - apply HS.
  - apply HQ. induction items as [|i items IHitems]; constructor.
    + apply IH.
    + exact IHitems.
Qed.

Lemma _flat_VSeq items : _flat (VSeq items) = sum_flat items.
Proof.
  cbn [_flat]. induction items as [|i items IH]; [reflexivity|].
  cbn [sum_flat]. rewrite <- IH. reflexivity.
Qed.

Lemma sum_flat_atoms l : Forall is_atom l -> sum_flat l = Ok l.
Proof.
  induction 1 as [|x l Hx Hl IH]; [reflexivity|].
  cbn [sum_flat]. rewrite IH. destruct x; try contradiction; reflexivity.
Qed.

Lemma sum_flat_app l1 l2 :
  sum_flat (l1 ++ l2)
  = match sum_flat l1 with
    | Raise e => Raise e
    | Ok r1 => match sum_flat l2 with
               | Raise e => Raise e
               | Ok r2 => Ok (r1 ++ r2)
               end
    end.
Proof.
  induction l1 as [|x l1 IH]; cbn [app sum_flat].
  - destruct (sum_flat l2); reflexivity.
  - destruct (_flat x) as [lx|e]; [|reflexivity]. rewrite IH.
    destruct (sum_flat l1) as [r1|e]; [|reflexivity].
    destruct (sum_flat l2) as [r2|e]; [|reflexivity].
    rewrite app_assoc. reflexivity.
Qed.

Lemma _flat_result v :
  match _flat v with
  | Ok l => Forall is_atom l
  | Raise e => e = RecursionError
  end.
Proof.
  induction v as [| z | s | items IH] using value_nested_ind.
  - repeat constructor.
  - repeat constructor.
  - destruct s; [constructor|reflexivity].
  - rewrite _flat_VSeq. induction IH as [|i items Hi _ IH]; [constructor|].
    cbn [sum_flat]. destruct (_flat i) as [l|e]; [|exact Hi].
    destruct (sum_flat items) as [l'|e]; [|exact IH].
    apply Forall_app. split; assumption.
Qed.

(** X21.  [_flat] gives the cells of a nested sequence from left to right,
    none of them a sequence, and is the identity on a list of such cells,
    so flattening twice is flattening once; it distributes over joining and
    nesting.  A string that is not empty anywhere in the value makes it fail
    with [RecursionError], the only exception it raises. *)
Theorem flat_flattens (item : value) :
  (forall l, _flat item = Ok l -> Forall is_atom l /\ _flat (VSeq l) = Ok l)
  /\ (forall e, _flat item = Raise e -> e = RecursionError)
  /\ (forall l, Forall is_atom l -> _flat (VSeq l) = Ok l)
  /\ (forall l1 l2 r1 r2, _flat (VSeq l1) = Ok r1 -> _flat (VSeq l2) = Ok r2 ->
        _flat (VSeq (l1 ++ l2)) = Ok (r1 ++ r2)
        /\ _flat (VSeq [VSeq l1; VSeq l2]) = Ok (r1 ++ r2))
  /\ (forall a s items, In (VStr (String a s)) items ->
        _flat (VSeq items) = Raise RecursionError).
Proof.
  pose proof (_flat_result item) as H.
  split; [|split; [|split; [|split]]].
  - intros l Hl. rewrite Hl in H. split; [exact H|].
    rewrite _flat_VSeq. apply sum_flat_atoms, H.
  - intros e He. rewrite He in H. exact H.
  - intros l Hl. rewrite _flat_VSeq. apply sum_flat_atoms, Hl.
  - intros l1 l2 r1 r2 H1 H2. rewrite !_flat_VSeq in *. split.
    + rewrite sum_flat_app, H1, H2. reflexivity.
    + cbn [sum_flat]. rewrite !_flat_VSeq, H1, H2, app_nil_r. reflexivity.
  - intros a s items Hin. rewrite _flat_VSeq.
    induction items as [|i items IH]; [contradiction|].
    cbn [sum_flat]. destruct Hin as [->|Hin]; [reflexivity|].
    pose proof (_flat_result i) as Hi. destruct (_flat i) as [l|e]; [|congruence].
    rewrite (IH Hin). reflexivity.
Qed.


Lemma Flatten_loop_atoms rows :
  Forall (Forall is_atom) rows ->
  Flatten_loop (map VSeq rows) = (map VSeq rows, Ok tt).
Proof.
  induction 1 as [|row rows Hrow _ IH]; [reflexivity|].
  cbn [map Flatten_loop]. rewrite _flat_VSeq, (sum_flat_atoms _ Hrow), IH. reflexivity.
Qed.

Lemma Flatten_loop_spec items :
  let '(out, r) := Flatten_loop items in
  Forall2 (fun item flat => exists l, _flat item = Ok l /\ flat = VSeq l)
    (take (length out) items) out
  /\ (r = Ok tt -> length out = length items)
  /\ (forall e, r = Raise e ->
        e = RecursionError
        /\ exists item, items !! length out = Some item /\ _flat item = Raise e).
Proof.
  induction items as [|item items IH]; cbn [Flatten_loop].
  - split; [constructor|]. split; [reflexivity|discriminate].
  - pose proof (_flat_result item) as Hres.
    destruct (_flat item) as [l|e] eqn:Hf.
    + destruct (Flatten_loop items) as [out r]. destruct IH as (H1 & H2 & H3).
      cbn [length take]. split; [constructor; eauto|].
      split; [intros Hr; rewrite (H2 Hr); reflexivity|]. exact H3.
    + cbn [length take]. split; [constructor|]. split; [discriminate|].
      intros e' [= <-]. split; [exact Hres|]. exists item. split; [reflexivity|exact Hf].
Qed.

(** X22.  [Flatten] raises [StopIteration] on no items.  Items whose first
    is a pair of sequences are taken for sparse data and returned as they
    are, also when they are rows of two nested cells.  Otherwise every item
    is flattened, lazily, up to the first that fails.  Rows of cells that
    are not sequences come back unchanged. *)
Theorem Flatten_filter_cases (items : list value) :
  (items = [] -> Flatten_filter items = Raise StopIteration)
  /\ (forall first second rest,
        is_sequence first = true -> is_sequence second = true ->
        items = VSeq [first; second] :: rest ->
        Flatten_filter items = Ok (items, Ok tt))
  /\ (forall cells rest,
        items = VSeq cells :: rest ->
        length cells <> 2%nat \/ Exists is_atom cells ->
        exists out r,
          Flatten_filter items = Ok (out, r)
          /\ Forall2 (fun item flat => exists l, _flat item = Ok l /\ flat = VSeq l)
               (take (length out) items) out
          /\ (r = Ok tt -> length out = length items)
          /\ (forall e, r = Raise e ->
                e = RecursionError
                /\ exists item, items !! length out = Some item /\ _flat item = Raise e))
  /\ (forall rows,
        items = map VSeq rows -> Forall (Forall is_atom) rows -> rows <> [] ->
        Flatten_filter items = Ok (items, Ok tt)).
Proof.
  split; [|split; [|split]].
  - intros ->. reflexivity.
  - intros first second rest H1 H2 ->. unfold Flatten_filter. cbn [_is_dense length forallb].
    rewrite H1, H2. reflexivity.
  - intros cells rest -> Hshape.
    assert (Hd : _is_dense (VSeq cells :: rest) = Ok true).
    { cbn [_is_dense]. f_equal. destruct Hshape as [Hl|Ha].
      - destruct (Nat.eqb_spec (length cells) 2); [contradiction|reflexivity].
      - assert (forallb is_sequence cells = false).
        { apply Exists_exists in Ha as (c & Hc & Hat). apply not_true_is_false. intros Hall.
          rewrite forallb_forall in Hall. apply list_elem_of_In in Hc.
          specialize (Hall c Hc). destruct c; try discriminate; contradiction. }
        rewrite H. apply orb_true_r. }
    unfold Flatten_filter. rewrite Hd.
    pose proof (Flatten_loop_spec (VSeq cells :: rest)) as H.
    destruct (Flatten_loop (VSeq cells :: rest)) as [out r].
    exists out, r. split; [reflexivity|exact H].
  - intros rows -> Hatoms Hne. unfold Flatten_filter.
    pose proof (Flatten_loop_atoms rows Hatoms) as HF.
    destruct rows as [|row rows]; [contradiction|]. cbn [map _is_dense] in *.
    destruct (negb (Nat.eqb (length row) 2) || negb (forallb is_sequence row));
      [rewrite HF|]; reflexivity.
Qed.

(** * Initialisation and the order of evaluation *)

(** ** A learner without [init] *)

(** An adapter and the adapter with another [init] stay in step through the
    calls of an evaluation. *)
Section WithInit.

Variable L : Learner.
Variable f : LState L -> result unit * LState L.

Lemma choose_patched s g k c acts :
  exists r s' g', choose (adapter_at L s g) k c acts = (r, adapter_at L s' g')
                  /\ choose (patched_at L f s g) k c acts = (r, patched_at L f s' g').
Proof.
  unfold choose, predict, patched_at, with_init, adapter_at, set_learner. simpl.
  destruct (learner_predict L s k c acts) as [[p|e] s1]; simpl.
  - destruct (valid_probabilities p).
    + destruct (rng_choice g (rng_state g) (combine acts p) p) as [r g'].
      exists r, s1, (with_rng g g'). split; reflexivity.
    + exists (Raise AssertionError), s1, g. split; reflexivity.
  - exists (Raise e), s1, g. split; reflexivity.
Qed.

Lemma learn_patched s g k c a w p :
  exists r s', learn (adapter_at L s g) k c a w p = (r, adapter_at L s' g)
               /\ learn (patched_at L f s g) k c a w p = (r, patched_at L f s' g).
Proof.
  unfold learn, patched_at, with_init, adapter_at, set_learner. simpl.
  destruct (learner_learn L s k c a w p) as [r s'].
  exists r, s'. split; reflexivity.
Qed.

Lemma choose_loop_patched batch : forall s g,
  exists tr s' g' r, choose_loop (adapter_at L s g) batch = (tr, adapter_at L s' g', r)
                     /\ choose_loop (patched_at L f s g) batch = (tr, patched_at L f s' g', r).
Proof.
  induction batch as [|i batch IH]; intros s g; cbn [choose_loop]; [eauto 7|].
  destruct (choose_patched s g (key i) (context i) (actions i)) as (r & s1 & g1 & -> & ->).
  destruct r as [[a p]|e]; [|eauto 7].
  destruct (IH s1 g1) as (tr & s2 & g2 & r & -> & ->). eauto 7.
Qed.

Lemma learn_loop_patched items : forall s g,
  exists tr s' r, learn_loop (adapter_at L s g) items = (tr, adapter_at L s' g, r)
                  /\ learn_loop (patched_at L f s g) items = (tr, patched_at L f s' g, r).
Proof.
  induction items as [|[c w] items IH]; intros s g; cbn [learn_loop]; [eauto 6|].
  destruct (learn_patched s g (ch_key c) (ch_context c) (ch_action c) w (ch_prob c))
    as (r & s1 & -> & ->).
  destruct r as [[]|e]; [|eauto 6].
  destruct (IH s1 g) as (tr & s2 & r & -> & ->). eauto 6.
Qed.

Lemma process_batch_patched batch rwd s g :
  exists tr s' g' r, process_batch batch (adapter_at L s g) rwd = (tr, adapter_at L s' g', r)
                     /\ process_batch batch (patched_at L f s g) rwd = (tr, patched_at L f s' g', r).
Proof.
  unfold process_batch.
  destruct (choose_loop_patched batch s g) as (tr1 & s1 & g1 & r1 & -> & ->).
  destruct r1 as [choices|e]; [|eauto 7].
  destruct (observe rwd (map triple choices)) as [rewards|e]; [|eauto 7].
  destruct (learn_loop_patched (combine choices rewards) s1 g1) as (tr2 & s2 & r2 & -> & ->).
  destruct r2 as [[]|e]; eauto 7.
Qed.

Lemma process_batches_patched bs rwd : forall s g,
  exists tr s' g' r, process_batches bs (adapter_at L s g) rwd = (tr, adapter_at L s' g', r)
                     /\ process_batches bs (patched_at L f s g) rwd = (tr, patched_at L f s' g', r).
Proof.
  induction bs as [|batch bs IH]; intros s g; cbn [process_batches]; [eauto 7|].
  destruct (process_batch_patched batch rwd s g) as (tr & s1 & g1 & r & -> & ->).
  destruct r as [m|e]; [|eauto 7].
  destruct (IH s1 g1) as (tr' & s2 & g2 & r' & -> & ->). eauto 7.
Qed.

End WithInit.

(** X23.  The adapter's [init] swallows an [AttributeError] of the learner's
    [init], whether the learner has no such method or the method raises it:
    the evaluation then goes on exactly as for a learner whose [init]
    returns, from the state the call left.  Any other exception of [init]
    ends the evaluation at once, before the batch statistics and before any
    call of the learner. *)
Theorem missing_init_is_no_init sim lrn (l : BenchmarkTaskLearner) s bs :
  (forall st,
     learner_init (_learner l) (learner_state (_learner l)) = (Raise AttributeError, st) ->
     fst (init l) = Ok tt
     /\ evaluate sim lrn l s bs
        = evaluate sim lrn (with_init l (fun _ => (Ok tt, st))) s bs)
  /\ (forall e st,
        learner_init (_learner l) (learner_state (_learner l)) = (Raise e, st) ->
        e <> AttributeError ->
        evaluate sim lrn l s bs = ([EvInit sim lrn (Raise e)], Raise e)).
Proof.
  destruct l as [L g]. split.
  - intros st Hinit. cbn [_learner] in Hinit. unfold init. cbn [_learner].
    rewrite Hinit. cbn [is_AttributeError fst]. split; [reflexivity|].
    unfold evaluate, init. cbn [_learner with_init learner_init learner_state]. rewrite Hinit.
    cbn [is_AttributeError].
    destruct (result_map _ bs) as [cs|e]; [|reflexivity].
    destruct (result_map _ bs) as [acs|e]; [|reflexivity].
    destruct (process_batches_patched L (fun _ => (Ok tt, st)) bs (reward s) st g)
      as (tr & s' & g' & r & H1 & H2).
    unfold adapter_at, patched_at, with_init, set_learner, with_state in *. cbn in H1, H2 |- *.
    rewrite H1, H2. reflexivity.
  - intros e st Hinit Hne. unfold evaluate, init. rewrite Hinit.
    destruct e; try reflexivity. contradiction.
Qed.

(** ** The simulations a run creates *)

Lemma creations_app tr1 tr2 : creations (tr1 ++ tr2) = creations tr1 ++ creations tr2.
Proof. unfold creations. apply flat_map_app. Qed.

Lemma creations_evaluate sim lrn l s bs : creations (fst (evaluate sim lrn l s bs)) = [].
Proof.
  unfold evaluate. destruct (init l) as [[[]|e] l0]; [|reflexivity].
  destruct (result_map _ bs) as [cs|e]; [|reflexivity].
  destruct (result_map _ bs) as [acs|e]; [|reflexivity].
  destruct (process_batches bs l0 (reward s)) as [[tr l1] [ms|e]];
    unfold creations; simpl; apply flat_map_map_nil; reflexivity.
Qed.

Lemma creations_run_learners ignore_raise sim s bs queue :
  creations (fst (fst (run_learners ignore_raise sim s bs queue))) = [].
Proof.
  induction queue as [|[lrn l] queue IH]; cbn [run_learners]; [reflexivity|].
  pose proof (creations_evaluate sim lrn l s bs) as He.
  destruct (evaluate sim lrn l s bs) as [tr [t|e]]; cbn [fst] in He.
  - destruct (run_learners _ _ _ _ queue) as [[tr' r'] rest]. cbn [fst] in *.
    rewrite creations_app, He. exact IH.
  - destruct (is_Exception e); [destruct ignore_raise|]; cbn [fst].
    + destruct (run_learners _ _ _ _ queue) as [[tr' r'] rest]. cbn [fst] in *.
      rewrite creations_app, He. exact IH.
    + rewrite creations_app, He. reflexivity.
    + exact He.
Qed.

Lemma creations_simulations_loop ignore_raise src loaded groups :
  exists rest,
    map (fun g => (src, fst (fst g))) groups
    = creations (fst (simulations_loop ignore_raise src loaded groups)) ++ rest
    /\ (snd (simulations_loop ignore_raise src loaded groups) = Ok tt -> rest = []).
Proof.
  induction groups as [|[[sim handle] ts] groups (rest & IH & IHr)]; cbn [simulations_loop].
  - exists []. split; reflexivity.
  - cbn [map fst]. destruct (apply_filter (filter_of handle) loaded) as [s|e].
    2:{ cbn [fst snd]. eexists. split; [reflexivity|discriminate]. }
    destruct (batchify s) as [|b bs].
    + destruct (simulations_loop _ _ _ groups) as [tr' r']. cbn [fst snd] in *.
      exists rest. rewrite IH. split; [reflexivity|exact IHr].
    + rewrite learners_loop_combine by (rewrite !length_map; reflexivity).
      pose proof (creations_run_learners ignore_raise sim s (b :: bs)
                    (rev (combine (map lrn_id ts) (map learner ts)))) as Hl.
      destruct (run_learners _ _ _ _ _) as [[tr r] rest']. cbn [fst] in Hl.
      destruct r as [[]|e].
      * destruct (simulations_loop _ _ _ groups) as [tr' r']. cbn [fst snd] in *.
        exists rest. rewrite IH.
        change (creations (EvCreateSimulation sim src :: tr ++ tr'))
          with ((src, sim) :: creations (tr ++ tr')).
        rewrite creations_app, Hl. split; [reflexivity|exact IHr].
      * cbn [fst snd]. eexists.
        change (creations (EvCreateSimulation sim src :: tr))
          with ((src, sim) :: creations tr).
        rewrite Hl. split; [reflexivity|discriminate].
Qed.

Lemma creations_sources_loop ignore_raise groups :
  exists rest,
    flat_map (fun kg => map (fun g => (fst (fst kg), fst (fst g))) (simulations_of (snd kg)))
      groups
    = creations (fst (sources_loop ignore_raise groups)) ++ rest.
Proof.
  induction groups as [|[[src o] ts] groups [rest IH]]; cbn [sources_loop].
  - exists []. reflexivity.
  - cbn [flat_map fst snd]. destruct (source_read o) as [loaded|e].
    2:{ cbn [fst]. eexists. reflexivity. }
    fold (simulations_of ts).
    destruct (creations_simulations_loop ignore_raise src loaded (simulations_of ts))
      as (rest' & Hs & Hr).
    destruct (simulations_loop _ _ _ _) as [tr r]. cbn [fst snd] in Hs, Hr.
    destruct r as [[]|e].
    + destruct (sources_loop _ groups) as [tr' r']. cbn [fst] in *.
      change (creations (EvLoadSource src (source_obj o) :: tr ++ tr'))
        with (creations (tr ++ tr')).
      rewrite creations_app, Hs, (Hr eq_refl), app_nil_r, IH, app_assoc.
      exists rest. reflexivity.
    + cbn [fst].
      change (creations (EvLoadSource src (source_obj o) :: tr)) with (creations tr).
      rewrite Hs, <- app_assoc. eexists. reflexivity.
Qed.

(** The keys of the runs of a list in ascending order ascend. *)
Lemma groupby_keys_ascending {A K} (key : A -> K) eqb (f : K -> Z) l :
  StronglySorted (fun a b => f (key a) <= f (key b)) l ->
  StronglySorted (fun k1 k2 => f k1 <= f k2) (map fst (groupby key eqb l))
  /\ Forall (fun kg => exists x, In x l /\ fst kg = key x) (groupby key eqb l).
Proof.
  induction 1 as [|x l Hl IH Hx]; [split; constructor|].
  destruct IH as [IHs IHk]. cbn [groupby].
  assert (Hk' : Forall (fun kg => exists y, In y (x :: l) /\ fst kg = key y)
                  (groupby key eqb l)).
  { eapply Forall_impl; [exact IHk|]. intros kg (y & Hy & Hkg). exists y.
    split; [right; exact Hy|exact Hkg]. }
  assert (Hle : Forall (fun k => f (key x) <= f k) (map fst (groupby key eqb l))).
  { apply Forall_map. eapply Forall_impl; [exact IHk|]. intros kg (y & Hy & ->).
    rewrite Forall_forall in Hx. apply Hx, list_elem_of_In, Hy. }
  destruct (groupby key eqb l) as [|[k g] gs].
  - split; [repeat constructor|]. constructor; [|constructor].
    exists x. split; [left|]; reflexivity.
  - cbn [map fst] in *. inversion IHs; subst. inversion Hle; subst.
    inversion Hk'; subst.
    destruct (eqb (key x) k); cbn [map fst].
    + split.
      * constructor; [assumption|]. assumption.
      * constructor; [|assumption]. exists x. split; [left|]; reflexivity.
    + split.
      * constructor; [constructor; assumption|]. constructor; assumption.
      * constructor; [|constructor; assumption]. exists x. split; [left|]; reflexivity.
Qed.

Lemma StronglySorted_app_r {A} (R : A -> A -> Prop) l1 l2 :
  StronglySorted R (l1 ++ l2) -> StronglySorted R l2.
Proof.
  induction l1 as [|x l1 IH]; intros H; [exact H|].
  inversion H; subst. apply IH. assumption.
Qed.

Lemma StronglySorted_app_intro {A} (R : A -> A -> Prop) l1 l2 :
  StronglySorted R l1 -> StronglySorted R l2 ->
  (forall a b, In a l1 -> In b l2 -> R a b) ->
  StronglySorted R (l1 ++ l2).
Proof.
  induction 1 as [|x l1 Hl IH Hx]; intros H2 H12; [exact H2|].
  cbn [app]. constructor.
  - apply IH; [exact H2|]. intros a b Ha Hb. apply H12; [right; exact Ha|exact Hb].
  - apply Forall_app. split; [exact Hx|].
    apply Forall_forall. intros b Hb. apply H12; [left; reflexivity|].
    apply list_elem_of_In. exact Hb.
Qed.

Lemma simulations_of_ascending src ts :
  StronglySorted pair_le (map (fun g => (src, fst (fst g))) (simulations_of ts)).
Proof.
  destruct (groupby_keys_ascending (fun t => (sim_id t, simulation t)) grp_sim_eqb
              (fun k : Z * BenchmarkTaskSimulation => fst k)
              (sorted sim_id ts) (sorted_ordered sim_id ts)) as [Hs _].
  fold (simulations_of ts) in Hs. revert Hs.
  generalize (simulations_of ts). intros G HG.
  induction G as [|g G IH]; [constructor|].
  cbn [map] in *. inversion HG; subst. constructor; [apply IH; assumption|].
  apply Forall_map. rewrite Forall_map in H2. eapply Forall_impl; [exact H2|].
  intros g' Hle. right. split; [reflexivity|exact Hle].
Qed.

Lemma creations_in_order (groups : list ((Z * Source) * list BenchmarkTask)) :
  StronglySorted Z.lt (map (fun kg => fst (fst kg)) groups) ->
  StronglySorted pair_le
    (flat_map (fun kg => map (fun g => (fst (fst kg), fst (fst g))) (simulations_of (snd kg)))
       groups).
Proof.
  induction groups as [|kg groups IH]; intros Hs; [constructor|].
  cbn [map flat_map] in *. inversion Hs; subst.
  apply StronglySorted_app_intro.
  - apply simulations_of_ascending.
  - apply IH. assumption.
  - intros a b Ha Hb. apply in_map_iff in Ha as (g & <- & _).
    apply in_flat_map in Hb as (kg' & Hkg' & Hb). apply in_map_iff in Hb as (g' & <- & _).
    left. cbn [fst]. rewrite Forall_forall in H2. apply H2.
    apply list_elem_of_In, in_map_iff. exists kg'. split; [reflexivity|exact Hkg'].
Qed.

(** X24.  For tasks of one reading of the task generator, in any order and
    grouping, the engine creates the simulations in ascending order of the
    source id and, within a source, of the simulation id; and every
    simulation it creates is the simulation of a task it was given, created
    for the source id of that task. *)
Theorem simulations_created_in_order new sims lrns seed obj ignore_raise task_groups :
  (forall t, In t (concat task_groups) -> In t (Tasks_read new sims lrns seed obj)) ->
  let tr := fst (Transactions_filter ignore_raise task_groups) in
  StronglySorted pair_le (creations tr)
  /\ forall src sim, In (src, sim) (creations tr) ->
       exists t, In t (concat task_groups) /\ src_id t = src /\ sim_id t = sim.
Proof.
  intros Hsub. cbv zeta. unfold Transactions_filter.
  set (tasks := concat task_groups) in *.
  assert (Hf : src_ids_faithful (sorted src_id tasks)).
  { intros t1 t2 H1 H2. apply In_sorted in H1, H2.
    apply (Tasks_read_src_ids_faithful new sims lrns seed obj); auto. }
  destruct (sources_of_keys _ (sorted_ordered src_id tasks) Hf) as (Hs & Hall & _).
  cbv zeta in Hs, Hall. fold (sources_of tasks) in Hs, Hall.
  assert (Hcr : exists rest,
             flat_map (fun kg => map (fun g => (fst (fst kg), fst (fst g)))
                                   (simulations_of (snd kg))) (sources_of tasks)
             = creations (fst (process_group ignore_raise tasks)) ++ rest).
  { unfold process_group. fold (sources_of tasks).
    destruct (creations_sources_loop ignore_raise (sources_of tasks)) as [rest Hrest].
    destruct (sources_loop _ _) as [tr r]. cbn [fst] in Hrest.
    destruct r as [[]|e]; [exists rest; exact Hrest|].
    destruct (is_Exception e); cbn [fst]; [|exists rest; exact Hrest].
    rewrite creations_app. cbn [creations flat_map]. rewrite app_nil_r.
    exists rest. exact Hrest. }
  destruct Hcr as [rest Hcr]. split.
  - pose proof (creations_in_order _ Hs) as Hord. rewrite Hcr in Hord.
    eapply StronglySorted_app_l, Hord.
  - intros src sim Hin.
    assert (Hin' : In (src, sim)
                     (flat_map (fun kg => map (fun g => (fst (fst kg), fst (fst g)))
                                            (simulations_of (snd kg))) (sources_of tasks))).
    { rewrite Hcr. apply in_or_app. left. exact Hin. }
    apply in_flat_map in Hin' as (kg & Hkg & Hg).
    apply in_map_iff in Hg as (g & [= <- <-] & Hg).
    destruct (groupby_keys_ascending (fun t => (sim_id t, simulation t)) grp_sim_eqb
              (fun k : Z * BenchmarkTaskSimulation => fst k)
                (sorted sim_id (snd kg)) (sorted_ordered sim_id (snd kg))) as [_ Hk].
    fold (simulations_of (snd kg)) in Hk. rewrite Forall_forall in Hk.
    destruct (Hk g (proj2 (list_elem_of_In _ _) Hg)) as (t & Ht & Hkey).
    apply In_sorted in Ht.
    pose proof (groupby_groups (fun t => (src_id t, source (simulation t))) grp_src_eqb
                  (fun k => (fst k, source_obj (snd k))) (sorted src_id tasks)
                  grp_src_eqb_spec) as Hgg.
    fold (sources_of tasks) in Hgg. rewrite Forall_forall in Hgg.
    destruct (Hgg kg (proj2 (list_elem_of_In _ _) Hkg)) as [_ Hmem].
    specialize (Hmem t Ht). cbn [fst snd] in Hmem. injection Hmem as Hsrc _.
    exists t. split; [|split].
    + destruct kg as [k ts]. cbn [snd] in *.
      apply (In_sorted src_id). eapply In_groupby; [exact Hkg|exact Ht].
    + exact Hsrc.
    + rewrite Hkey. reflexivity.
Qed.

Lemma simulations_created_in_order_witness :
  let tr := fst (Transactions_filter true (GroupBySource_filter example_tasks)) in
  StronglySorted pair_le (creations tr)
  /\ forall src sim, In (src, sim) (creations tr) ->
       exists t, In t (concat (GroupBySource_filter example_tasks))
                 /\ src_id t = src /\ sim_id t = sim.
Proof.
  apply (simulations_created_in_order first_choice
           [SourceFilters source_X take_1; PlainSource source_Y;
            SourceFilters source_X IdentityFilter]
           [even_learner] None 100%nat true (GroupBySource_filter example_tasks)).
  intros t Ht. vm_compute in Ht. vm_compute. tauto.
Defined.

(** ** Tasks in the order of the task generator *)

(** *** The order of the attempts *)

Lemma attempted_app tr1 tr2 : attempted (tr1 ++ tr2) = attempted tr1 ++ attempted tr2.
Proof. unfold attempted. apply flat_map_app. Qed.

Lemma attempted_run_learners_sublist ignore_raise sim s bs queue :
  attempted (fst (fst (run_learners ignore_raise sim s bs queue)))
  `sublist_of` map (fun q => (sim, fst q)) queue.
Proof.
  induction queue as [|[lrn l] queue IH]; cbn [run_learners]; [constructor|].
  pose proof (attempted_evaluate sim lrn l s bs) as He.
  destruct (evaluate sim lrn l s bs) as [tr [t|e]]; cbn [fst] in He.
  - destruct (run_learners _ _ _ _ queue) as [[tr' r'] rest]. cbn [fst map] in *.
    rewrite attempted_app, He. cbn [app attempted flat_map]. apply sublist_skip. exact IH.
  - destruct (is_Exception e); [destruct ignore_raise|]; cbn [fst map].
    + destruct (run_learners _ _ _ _ queue) as [[tr' r'] rest]. cbn [fst] in *.
      rewrite attempted_app, He. cbn [app attempted flat_map]. apply sublist_skip. exact IH.
    + rewrite attempted_app, He. cbn [app attempted flat_map].
      apply sublist_skip, sublist_nil_l.
    + rewrite He. apply sublist_skip, sublist_nil_l.
Qed.

Lemma attempted_simulations_loop_sublist ignore_raise src loaded groups :
  attempted (fst (simulations_loop ignore_raise src loaded groups))
  `sublist_of` flat_map (fun g => rev (map (fun t => (fst (fst g), lrn_id t)) (snd g)))
                 groups.
Proof.
  induction groups as [|[[sim handle] ts] groups IH]; cbn [simulations_loop]; [constructor|].
  cbn [flat_map fst snd].
  destruct (apply_filter (filter_of handle) loaded) as [s|e]; [|apply sublist_nil_l].
  destruct (batchify s) as [|b bs].
  - destruct (simulations_loop _ _ _ groups) as [tr' r']. cbn [fst] in *.
    apply sublist_inserts_l. exact IH.
  - rewrite learners_loop_combine by (rewrite !length_map; reflexivity).
    pose proof (attempted_run_learners_sublist ignore_raise sim s (b :: bs)
                  (rev (combine (map lrn_id ts) (map learner ts)))) as Hl.
    rewrite map_rev, <- (map_map fst (fun lrn => (sim, lrn))),
      map_fst_combine_eq, map_map in Hl by (rewrite !length_map; reflexivity).
    destruct (run_learners _ _ _ _ _) as [[tr r] rest]. cbn [fst] in Hl.
    destruct r as [[]|e].
    + destruct (simulations_loop _ _ _ groups) as [tr' r']. cbn [fst] in *.
      change (attempted (EvCreateSimulation sim src :: tr ++ tr'))
        with (attempted (tr ++ tr')).
      rewrite attempted_app. apply sublist_app; assumption.
    + cbn [fst]. change (attempted (EvCreateSimulation sim src :: tr)) with (attempted tr).
      apply sublist_inserts_r. exact Hl.
Qed.

Lemma attempted_sources_loop_sublist ignore_raise groups :
  attempted (fst (sources_loop ignore_raise groups))
  `sublist_of` flat_map (fun kg =>
                 flat_map (fun g => rev (map (fun t => (fst (fst g), lrn_id t)) (snd g)))
                   (simulations_of (snd kg))) groups.
Proof.
  induction groups as [|[[src o] ts] groups IH]; cbn [sources_loop]; [constructor|].
  cbn [flat_map snd].
  destruct (source_read o) as [loaded|e]; [|apply sublist_nil_l].
  fold (simulations_of ts).
  pose proof (attempted_simulations_loop_sublist ignore_raise src loaded (simulations_of ts))
    as Hs.
  destruct (simulations_loop _ _ _ _) as [tr r]. cbn [fst] in Hs.
  destruct r as [[]|e].
  - destruct (sources_loop _ groups) as [tr' r']. cbn [fst] in *.
    change (attempted (EvLoadSource src (source_obj o) :: tr ++ tr'))
      with (attempted (tr ++ tr')).
    rewrite attempted_app. apply sublist_app; assumption.
  - cbn [fst]. change (attempted (EvLoadSource src (source_obj o) :: tr)) with (attempted tr).
    apply sublist_inserts_r. exact Hs.
Qed.

Lemma attempted_in_attempt_order ignore_raise tasks :
  attempted (fst (process_group ignore_raise tasks)) `sublist_of` attempt_order tasks.
Proof.
  unfold process_group, attempt_order. fold (sources_of tasks).
  pose proof (attempted_sources_loop_sublist ignore_raise (sources_of tasks)) as H.
  destruct (sources_loop _ _) as [tr r]. cbn [fst] in H.
  destruct r as [[]|e]; [exact H|].
  destruct (is_Exception e); cbn [fst]; [|exact H].
  rewrite attempted_app. cbn [attempted flat_map]. rewrite app_nil_r. exact H.
Qed.

(** *** The tasks of the task generator *)

Lemma Tasks_loop_wrappers new seed pairs : forall d obj,
  map (fun t => wrapper_obj (simulation t)) (Tasks_loop new pairs d obj seed)
  = seq obj (length pairs).
Proof.
  induction pairs as [|[[sim_id sim] [lrn_id lrn]] pairs IH]; intros d obj; [reflexivity|].
  cbn [Tasks_loop]. destruct (SourceIds_get d _) as [sid d'].
  cbn [map length seq]. rewrite IH. reflexivity.
Qed.

Lemma StronglySorted_map {A B} (R : B -> B -> Prop) (g : A -> B) l :
  StronglySorted R (map g l) <-> StronglySorted (fun a b => R (g a) (g b)) l.
Proof.
  induction l as [|x l IH]; [split; constructor|]. cbn [map]. split.
  - intros H. inversion H; subst. constructor; [apply IH; assumption|].
    rewrite Forall_map in H3. exact H3.
  - intros H. inversion H; subst. constructor; [apply IH; assumption|].
    apply Forall_map. assumption.
Qed.

Lemma StronglySorted_sublist {A} (R : A -> A -> Prop) l1 l2 :
  l1 `sublist_of` l2 -> StronglySorted R l2 -> StronglySorted R l1.
Proof.
  induction 1 as [|x l1 l2 Hsub IH|x l1 l2 Hsub IH]; intros H2.
  - constructor.
  - inversion H2; subst. constructor; [apply IH; assumption|].
    rewrite Forall_forall in H3 |- *. intros y Hy. apply H3.
    eapply elem_of_sublist; [exact Hy|exact Hsub].
  - inversion H2; subst. apply IH. assumption.
Qed.

Lemma enumerate_from_sorted {A} (l : list A) : forall n,
  StronglySorted (fun p q => fst p < fst q) (combine (map Z.of_nat (seq n (length l))) l)
  /\ Forall (fun p => Z.of_nat n <= fst p) (combine (map Z.of_nat (seq n (length l))) l).
Proof.
  induction l as [|x l IH]; intros n; [split; constructor|].
  cbn [length seq map combine]. destruct (IH (S n)) as [Hs Hn]. split.
  - constructor; [exact Hs|]. eapply Forall_impl; [exact Hn|].
    intros p Hp. cbn beta in Hp. cbn [fst]. lia.
  - constructor; [cbn [fst]; lia|]. eapply Forall_impl; [exact Hn|].
    intros p Hp. cbn beta in Hp |- *. lia.
Qed.

Lemma product_sorted {A B} (l1 : list (Z * A)) (l2 : list (Z * B)) :
  StronglySorted (fun p q => fst p < fst q) l1 ->
  StronglySorted (fun p q => fst p < fst q) l2 ->
  StronglySorted (fun p q => fst (fst p) < fst (fst q)
                             \/ (fst (fst p) = fst (fst q) /\ fst (snd p) < fst (snd q)))
    (product l1 l2).
Proof.
  intros H1 H2. unfold product. induction H1 as [|a l1 Hl IH Ha]; [constructor|].
  cbn [flat_map]. apply StronglySorted_app_intro.
  - apply StronglySorted_map. cbn [fst snd].
    eapply StronglySorted_sublist; [reflexivity|].
    clear -H2. induction H2 as [|b l2 Hl IH Hb]; constructor; [exact IH|].
    eapply Forall_impl; [exact Hb|]. intros c Hc. right. split; [reflexivity|exact Hc].
  - exact IH.
  - intros p q Hp Hq. apply in_map_iff in Hp as (b & <- & _).
    apply in_flat_map in Hq as (a' & Ha' & Hq). apply in_map_iff in Hq as (b' & <- & _).
    left. cbn [fst]. rewrite Forall_forall in Ha. apply Ha, list_elem_of_In, Ha'.
Qed.

Lemma Tasks_read_ordered new sims lrns seed obj :
  StronglySorted ids_lt (Tasks_read new sims lrns seed obj)
  /\ NoDup (map (fun t => wrapper_obj (simulation t)) (Tasks_read new sims lrns seed obj)).
Proof.
  split.
  - pose proof (Tasks_loop_map new (product (enumerate sims) (enumerate lrns))
                  SourceIds_new obj seed) as Hmap.
    fold (Tasks_read new sims lrns seed obj) in Hmap.
    pose proof (product_sorted (enumerate sims) (enumerate lrns)
                  (proj1 (enumerate_from_sorted sims 0))
                  (proj1 (enumerate_from_sorted lrns 0))) as Hs.
    rewrite <- Hmap in Hs. apply StronglySorted_map in Hs. exact Hs.
  - unfold Tasks_read. rewrite Tasks_loop_wrappers. apply NoDup_seq.
Qed.

(** *** Sorting tasks that are in the order of their ids *)

Lemma task_lt_src t t' : task_lt t t' -> src_id t <= src_id t'.
Proof. intros [H|[H _]]; lia. Qed.

Lemma insert_by_task_lt x l :
  StronglySorted task_lt l -> Forall (ids_lt x) l ->
  StronglySorted task_lt (insert_by src_id x l).
Proof.
  intros Hl. induction Hl as [|y l Hl IH Hy]; intros Hx; cbn [insert_by].
  - repeat constructor.
  - inversion Hx as [|? ? Hxy Hxl]; subst.
    destruct (Z.leb_spec (src_id x) (src_id y)) as [Hle|Hlt].
    + constructor; [constructor; assumption|].
      assert (Hall : Forall (fun z => src_id y <= src_id z) (y :: l)).
      { constructor; [lia|]. eapply Forall_impl; [exact Hy|]. intros z. apply task_lt_src. }
      rewrite Forall_forall in Hall, Hx |- *. intros z Hz.
      specialize (Hall z Hz). specialize (Hx z Hz).
      destruct (Z.eq_dec (src_id x) (src_id z)) as [Heq|Hne].
      * right. split; assumption.
      * left. lia.
    + constructor; [apply IH; exact Hxl|].
      apply Forall_forall. intros z Hz. apply list_elem_of_In in Hz.
      apply (Permutation_in _ (insert_by_Permutation src_id x l)) in Hz.
      destruct Hz as [<-|Hz]; [left; lia|].
      rewrite Forall_forall in Hy. apply Hy, list_elem_of_In, Hz.
Qed.

Lemma sorted_task_lt l :
  StronglySorted ids_lt l -> StronglySorted task_lt (sorted src_id l).
Proof.
  induction 1 as [|x l Hl IH Hx]; [constructor|].
  cbn [sorted fold_right]. change (fold_right (insert_by src_id) [] l) with (sorted src_id l).
  apply insert_by_task_lt; [exact IH|].
  rewrite sorted_Permutation. exact Hx.
Qed.

(** *** Groups of one task *)

Lemma groupby_singletons (l : list BenchmarkTask) :
  NoDup (map (fun t => wrapper_obj (simulation t)) l) ->
  groupby (fun t => (sim_id t, simulation t)) grp_sim_eqb l
  = map (fun t => ((sim_id t, simulation t), [t])) l.
Proof.
  induction l as [|x l IH]; intros Hnd; [reflexivity|].
  cbn [map] in Hnd. apply NoDup_cons in Hnd as [Hx Hnd].
  cbn [groupby]. rewrite (IH Hnd). destruct l as [|y l]; [reflexivity|].
  cbn [map]. destruct (grp_sim_eqb _ _) eqn:He; [|reflexivity].
  exfalso. apply grp_sim_eqb_spec in He. cbn [fst snd] in He. injection He as _ He.
  apply Hx. cbn [map]. rewrite He. apply elem_of_cons. left. reflexivity.
Qed.

Lemma simulations_of_singletons k g :
  StronglySorted task_lt g ->
  (forall t, In t g -> src_id t = k) ->
  NoDup (map (fun t => wrapper_obj (simulation t)) g) ->
  simulations_of g = map (fun t => ((sim_id t, simulation t), [t])) g.
Proof.
  intros Hs Hk Hnd. unfold simulations_of.
  rewrite sorted_fixed; [apply groupby_singletons, Hnd|].
  induction Hs as [|x g Hg IH Hx]; constructor.
  - apply IH.
    + intros t Ht. apply Hk. right. exact Ht.
    + cbn [map] in Hnd. apply NoDup_cons in Hnd as [_ Hnd]. exact Hnd.
  - rewrite Forall_forall in Hx |- *. intros y Hy.
    pose proof (Hk x (or_introl eq_refl)) as Hkx.
    pose proof (Hk y (or_intror (proj1 (list_elem_of_In _ _) Hy))) as Hky.
    destruct (Hx y Hy) as [Hlt|[_ [Hlt|[Heq _]]]]; lia.
Qed.

Lemma singletons_attempts (g : list BenchmarkTask) :
  flat_map (fun G : (Z * BenchmarkTaskSimulation) * list BenchmarkTask =>
              rev (map (fun t => (fst (fst G), lrn_id t)) (snd G)))
    (map (fun t => ((sim_id t, simulation t), [t])) g)
  = map task_ids g.
Proof. induction g as [|t g IH]; [reflexivity|]. cbn. f_equal. exact IH. Qed.

Lemma pieces_sublist {A} (gs : list (list A)) :
  Forall (fun g => g `sublist_of` concat gs) gs.
Proof.
  induction gs as [|g gs IH]; constructor; cbn [concat].
  - apply sublist_inserts_r. reflexivity.
  - eapply Forall_impl; [exact IH|]. intros g' Hg'. apply sublist_inserts_l. exact Hg'.
Qed.

(** The groups of tasks that are in the order of their ids and have a
    simulation handle each: every task is a simulation group of its own. *)
Lemma generated_groups ts :
  StronglySorted task_lt (sorted src_id ts) ->
  NoDup (map (fun t => wrapper_obj (simulation t)) ts) ->
  Forall (fun kg =>
            simulations_of (snd kg)
            = map (fun t => ((sim_id t, simulation t), [t])) (snd kg)
            /\ forall t, In t (snd kg) -> src_id t = fst (fst kg))
    (sources_of ts).
Proof.
  intros Hs Hnd.
  pose proof (groupby_groups (fun t => (src_id t, source (simulation t))) grp_src_eqb
                (fun k => (fst k, source_obj (snd k))) (sorted src_id ts)
                grp_src_eqb_spec) as Hgg.
  fold (sources_of ts) in Hgg.
  assert (Hp : Forall (fun g => g `sublist_of` sorted src_id ts)
                 (map snd (sources_of ts))).
  { pose proof (pieces_sublist (map snd (sources_of ts))) as Hp.
    unfold sources_of in Hp. rewrite concat_groupby in Hp. exact Hp. }
  rewrite Forall_map in Hp.
  rewrite Forall_forall in Hgg, Hp |- *. intros kg Hkg.
  destruct (Hgg kg Hkg) as [_ Hmem]. specialize (Hp kg Hkg).
  assert (Hsrc : forall t, In t (snd kg) -> src_id t = fst (fst kg)).
  { intros t Ht. specialize (Hmem t Ht). cbn [fst snd] in Hmem.
    injection Hmem as Hsrc _. exact Hsrc. }
  split; [|exact Hsrc].
  apply (simulations_of_singletons (fst (fst kg))); [|exact Hsrc|].
  - eapply StronglySorted_sublist; eassumption.
  - eapply sublist_NoDup; [|apply fmap_sublist; exact Hp].
    rewrite (sorted_Permutation src_id ts). exact Hnd.
Qed.

Lemma attempt_order_generated ts :
  StronglySorted task_lt (sorted src_id ts) ->
  NoDup (map (fun t => wrapper_obj (simulation t)) ts) ->
  attempt_order ts = map task_ids (sorted src_id ts)
  /\ flat_map (fun kg => map (fun g => (fst (fst kg), fst (fst g))) (simulations_of (snd kg)))
       (sources_of ts)
     = map (fun t => (src_id t, sim_id t)) (sorted src_id ts).
Proof.
  intros Hs Hnd. pose proof (generated_groups ts Hs Hnd) as Hg.
  unfold attempt_order.
  rewrite <- (concat_groupby (fun t => (src_id t, source (simulation t))) grp_src_eqb
                (sorted src_id ts)) at 1 2.
  fold (sources_of ts). induction Hg as [|kg gs [Hsim Hsrc] Hg [IH1 IH2]]; [split; reflexivity|].
  cbn [flat_map map concat]. rewrite !map_app, IH1, IH2, Hsim, singletons_attempts.
  split; [reflexivity|]. f_equal. rewrite map_map. cbn [fst].
  apply map_ext_in. intros t Ht. rewrite (Hsrc t Ht). reflexivity.
Qed.

(** X25.  Tasks that come from one reading of the task generator in the
    order it yields them, with any of them left out, are taken by the engine
    in ascending order of the source id, then of the simulation id, then of
    the learner id.  Each task has a simulation handle of its own, so the
    engine creates a simulation for every task it reaches and not one per
    simulation id: the simulations created are a first part of the tasks in
    that order, and the evaluations started follow that order, the learners
    of a simulation from the first to the last. *)
Theorem generated_tasks_order new sims lrns seed obj ignore_raise task_groups :
  concat task_groups `sublist_of` Tasks_read new sims lrns seed obj ->
  let tasks := sorted src_id (concat task_groups) in
  let tr := fst (Transactions_filter ignore_raise task_groups) in
  StronglySorted task_lt tasks
  /\ (exists rest, map (fun t => (src_id t, sim_id t)) tasks = creations tr ++ rest)
  /\ attempted tr `sublist_of` map task_ids tasks.
Proof.
  intros Hsub. cbv zeta. unfold Transactions_filter.
  set (ts := concat task_groups) in *.
  destruct (Tasks_read_ordered new sims lrns seed obj) as [Hord Hnd].
  assert (Hs : StronglySorted task_lt (sorted src_id ts)).
  { apply sorted_task_lt. eapply StronglySorted_sublist; eassumption. }
  assert (Hnd' : NoDup (map (fun t => wrapper_obj (simulation t)) ts)).
  { eapply sublist_NoDup; [exact Hnd|]. apply fmap_sublist. exact Hsub. }
  destruct (attempt_order_generated ts Hs Hnd') as [Ha Hc].
  split; [exact Hs|]. split.
  - rewrite <- Hc. unfold process_group. fold (sources_of ts).
    destruct (creations_sources_loop ignore_raise (sources_of ts)) as [rest Hrest].
    destruct (sources_loop _ _) as [tr r]. cbn [fst] in Hrest.
    destruct r as [[]|e]; [exists rest; exact Hrest|].
    destruct (is_Exception e); cbn [fst]; [|exists rest; exact Hrest].
    rewrite creations_app. cbn [creations flat_map]. rewrite app_nil_r.
    exists rest. exact Hrest.
  - rewrite <- Ha. apply attempted_in_attempt_order.
Qed.

Lemma generated_tasks_order_witness :
  let tasks := sorted src_id (concat [three_learner_tasks]) in
  let tr := fst (Transactions_filter true [three_learner_tasks]) in
  StronglySorted task_lt tasks
  /\ (exists rest, map (fun t => (src_id t, sim_id t)) tasks = creations tr ++ rest)
  /\ attempted tr `sublist_of` map task_ids tasks.
Proof.
  apply (generated_tasks_order first_choice [PlainSource source_X]
           [even_learner; broken_learner; even_learner] None 200%nat true
           [three_learner_tasks]).
  cbn [concat]. rewrite app_nil_r. reflexivity.
Defined.

(** * The order of the visits *)

Lemma visits_app tr1 tr2 : visits (tr1 ++ tr2) = visits tr1 ++ visits tr2.
Proof. unfold visits. apply flat_map_app. Qed.

Lemma visits_evaluate sim lrn l s bs : visits (fst (evaluate sim lrn l s bs)) = [].
Proof.
  unfold evaluate. destruct (init l) as [[[]|e] l0]; [|reflexivity].
  destruct (result_map _ bs) as [cs|e]; [|reflexivity].
  destruct (result_map _ bs) as [acs|e]; [|reflexivity].
  destruct (process_batches bs l0 (reward s)) as [[tr l1] [ms|e]];
    unfold visits; simpl; apply flat_map_map_nil; reflexivity.
Qed.

Lemma visits_run_learners ignore_raise sim s bs queue :
  visits (fst (fst (run_learners ignore_raise sim s bs queue))) = [].
Proof.
  induction queue as [|[lrn l] queue IH]; cbn [run_learners]; [reflexivity|].
  pose proof (visits_evaluate sim lrn l s bs) as He.
  destruct (evaluate sim lrn l s bs) as [tr [t|e]]; cbn [fst] in He.
  - destruct (run_learners _ _ _ _ queue) as [[tr' r'] rest]. cbn [fst] in *.
    rewrite visits_app, He. exact IH.
  - destruct (is_Exception e); [destruct ignore_raise|]; cbn [fst].
    + destruct (run_learners _ _ _ _ queue) as [[tr' r'] rest]. cbn [fst] in *.
      rewrite visits_app, He. exact IH.
    + rewrite visits_app, He. reflexivity.
    + exact He.
Qed.

Lemma visits_simulations_loop ignore_raise src loaded groups :
  exists sims rest,
    visits (fst (simulations_loop ignore_raise src loaded groups))
    = map (VisitSimulation src) sims
    /\ map (fun g => fst (fst g)) groups = sims ++ rest.
Proof.
  induction groups as [|[[sim handle] ts] groups (sims & rest & IH & IHr)];
    cbn [simulations_loop].
  - exists [], []. split; reflexivity.
  - cbn [map fst]. destruct (apply_filter (filter_of handle) loaded) as [s|e].
    2:{ exists [sim], (map (fun g => fst (fst g)) groups). split; reflexivity. }
    destruct (batchify s) as [|b bs].
    + destruct (simulations_loop _ _ _ groups) as [tr' r']. cbn [fst] in *.
      exists (sim :: sims), rest. cbn [map app]. rewrite <- IHr. split; [|reflexivity].
      change (visits (EvCreateSimulation sim src :: EvNothingToEvaluate sim :: tr'))
        with (VisitSimulation src sim :: visits tr').
      rewrite IH. reflexivity.
    + rewrite learners_loop_combine by (rewrite !length_map; reflexivity).
      pose proof (visits_run_learners ignore_raise sim s (b :: bs)
                    (rev (combine (map lrn_id ts) (map learner ts)))) as Hl.
      destruct (run_learners _ _ _ _ _) as [[tr r] rest']. cbn [fst] in Hl.
      destruct r as [[]|e].
      * destruct (simulations_loop _ _ _ groups) as [tr' r']. cbn [fst] in *.
        exists (sim :: sims), rest. cbn [map app]. rewrite <- IHr. split; [|reflexivity].
        change (visits (EvCreateSimulation sim src :: tr ++ tr'))
          with (VisitSimulation src sim :: visits (tr ++ tr')).
        rewrite visits_app, Hl, IH. reflexivity.
      * cbn [fst]. exists [sim], (map (fun g => fst (fst g)) groups).
        change (visits (EvCreateSimulation sim src :: tr))
          with (VisitSimulation src sim :: visits tr).
        rewrite Hl. split; reflexivity.
Qed.

Lemma visits_sources_loop ignore_raise groups :
  exists segs rest,
    visits (fst (sources_loop ignore_raise groups)) = flat_map source_visit segs
    /\ map (fun kg => fst (fst kg)) groups = map (fun seg => fst (fst seg)) segs ++ rest
    /\ Forall (fun seg => exists kg rest', In kg groups
                 /\ map (fun g => fst (fst g)) (simulations_of (snd kg)) = snd seg ++ rest')
         segs.
Proof.
  induction groups as [|[[src o] ts] groups (segs & rest & IH & IHk & IHs)];
    cbn [sources_loop].
  - exists [], []. split; [reflexivity|]. split; [reflexivity|constructor].
  - cbn [map fst].
    assert (IHs' : Forall (fun seg => exists kg rest', In kg (((src, o), ts) :: groups)
                    /\ map (fun g => fst (fst g)) (simulations_of (snd kg)) = snd seg ++ rest')
                    segs).
    { eapply Forall_impl; [exact IHs|]. intros seg (kg & rest' & Hin & Hs).
      exists kg, rest'. split; [right; exact Hin|exact Hs]. }
    destruct (source_read o) as [loaded|e].
    2:{ exists [((src, source_obj o), [])], (map (fun kg => fst (fst kg)) groups).
        split; [reflexivity|]. split; [reflexivity|].
        constructor; [|constructor].
        exists ((src, o), ts), (map (fun g => fst (fst g)) (simulations_of ts)).
        split; [left; reflexivity|reflexivity]. }
    fold (simulations_of ts).
    destruct (visits_simulations_loop ignore_raise src loaded (simulations_of ts))
      as (sims & rest' & Hv & Hr).
    assert (Hseg : exists kg rest', In kg (((src, o), ts) :: groups)
              /\ map (fun g => fst (fst g)) (simulations_of (snd kg))
                 = snd ((src, source_obj o), sims) ++ rest').
    { exists ((src, o), ts), rest'. split; [left; reflexivity|exact Hr]. }
    destruct (simulations_loop _ _ _ _) as [tr r]. cbn [fst] in Hv.
    destruct r as [[]|e].
    + destruct (sources_loop _ groups) as [tr' r']. cbn [fst] in *.
      exists (((src, source_obj o), sims) :: segs), rest.
      change (visits (EvLoadSource src (source_obj o) :: tr ++ tr'))
        with (VisitSource src (source_obj o) :: visits (tr ++ tr')).
      rewrite visits_app, Hv, IH. split; [reflexivity|].
      split; [cbn [map fst app]; rewrite IHk; reflexivity|].
      constructor; assumption.
    + cbn [fst]. exists [((src, source_obj o), sims)], (map (fun kg => fst (fst kg)) groups).
      change (visits (EvLoadSource src (source_obj o) :: tr))
        with (VisitSource src (source_obj o) :: visits tr).
      rewrite Hv. split; [cbn [flat_map source_visit fst snd]; rewrite app_nil_r; reflexivity|].
      split; [reflexivity|]. constructor; [exact Hseg|constructor].
Qed.

(** The ids of the groups of a list sorted by id ascend. *)
Lemma group_ids_ascending {A B} (id : A -> Z) (obj : A -> B) eqb l :
  StronglySorted Z.le
    (map (fun kg => fst (fst kg)) (groupby (fun t => (id t, obj t)) eqb (sorted id l))).
Proof.
  destruct (groupby_keys_ascending (fun t => (id t, obj t)) eqb
              (fun k : Z * B => fst k) (sorted id l) (sorted_ordered id l)) as [Hs _].
  rewrite <- (map_map fst (fun k : Z * B => fst k)).
  apply StronglySorted_map. exact Hs.
Qed.

(** C6, as the code has it.  The engine chains the groups it is given into
    one sequence and processes that sequence as a single group.  A run is a
    sequence of sources read, each followed by the simulations created for
    it: the sources come in ascending order of source id, and the
    simulations of a source in ascending order of simulation id, whatever
    the groups were.  When every source id of a group is below every source
    id of the groups after it, as in the output of [GroupBySource], the
    groups are processed one after another in the order given, each with its
    sources loaded and its transactions yielded before a later group is
    touched, and an exception that leaves the loops ends the run for all the
    groups left. *)
Theorem Transactions_filter_order ignore_raise task_groups :
  Transactions_filter ignore_raise task_groups
  = process_group ignore_raise (concat task_groups)
  /\ (exists segs,
        visits (fst (Transactions_filter ignore_raise task_groups))
        = flat_map source_visit segs
        /\ StronglySorted Z.le (map (fun seg => fst (fst seg)) segs)
        /\ Forall (fun seg => StronglySorted Z.le (snd seg)) segs)
  /\ (ascending_groups task_groups ->
      Transactions_filter ignore_raise task_groups
      = outer_handler ignore_raise (groups_in_order ignore_raise task_groups))
  /\ (forall tasks, ascending_groups (GroupBySource_filter tasks)).
Proof.
  split; [reflexivity|]. split; [|split; [|apply GroupBySource_ascending]].
  - unfold Transactions_filter. rewrite process_group_handler.
    set (tasks := concat task_groups).
    destruct (visits_sources_loop ignore_raise (sources_of tasks))
      as (segs & rest & Hv & Hk & Hs).
    exists segs. split; [|split].
    + unfold outer_handler. destruct (sources_loop _ _) as [tr [[]|e]]; cbn [fst snd] in *;
        [exact Hv|].
      destruct (is_Exception e); cbn [fst]; [|exact Hv].
      rewrite visits_app, Hv. apply app_nil_r.
    + assert (Hord : StronglySorted Z.le
                         (map (fun kg => fst (fst kg)) (sources_of tasks)))
        by apply (group_ids_ascending src_id (fun t => source (simulation t))).
      rewrite Hk in Hord.
      eapply StronglySorted_app_l, Hord.
    + eapply Forall_impl; [exact Hs|]. intros seg (kg & rest' & _ & Hsims).
      assert (Hord : StronglySorted Z.le
                       (map (fun g => fst (fst g)) (simulations_of (snd kg))))
        by apply (group_ids_ascending sim_id simulation).
      rewrite Hsims in Hord.
      eapply StronglySorted_app_l, Hord.
  - intros Hasc. unfold Transactions_filter.
    rewrite process_group_handler, sources_loop_concat by exact Hasc. reflexivity.
Qed.

Lemma Transactions_filter_order_witness :
  Transactions_filter true (GroupBySource_filter example_tasks)
  = outer_handler true (groups_in_order true (GroupBySource_filter example_tasks)).
Proof.
  destruct (Transactions_filter_order true (GroupBySource_filter example_tasks))
    as (_ & _ & Horder & Hasc).
  apply Horder, Hasc.
Defined.

(** The run of the counterexample: source 0 with its simulations 0 and 2,
    then source 1 with its simulation 1. *)
Example visits_run :
  visits (fst (Transactions_filter true (GroupByNone_filter example_tasks)))
  = flat_map source_visit [((0, 10%nat), [0; 2]); ((1, 11%nat), [1])].
Proof. vm_compute. reflexivity. Qed.

(** * The recorded mean reward *)

(** ** Rounding in integers *)

Lemma new_location_located D r q :
  0 < D -> 0 <= r < D -> located (q * D + r) D q (new_location D r).
Proof.
  intros HD Hr. unfold located. split; [lia|].
  unfold new_location, new_location_even, new_location_odd.
  destruct (Z.even D) eqn:Hev; destruct (Z.eqb_spec r 0) as [->|Hr0]; try lia.
  - destruct (Z.compare_spec (2 * r) D); lia.
  - assert (Hodd : Z.odd D = true) by (rewrite <- Z.negb_even, Hev; reflexivity).
    apply Z.odd_spec in Hodd as [d Hd].
    destruct (Z.compare_spec (2 * r + 1) D); lia.
Qed.

Lemma shr_1_eq m r s :
  0 <= m ->
  shr_1 {| shr_m := m; shr_r := r; shr_s := s |}
  = {| shr_m := Z.div2 m; shr_r := Z.odd m; shr_s := r || s |}.
Proof. intros Hm. destruct m as [|[p|p|]|p]; try lia; reflexivity. Qed.

Lemma shr_1_located N D mrs :
  0 < D -> 0 <= shr_m mrs ->
  located N D (shr_m mrs) (loc_of_shr_record mrs) ->
  located N (2 * D) (shr_m (shr_1 mrs)) (loc_of_shr_record (shr_1 mrs))
  /\ 0 <= shr_m (shr_1 mrs).
Proof.
  intros HD Hm. destruct mrs as [m r s]. cbn [shr_m] in Hm.
  rewrite (shr_1_eq m r s Hm). cbn [shr_m].
  pose proof (Z.div2_odd m) as Hdiv. generalize dependent (Z.div2 m). intros h Hdiv.
  assert (Hh : 0 <= h) by (destruct (Z.odd m); cbn in Hdiv; lia).
  unfold located. intros [Hb Hl]. split; [|exact Hh].
  destruct (Z.odd m); cbn [Z.b2z] in Hdiv; subst m;
    destruct r, s; cbn [loc_of_shr_record orb] in *; nia.
Qed.

Lemma iter_shr_1_located N p : forall D mrs,
  0 < D -> 0 <= shr_m mrs ->
  located N D (shr_m mrs) (loc_of_shr_record mrs) ->
  located N (2 ^ Zpos p * D) (shr_m (SpecFloat.iter_pos shr_1 p mrs))
    (loc_of_shr_record (SpecFloat.iter_pos shr_1 p mrs))
  /\ 0 <= shr_m (SpecFloat.iter_pos shr_1 p mrs).
Proof.
  induction p as [p IH|p IH|]; intros D mrs HD Hm Hl; cbn [SpecFloat.iter_pos].
  - destruct (shr_1_located N D mrs HD Hm Hl) as [H1 H1'].
    destruct (IH (2 * D) _ ltac:(lia) H1' H1) as [H2 H2'].
    assert (HP : 0 < 2 ^ Zpos p) by (apply Z.pow_pos_nonneg; lia).
    destruct (IH (2 ^ Zpos p * (2 * D)) _ ltac:(lia) H2' H2) as [H3 H3'].
    split; [|exact H3'].
    replace (2 ^ Zpos p~1 * D) with (2 ^ Zpos p * (2 ^ Zpos p * (2 * D))); [exact H3|].
    assert (Hpow : 2 ^ Zpos p~1 = 2 ^ Zpos p * 2 ^ Zpos p * 2).
    { replace (Zpos p~1) with (Zpos p + Zpos p + 1) by lia.
      rewrite !Z.pow_add_r by lia. reflexivity. }
    rewrite Hpow. ring.
  - assert (HP : 0 < 2 ^ Zpos p) by (apply Z.pow_pos_nonneg; lia).
    destruct (IH D _ HD Hm Hl) as [H2 H2'].
    destruct (IH (2 ^ Zpos p * D) _ ltac:(lia) H2' H2) as [H3 H3'].
    split; [|exact H3'].
    replace (2 ^ Zpos p~0 * D) with (2 ^ Zpos p * (2 ^ Zpos p * D)); [exact H3|].
    assert (Hpow : 2 ^ Zpos p~0 = 2 ^ Zpos p * 2 ^ Zpos p).
    { replace (Zpos p~0) with (Zpos p + Zpos p) by lia.
      rewrite Z.pow_add_r by lia. reflexivity. }
    rewrite Hpow. ring.
  - change (2 ^ 1) with 2. apply shr_1_located; assumption.
Qed.

Lemma round_nearest_even_located N D m l :
  0 < D -> located N D m l ->
  let k := round_nearest_even m l in
  m <= k <= m + 1
  /\ 2 * Z.abs (N - k * D) <= D
  /\ (2 * Z.abs (N - k * D) = D -> Z.even k = true).
Proof.
  intros HD [Hb Hl]. cbv zeta. destruct l as [|[| |]]; cbn [round_nearest_even].
  - split; [lia|]. split; [nia|]. nia.
  - destruct (Z.even m) eqn:Hev.
    + split; [lia|]. split; [nia|]. intros _. exact Hev.
    + split; [lia|]. split; [nia|]. intros _.
      rewrite Z.even_add, Hev. reflexivity.
  - split; [lia|]. split; [nia|]. nia.
  - split; [lia|]. split; [nia|]. nia.
Qed.

Lemma fexp_eq x : fexp 53 1024 x = Z.max (x - 53) (-1074).
Proof. reflexivity. Qed.

Lemma Zdigits2_0 : Zdigits2 0 = 0.
Proof. reflexivity. Qed.

Lemma Zdigits2_bounds q :
  0 < q -> 2 ^ (Zdigits2 q - 1) <= q < 2 ^ Zdigits2 q.
Proof.
  intros Hq. destruct q as [|p|p]; try lia.
  rewrite Zdigits2_log2. pose proof (Z.log2_spec (Zpos p) ltac:(lia)) as H.
  replace (Z.log2 (Zpos p) + 1 - 1) with (Z.log2 (Zpos p)) by lia.
  replace (Z.log2 (Zpos p) + 1) with (Z.succ (Z.log2 (Zpos p))) by lia. exact H.
Qed.

Lemma Zdigits2_nonneg q : 0 <= q -> 0 <= Zdigits2 q.
Proof. destruct q; simpl; lia. Qed.

Lemma Zdigits2_le q n : 0 <= q < 2 ^ n -> 0 <= n -> Zdigits2 q <= n.
Proof.
  intros Hq Hn. destruct (Z.eq_dec q 0) as [->|Hne]; [simpl; lia|].
  destruct (Zdigits2_bounds q ltac:(lia)) as [Hlo _].
  destruct (Z.le_gt_cases (Zdigits2 q) n) as [H|H]; [exact H|exfalso].
  assert (2 ^ n <= 2 ^ (Zdigits2 q - 1)) by (apply Z.pow_le_mono_r; lia). lia.
Qed.

Lemma loc_of_record_of_loc m l : loc_of_shr_record (shr_record_of_loc m l) = l.
Proof. destruct l as [|[| |]]; reflexivity. Qed.

Lemma shr_m_record_of_loc m l : shr_m (shr_record_of_loc m l) = m.
Proof. destruct l as [|[| |]]; reflexivity. Qed.

(** The first shift of [binary_round_aux]. *)
Lemma shr_fexp_located N D q e l :
  0 < D -> 0 <= q -> located N D q l ->
  e <= fexp 53 1024 (Zdigits2 q + e) ->
  let e1 := fexp 53 1024 (Zdigits2 q + e) in
  let '(mrs, e') := shr_fexp 53 1024 q e l in
  e' = e1
  /\ located N (2 ^ (e1 - e) * D) (shr_m mrs) (loc_of_shr_record mrs)
  /\ 0 <= shr_m mrs.
Proof.
  intros HD Hq Hl He e1. unfold shr_fexp. fold e1.
  destruct (e1 - e) as [|p|p] eqn:Hn; try lia; cbn [shr].
  - rewrite loc_of_record_of_loc, shr_m_record_of_loc.
    split; [lia|]. split; [|exact Hq]. change (2 ^ 0) with 1. rewrite Z.mul_1_l. exact Hl.
  - split; [lia|]. apply iter_shr_1_located; [exact HD| |].
    + rewrite shr_m_record_of_loc. exact Hq.
    + rewrite loc_of_record_of_loc, shr_m_record_of_loc. exact Hl.
Qed.

Lemma binary_round_aux_spec s q e l N D :
  0 < D -> 0 <= q -> located N D q l ->
  e <= fexp 53 1024 (Zdigits2 q + e) ->
  let e1 := fexp 53 1024 (Zdigits2 q + e) in
  let D' := 2 ^ (e1 - e) * D in
  exists k,
    2 * Z.abs (N - k * D') <= D'
    /\ (2 * Z.abs (N - k * D') = D' -> Z.even k = true)
    /\ 0 <= k <= 2 ^ 53
    /\ (-1074 < e1 -> 2 ^ 52 * D' <= N)
    /\ binary_round_aux 53 1024 s q e l = float_of_rounded s k e1.
Proof.
  intros HD Hq Hl He e1 D'.
  pose proof (shr_fexp_located N D q e l HD Hq Hl He) as H1. cbv zeta in H1. fold e1 in H1.
  unfold binary_round_aux.
  destruct (shr_fexp 53 1024 q e l) as [mrs e'].
  destruct H1 as (-> & Hloc & Hm). fold D' in Hloc.
  assert (Hpow : 0 < 2 ^ (e1 - e)) by (apply Z.pow_pos_nonneg; lia).
  assert (HD' : 0 < D') by (unfold D'; lia).
  destruct (round_nearest_even_located N D' _ _ HD' Hloc) as (Hk & Hnear & Htie).
  set (k := round_nearest_even (shr_m mrs) (loc_of_shr_record mrs)) in *.
  assert (He1 : -1074 <= e1) by (unfold e1; rewrite fexp_eq; lia).
  assert (Hdig : Zdigits2 q <= 53 + (e1 - e)) by (unfold e1; rewrite fexp_eq; lia).
  assert (Hqd : q + 1 <= 2 ^ Zdigits2 q).
  { destruct (Z.eq_dec q 0) as [->|Hne]; [simpl; lia|].
    destruct (Zdigits2_bounds q ltac:(lia)). lia. }
  assert (Hm53 : shr_m mrs < 2 ^ 53).
  { destruct Hl as [[_ Hl] _]. destruct Hloc as [[Hlo _] _].
    assert (H2 : 2 ^ Zdigits2 q <= 2 ^ (53 + (e1 - e))).
    { apply Z.pow_le_mono_r; [lia|exact Hdig]. }
    rewrite Z.pow_add_r in H2 by lia.
    assert (N < 2 ^ 53 * D') by (unfold D'; nia).
    nia. }
  exists k. split; [exact Hnear|]. split; [exact Htie|]. split; [lia|]. split.
  - intros Hgt. assert (Hd : Zdigits2 q = 53 + (e1 - e)).
    { unfold e1 in Hgt |- *. rewrite fexp_eq in *. lia. }
    assert (Hq0 : 0 < q).
    { destruct (Z.eq_dec q 0) as [->|]; [simpl in Hd; lia|lia]. }
    destruct (Zdigits2_bounds q Hq0) as [Hlo _]. rewrite Hd in Hlo.
    replace (53 + (e1 - e) - 1) with (52 + (e1 - e)) in Hlo by lia.
    rewrite Z.pow_add_r in Hlo by lia.
    destruct Hl as [[Hl _] _]. unfold D'. nia.
  - unfold float_of_rounded, shr_fexp.
    destruct (Z.eqb_spec k 0) as [Hk0|Hk0].
    + rewrite Hk0, Zdigits2_0, Z.add_0_l, fexp_eq.
      destruct (Z.max (e1 - 53) (-1074) - e1) as [|p|p] eqn:Hn; try lia; reflexivity.
    + destruct (Z.eqb_spec k (2 ^ 53)) as [Hk53|Hk53].
      * rewrite Hk53. change (Zdigits2 (2 ^ 53)) with 54. rewrite fexp_eq.
        replace (Z.max (54 + e1 - 53) (-1074) - e1) with 1 by lia.
        cbn [shr]. reflexivity.
      * assert (Hkd : Zdigits2 k <= 53) by (apply Zdigits2_le; lia).
        pose proof (Zdigits2_nonneg k ltac:(lia)) as Hkn.
        rewrite fexp_eq.
        destruct (Z.max (Zdigits2 k + e1 - 53) (-1074) - e1) as [|p|p] eqn:Hn; try lia;
          cbn [shr]; rewrite shr_m_record_of_loc;
          destruct k as [|pk|pk]; try lia; reflexivity.
Qed.

(** Division of floats: the quotient of [N * 2^ex] by [D], scaled by a
    power of two to an exponent [e] of the format, is rounded to a nearest
    integer, the even one of two. *)
Lemma SFdiv_spec s N ex D :
  exists k e sft n,
    0 <= sft /\ 0 <= n /\ e = ex - sft + n
    /\ 2 * Z.abs (Zpos N * 2 ^ sft - k * (2 ^ n * Zpos D)) <= 2 ^ n * Zpos D
    /\ (2 * Z.abs (Zpos N * 2 ^ sft - k * (2 ^ n * Zpos D)) = 2 ^ n * Zpos D ->
        Z.even k = true)
    /\ 0 <= k <= 2 ^ 53
    /\ -1074 <= e
    /\ (-1074 < e -> 2 ^ 52 * (2 ^ n * Zpos D) <= Zpos N * 2 ^ sft)
    /\ SFdiv 53 1024 (S754_finite s N ex) (S754_finite false D 0) = float_of_rounded s k e.
Proof.
  unfold SFdiv, SFdiv_core_binary. rewrite xorb_false_r.
  destruct (Zdigits2_bounds (Zpos N) ltac:(lia)) as [HN1 HN2].
  destruct (Zdigits2_bounds (Zpos D) ltac:(lia)) as [HD1 HD2].
  assert (Hd1 : 0 < Zdigits2 (Zpos N)) by (simpl; lia).
  assert (Hd2 : 0 < Zdigits2 (Zpos D)) by (simpl; lia).
  set (d1 := Zdigits2 (Zpos N)) in *. set (d2 := Zdigits2 (Zpos D)) in *.
  set (e' := Z.min (fexp 53 1024 (d1 + ex - (d2 + 0))) (ex - 0)).
  assert (He'def : e' = Z.min (Z.max (d1 + ex - d2 - 53) (-1074)) ex).
  { unfold e'. rewrite fexp_eq.
    replace (d1 + ex - (d2 + 0) - 53) with (d1 + ex - d2 - 53) by lia.
    replace (ex - 0) with ex by lia. reflexivity. }
  clearbody e' d1 d2.
  set (sft := ex - 0 - e').
  assert (Hsftdef : sft = ex - e') by (unfold sft; lia).
  clearbody sft.
  assert (Hsft : 0 <= sft) by lia.
  set (m' := match sft with Zpos _ => Z.shiftl (Zpos N) sft | Z0 => Zpos N | Zneg _ => 0 end).
  assert (Hm' : m' = Zpos N * 2 ^ sft).
  { unfold m'. destruct sft as [|p|p] eqn:Hs; try lia.
    rewrite Z.shiftl_mul_pow2 by lia. reflexivity. }
  clearbody m'.
  pose proof (Z_div_mod m' (Zpos D) ltac:(lia)) as Hdm.
  destruct (Z.div_eucl m' (Zpos D)) as [q r]. destruct Hdm as [Hdm Hr].
  assert (Hpow : 0 < 2 ^ sft) by (apply Z.pow_pos_nonneg; lia).
  assert (Hq : 0 <= q) by nia.
  assert (Hloc : located m' (Zpos D) q (new_location (Zpos D) r)).
  { rewrite Hdm. replace (Zpos D * q + r) with (q * Zpos D + r) by ring.
    apply new_location_located; lia. }
  assert (He : e' <= fexp 53 1024 (Zdigits2 q + e')).
  { rewrite fexp_eq. destruct (Z.le_gt_cases e' (-1074)) as [Hle|Hgt]; [lia|].
    assert (He' : e' <= d1 + ex - d2 - 53) by lia.
    assert (Hs : 53 + d2 - d1 <= sft) by lia.
    assert (H1 : 2 ^ (52 + d2) <= Zpos N * 2 ^ sft).
    { assert (H2 : 2 ^ (52 + d2) <= 2 ^ (d1 - 1 + sft)) by (apply Z.pow_le_mono_r; lia).
      rewrite (Z.pow_add_r 2 (d1 - 1) sft) in H2 by lia.
      assert (2 ^ (d1 - 1) * 2 ^ sft <= Zpos N * 2 ^ sft)
        by (apply Z.mul_le_mono_nonneg_r; lia).
      lia. }
    rewrite Z.pow_add_r in H1 by lia.
    assert (Hq52 : 2 ^ 52 <= q).
    { assert (0 < 2 ^ d2) by (apply Z.pow_pos_nonneg; lia). nia. }
    destruct (Zdigits2_bounds q ltac:(lia)) as [_ Hqu].
    assert (52 < Zdigits2 q).
    { destruct (Z.lt_ge_cases 52 (Zdigits2 q)) as [H|H]; [exact H|exfalso].
      assert (2 ^ Zdigits2 q <= 2 ^ 52) by (apply Z.pow_le_mono_r; lia). lia. }
    lia. }
  destruct (binary_round_aux_spec s q e' _ m' (Zpos D) ltac:(lia) Hq Hloc He)
    as (k & Hnear & Htie & Hk & Hbig & Hres).
  set (e1 := fexp 53 1024 (Zdigits2 q + e')) in *.
  exists k, e1, sft, (e1 - e'). rewrite <- Hm'.
  split; [exact Hsft|]. split; [lia|]. split; [lia|].
  split; [exact Hnear|]. split; [exact Htie|]. split; [exact Hk|].
  split; [unfold e1; rewrite fexp_eq; lia|]. split; [exact Hbig|exact Hres].
Qed.

(** ** Rounding in rationals *)

(** *** Powers of two *)

Lemma Q2_neq_0 : ~ (2 == 0)%Q.
Proof. discriminate. Qed.

Lemma Qpow2_pos e : (0 < 2 ^ e)%Q.
Proof. apply Qpower_0_lt. reflexivity. Qed.

Lemma Qpow2_Z n : 0 <= n -> (2 ^ n == inject_Z (2 ^ n))%Q.
Proof. intros Hn. rewrite Zpower_Qpower by exact Hn. reflexivity. Qed.

Lemma Qpow2_split a b : a <= b -> (2 ^ b == inject_Z (2 ^ (b - a)) * 2 ^ a)%Q.
Proof.
  intros H. rewrite <- Qpow2_Z by lia. rewrite <- Qpower_plus by exact Q2_neq_0.
  replace (b - a + a) with b by lia. reflexivity.
Qed.

Lemma Qpow2_le a b : a <= b -> (2 ^ a <= 2 ^ b)%Q.
Proof. intros H. apply Qpower_le_compat_l; [exact H|]. discriminate. Qed.

(** *** Integers and rationals *)

Lemma Qabs_diff_Z (k N : Z) (D : positive) :
  (Qabs (inject_Z k - (N # D)) == (Z.abs (N - k * Zpos D) # D))%Q.
Proof.
  unfold Qeq, Qabs, Qminus, Qplus, Qopp, inject_Z. cbn [Qnum Qden].
  rewrite Pos.mul_1_l.
  replace (k * Zpos D + - N * 1) with (- (N - k * Zpos D)) by ring.
  rewrite Z.abs_opp. reflexivity.
Qed.

Lemma nearest_integer_any (N : Z) (D : positive) k j :
  2 * Z.abs (N - k * Zpos D) <= Zpos D ->
  (Qabs (inject_Z k - (N # D)) <= Qabs (inject_Z j - (N # D)))%Q.
Proof.
  intros H. rewrite !Qabs_diff_Z. unfold Qle. cbn [Qnum Qden].
  apply Z.mul_le_mono_nonneg_r; [lia|].
  destruct (Z.eq_dec j k) as [->|Hne]; [lia|]. nia.
Qed.

Lemma nearest_integer_tie (N : Z) (D : positive) k j :
  2 * Z.abs (N - k * Zpos D) <= Zpos D ->
  (Qabs (inject_Z j - (N # D)) == Qabs (inject_Z k - (N # D)))%Q ->
  j <> k ->
  2 * Z.abs (N - k * Zpos D) = Zpos D.
Proof.
  intros H Heq Hne. rewrite !Qabs_diff_Z in Heq. unfold Qeq in Heq. cbn [Qnum Qden] in Heq.
  apply Z.mul_cancel_r in Heq; [|lia]. nia.
Qed.

Lemma nearest_integer_Z (N : Z) (D : positive) k :
  2 * Z.abs (N - k * Zpos D) <= Zpos D ->
  (2 * Z.abs (N - k * Zpos D) = Zpos D -> Z.even k = true) ->
  nearest_integer (N # D) k.
Proof.
  intros H Htie. unfold nearest_integer. rewrite Qabs_diff_Z. split.
  - unfold Qle. cbn [Qnum Qden]. lia.
  - intros Heq. apply Htie. unfold Qeq in Heq. cbn [Qnum Qden] in Heq. lia.
Qed.

(** *** The numbers of the format *)

Lemma valid_bounds s m e :
  valid_binary 53 1024 (S754_finite s m e) = true ->
  Zpos m < 2 ^ 53 /\ -1074 <= e <= 971.
Proof.
  cbn [valid_binary]. unfold bounded, canonical_mantissa. rewrite andb_true_iff.
  intros [Hc He]. apply Z.eqb_eq in Hc. apply Z.leb_le in He. rewrite fexp_eq in Hc.
  change (Zpos (digits2_pos m)) with (Zdigits2 (Zpos m)) in Hc.
  destruct (Zdigits2_bounds (Zpos m) ltac:(lia)) as [_ Hu].
  assert (2 ^ Zdigits2 (Zpos m) <= 2 ^ 53) by (apply Z.pow_le_mono_r; lia).
  lia.
Qed.

Lemma Zdigits2_53 k : 2 ^ 52 <= k < 2 ^ 53 -> Zdigits2 k = 53.
Proof.
  intros Hk. destruct (Zdigits2_bounds k ltac:(lia)) as [Hl Hu].
  destruct (Z.lt_trichotomy (Zdigits2 k) 53) as [H|[H|H]]; [exfalso|exact H|exfalso].
  - assert (2 ^ Zdigits2 k <= 2 ^ 52) by (apply Z.pow_le_mono_r; lia). lia.
  - assert (2 ^ 53 <= 2 ^ (Zdigits2 k - 1)) by (apply Z.pow_le_mono_r; lia). lia.
Qed.

Lemma valid_intro s k e :
  0 < k < 2 ^ 53 -> -1074 <= e <= 971 -> (-1074 < e -> 2 ^ 52 <= k) ->
  is_double (S754_finite s (Z.to_pos k) e) = true.
Proof.
  intros Hk He Hbig. unfold is_double. cbn [Float.is_finite valid_binary andb].
  unfold bounded, canonical_mantissa. apply andb_true_intro. split; [|apply Z.leb_le; lia].
  apply Z.eqb_eq. rewrite fexp_eq.
  change (Zpos (digits2_pos (Z.to_pos k))) with (Zdigits2 (Zpos (Z.to_pos k))).
  rewrite Z2Pos.id by lia.
  destruct (Z.eq_dec e (-1074)) as [->|Hne].
  - pose proof (Zdigits2_le k 53 ltac:(lia) ltac:(lia)). lia.
  - rewrite (Zdigits2_53 k) by lia. lia.
Qed.

Lemma float_value_finite s k e :
  0 < k ->
  (float_value (S754_finite s (Z.to_pos k) e)
   == inject_Z (if s then - k else k) * 2 ^ e)%Q.
Proof.
  intros Hk. cbn [float_value]. destruct s.
  - change (Zneg (Z.to_pos k)) with (- Zpos (Z.to_pos k)). rewrite Z2Pos.id by lia. reflexivity.
  - rewrite Z2Pos.id by lia. reflexivity.
Qed.

Lemma is_finite_float_of_rounded s k e :
  Float.is_finite (float_of_rounded s k e) = true ->
  k = 0 \/ (k = 2 ^ 53 /\ e + 1 <= 971) \/ (k <> 0 /\ k <> 2 ^ 53 /\ e <= 971).
Proof.
  unfold float_of_rounded.
  destruct (Z.eqb_spec k 0); [auto|]. destruct (Z.eqb_spec k (2 ^ 53)).
  - destruct (Z.leb_spec (e + 1) 971); [auto|discriminate].
  - destruct (Z.leb_spec e 971); [auto|discriminate].
Qed.

Lemma float_value_rounded s k e :
  0 <= k <= 2 ^ 53 ->
  Float.is_finite (float_of_rounded s k e) = true ->
  (float_value (float_of_rounded s k e) == inject_Z (if s then - k else k) * 2 ^ e)%Q.
Proof.
  intros Hk Hfin. unfold float_of_rounded in *.
  destruct (Z.eqb_spec k 0) as [->|Hk0].
  - cbn [float_value]. destruct s; symmetry; apply Qmult_0_l.
  - destruct (Z.eqb_spec k (2 ^ 53)) as [->|Hk53].
    + destruct (Z.leb_spec (e + 1) 971); [|discriminate].
      rewrite float_value_finite by reflexivity.
      rewrite Qpower_plus, Qpower_1_r by exact Q2_neq_0.
      assert (H1 : (inject_Z (2 ^ 53) == inject_Z (2 ^ 52) * 2)%Q)
        by (unfold Qeq; vm_compute; reflexivity).
      assert (H2 : (inject_Z (- 2 ^ 53) == inject_Z (- 2 ^ 52) * 2)%Q)
        by (unfold Qeq; vm_compute; reflexivity).
      destruct s; [rewrite H2|rewrite H1]; ring.
    + destruct (Z.leb_spec e 971); [|discriminate].
      apply float_value_finite. lia.
Qed.

Lemma double_scaled y e :
  is_double y = true -> -1074 <= e ->
  exists w : Q,
    (float_value y == w * 2 ^ e)%Q
    /\ ((exists j : Z, (w == inject_Z j)%Q)
        \/ (-1074 < e /\ (Qabs w < inject_Z (2 ^ 52))%Q)).
Proof.
  intros Hy He. destruct y as [s| | |s m ey]; try discriminate.
  - exists 0%Q. split; [cbn [float_value]; ring|]. left. exists 0. reflexivity.
  - unfold is_double in Hy. cbn [Float.is_finite andb] in Hy.
    destruct (valid_bounds s m ey Hy) as [Hm Hey]. cbn [float_value].
    set (sg := if s then Zneg m else Zpos m).
    destruct (Z.le_gt_cases e ey) as [Hle|Hgt].
    + exists (inject_Z (sg * 2 ^ (ey - e))). split; [|left; eexists; reflexivity].
      rewrite (Qpow2_split e ey Hle), inject_Z_mult. ring.
    + exists (inject_Z sg * 2 ^ (ey - e))%Q. split.
      * rewrite <- Qmult_assoc, <- Qpower_plus by exact Q2_neq_0.
        replace (ey - e + e) with ey by lia. reflexivity.
      * right. split; [lia|].
        rewrite Qabs_Qmult, (Qabs_pos (2 ^ (ey - e))) by (apply Qlt_le_weak, Qpow2_pos).
        assert (Hsg : (Qabs (inject_Z sg) == inject_Z (Zpos m))%Q).
        { unfold sg. destruct s; reflexivity. }
        rewrite Hsg.
        assert (Hp : (2 ^ (ey - e) <= 2 ^ (-1))%Q) by (apply Qpow2_le; lia).
        assert (Hm' : (inject_Z (Zpos m) <= inject_Z (2 ^ 53 - 1))%Q)
          by (rewrite <- Zle_Qle; lia).
        assert (Hc : (inject_Z (2 ^ 53 - 1) * 2 ^ (-1) < inject_Z (2 ^ 52))%Q)
          by (unfold Qlt; vm_compute; reflexivity).
        eapply Qle_lt_trans; [|exact Hc].
        apply Qmult_le_compat_nonneg.
        -- split; [|exact Hm']. rewrite <- (Zle_Qle 0). lia.
        -- split; [apply Qlt_le_weak, Qpow2_pos|exact Hp].
Qed.

Lemma Qabs_scaled (u a : Q) : (0 < a)%Q -> (Qabs (u * a) == Qabs u * a)%Q.
Proof. intros Ha. rewrite Qabs_Qmult, (Qabs_pos a) by (apply Qlt_le_weak, Ha). reflexivity. Qed.

Lemma Qmult_cancel_r (x y a : Q) : (0 < a)%Q -> (x * a == y * a)%Q -> (x == y)%Q.
Proof.
  intros Ha H. apply (Qmult_inj_r x y a); [|exact H].
  intros H0. rewrite H0 in Ha. exact (Qlt_irrefl _ Ha).
Qed.

Lemma Qabs_below (K C z w : Q) :
  (Qabs (K - z) <= Qabs (C - z))%Q -> (C <= z)%Q -> (Qabs w < C)%Q ->
  (Qabs (K - z) < Qabs (w - z))%Q.
Proof.
  intros H1 H2 H3.
  assert (E1 : (Qabs (C - z) == z - C)%Q).
  { rewrite Qabs_neg by lra. ring. }
  pose proof (Qle_Qabs w) as H4.
  pose proof (Qle_Qabs (- (w - z))) as H5. rewrite Qabs_opp in H5.
  rewrite E1 in H1. lra.
Qed.

Lemma even_significand_rounded s k e :
  0 <= k -> Z.even k = true -> even_significand (float_of_rounded s k e) = true.
Proof.
  intros Hk Hev. unfold float_of_rounded.
  destruct (Z.eqb_spec k 0); [reflexivity|].
  destruct (Z.eqb_spec k (2 ^ 53)).
  - destruct (e + 1 <=? 971); reflexivity.
  - destruct (e <=? 971); [|reflexivity]. cbn [even_significand].
    rewrite Z2Pos.id by lia. exact Hev.
Qed.

(** A quotient [N / D * 2^e] rounded at the exponent [e] of its magnitude
    to the nearest integer [k]: the float of [k * 2^e], when it is finite,
    is the nearest of the format. *)
Lemma rounded_nearest s (N : Z) (D : positive) k e :
  2 * Z.abs (N - k * Zpos D) <= Zpos D ->
  (2 * Z.abs (N - k * Zpos D) = Zpos D -> Z.even k = true) ->
  0 <= k <= 2 ^ 53 ->
  -1074 <= e ->
  (-1074 < e -> 2 ^ 52 * Zpos D <= N) ->
  Float.is_finite (float_of_rounded s k e) = true ->
  nearest_double (if s then - ((N # D) * 2 ^ e) else (N # D) * 2 ^ e)%Q
    (float_of_rounded s k e).
Proof.
  intros Hnear Htie Hk He Hbig Hfin.
  pose proof (float_value_rounded s k e Hk Hfin) as Hv.
  pose proof (Qpow2_pos e) as Ha.
  assert (Hnear' : forall j, (Qabs (inject_Z k - (N # D)) <= Qabs (inject_Z j - (N # D)))%Q)
    by (intros j; apply nearest_integer_any, Hnear).
  assert (Htie' : forall j, (Qabs (inject_Z j - (N # D)) == Qabs (inject_Z k - (N # D)))%Q ->
                    j <> k -> Z.even k = true).
  { intros j Heq Hne. apply Htie. exact (nearest_integer_tie N D k j Hnear Heq Hne). }
  assert (Hz52 : -1074 < e -> (inject_Z (2 ^ 52) <= N # D)%Q).
  { intros Hgt. unfold Qle. cbn [Qnum Qden inject_Z]. specialize (Hbig Hgt). lia. }
  remember (2 ^ e)%Q as a eqn:Hadef. remember (N # D)%Q as z eqn:Hzdef.
  assert (Hx : (Qabs (float_value (float_of_rounded s k e)
                       - (if s then - (z * a) else z * a))
                == Qabs (inject_Z k - z) * a)%Q).
  { rewrite Hv, <- Qabs_scaled by exact Ha. destruct s.
    - rewrite <- (Qabs_opp ((inject_Z k - z) * a)). apply Qabs_wd.
      rewrite inject_Z_opp. ring.
    - apply Qabs_wd. ring. }
  assert (Hy : forall y, is_double y = true ->
             exists w : Q,
               (Qabs (float_value y - (if s then - (z * a) else z * a))
                == Qabs (w - z) * a)%Q
               /\ ((float_value y == float_value (float_of_rounded s k e))%Q
                   <-> (w == inject_Z k)%Q)
               /\ ((exists j : Z, (w == inject_Z j)%Q)
                   \/ (-1074 < e /\ (Qabs w < inject_Z (2 ^ 52))%Q))).
  { intros y Hyd. destruct (double_scaled y e Hyd He) as (w & Hw & Hcase).
    rewrite <- Hadef in Hw.
    exists (if s then - w else w)%Q. split; [|split].
    - rewrite Hw, <- Qabs_scaled by exact Ha. destruct s.
      + rewrite <- (Qabs_opp ((- w - z) * a)). apply Qabs_wd. ring.
      + apply Qabs_wd. ring.
    - rewrite Hw, Hv. destruct s.
      + rewrite inject_Z_opp. split; intros H.
        * apply (Qmult_cancel_r _ _ a Ha) in H. lra.
        * rewrite <- (Qopp_involutive w), H. ring.
      + split; intros H.
        * apply (Qmult_cancel_r _ _ a Ha) in H. exact H.
        * rewrite H. reflexivity.
    - destruct Hcase as [[j Hj]|[Hgt Hlt]].
      + left. destruct s; [exists (- j); rewrite inject_Z_opp, Hj|exists j; exact Hj].
        reflexivity.
      + right. split; [exact Hgt|]. destruct s; [rewrite Qabs_opp|]; exact Hlt. }
  assert (Hfar : forall w : Q, -1074 < e -> (Qabs w < inject_Z (2 ^ 52))%Q ->
             (Qabs (inject_Z k - z) < Qabs (w - z))%Q).
  { intros w Hgt Hlt. apply (Qabs_below _ (inject_Z (2 ^ 52))); [| |exact Hlt].
    - apply Hnear'.
    - apply Hz52, Hgt. }
  split; [|split].
  - destruct (is_finite_float_of_rounded s k e Hfin) as [->|[[-> He1]|(Hk0 & Hk53 & He1)]].
    + reflexivity.
    + unfold float_of_rounded. cbn [Z.eqb]. change (2 ^ 53 =? 0) with false. cbv iota.
      rewrite Z.eqb_refl. destruct (Z.leb_spec (e + 1) 971); [|lia].
      apply valid_intro; lia.
    + unfold float_of_rounded.
      destruct (Z.eqb_spec k 0); [contradiction|].
      destruct (Z.eqb_spec k (2 ^ 53)); [contradiction|].
      destruct (Z.leb_spec e 971); [|lia].
      apply valid_intro; [lia|lia|]. intros Hgt. specialize (Hbig Hgt). nia.
  - intros y Hyd. destruct (Hy y Hyd) as (w & Hw & _ & Hcase). rewrite Hx, Hw.
    apply Qmult_le_compat_r; [|apply Qlt_le_weak, Ha].
    destruct Hcase as [[j Hj]|[Hgt Hlt]].
    + rewrite Hj. apply Hnear'.
    + apply Qlt_le_weak, Hfar; assumption.
  - intros y Hyd Heq Hne. destruct (Hy y Hyd) as (w & Hw & Hsame & Hcase).
    rewrite Hx, Hw in Heq. apply (Qmult_cancel_r _ _ a Ha) in Heq.
    destruct Hcase as [[j Hj]|[Hgt Hlt]].
    + apply even_significand_rounded; [lia|].
      rewrite Hj in Heq. apply (Htie' j Heq).
      intros ->. apply Hne, Hsame. exact Hj.
    + exfalso. pose proof (Hfar w Hgt Hlt) as Hlt'. rewrite Heq in Hlt'.
      exact (Qlt_irrefl _ Hlt').
Qed.

(** A quotient within the range of the format is rounded to a finite
    float. *)
Lemma rounded_finite s (N : Z) (D : positive) k e :
  2 * Z.abs (N - k * Zpos D) <= Zpos D ->
  0 <= k <= 2 ^ 53 ->
  (-1074 < e -> 2 ^ 52 * Zpos D <= N) ->
  ((N # D) * 2 ^ e <= max_double)%Q ->
  Float.is_finite (float_of_rounded s k e) = true.
Proof.
  intros Hnear Hk Hbig Hmax. unfold max_double in Hmax.
  pose proof (Qpow2_pos 971) as HA.
  unfold float_of_rounded.
  destruct (Z.eqb_spec k 0) as [Hk0|Hk0]; [reflexivity|].
  destruct (Z.eqb_spec k (2 ^ 53)) as [Hk53|Hk53].
  - destruct (Z.leb_spec (e + 1) 971) as [|Hgt]; [reflexivity|exfalso].
    assert (Hge : (inject_Z (2 ^ 54 - 1) * (1 # 2) <= N # D)%Q).
    { unfold Qle. cbn [Qnum Qden inject_Z Qmult]. subst k. nia. }
    assert (Hp : (2 ^ 971 <= 2 ^ e)%Q) by (apply Qpow2_le; lia).
    assert (H1 : (inject_Z (2 ^ 54 - 1) * (1 # 2) * 2 ^ 971 <= (N # D) * 2 ^ e)%Q).
    { apply Qmult_le_compat_nonneg; split; try assumption.
      - unfold Qle. vm_compute. discriminate.
      - apply Qlt_le_weak, HA. }
    assert (H2 : (inject_Z (2 ^ 53 - 1) * 2 ^ 971
                  < inject_Z (2 ^ 54 - 1) * (1 # 2) * 2 ^ 971)%Q).
    { apply Qmult_lt_compat_r; [exact HA|]. unfold Qlt. vm_compute. reflexivity. }
    apply (Qlt_irrefl (inject_Z (2 ^ 53 - 1) * 2 ^ 971)).
    eapply Qlt_le_trans; [exact H2|]. eapply Qle_trans; [exact H1|exact Hmax].
  - destruct (Z.leb_spec e 971) as [|Hgt]; [reflexivity|exfalso].
    specialize (Hbig ltac:(lia)).
    assert (Hge : (inject_Z (2 ^ 52) <= N # D)%Q).
    { unfold Qle. cbn [Qnum Qden inject_Z]. lia. }
    assert (Hp : (2 ^ 972 <= 2 ^ e)%Q) by (apply Qpow2_le; lia).
    assert (H1 : (inject_Z (2 ^ 52) * 2 ^ 972 <= (N # D) * 2 ^ e)%Q).
    { apply Qmult_le_compat_nonneg; split; try assumption.
      - unfold Qle. vm_compute. discriminate.
      - apply Qlt_le_weak, Qpow2_pos. }
    assert (H2 : (inject_Z (2 ^ 53 - 1) * 2 ^ 971 < inject_Z (2 ^ 52) * 2 ^ 972)%Q).
    { change 972 with (971 + 1). rewrite Qpower_plus, Qpower_1_r by exact Q2_neq_0.
      rewrite (Qmult_comm (2 ^ 971) 2), Qmult_assoc.
      apply Qmult_lt_compat_r; [exact HA|]. unfold Qlt. vm_compute. reflexivity. }
    apply (Qlt_irrefl (inject_Z (2 ^ 53 - 1) * 2 ^ 971)).
    eapply Qlt_le_trans; [exact H2|]. eapply Qle_trans; [exact H1|exact Hmax].
Qed.

(** *** Division *)

Lemma nearest_double_wd q q' x : (q == q')%Q -> nearest_double q x -> nearest_double q' x.
Proof.
  intros Hq (H1 & H2 & H3). split; [exact H1|]. split.
  - intros y Hy. rewrite <- Hq. apply H2, Hy.
  - intros y Hy Heq. rewrite <- Hq in Heq. apply (H3 y Hy Heq).
Qed.

(** The quotient of a float by a positive integer, when it is within the
    range of the format, is the float nearest to the exact quotient. *)
Lemma div_nearest (s : bool) (N : positive) (ex : Z) (D : positive) :
  (inject_Z (Zpos N) * 2 ^ ex / inject_Z (Zpos D) <= max_double)%Q ->
  nearest_double
    (inject_Z (if s then Zneg N else Zpos N) * 2 ^ ex / inject_Z (Zpos D))%Q
    (Float.div (S754_finite s N ex) (S754_finite false D 0)).
Proof.
  intros Hmax.
  destruct (SFdiv_spec s N ex D)
    as (k & e & sft & n & Hsft & Hn & He & Hnear & Htie & Hk & Hemin & Hbig & Hres).
  unfold Float.div, Float.prec, Float.emax. rewrite Hres.
  assert (Hpn : 0 < 2 ^ n) by (apply Z.pow_pos_nonneg; lia).
  assert (Hps : 0 < 2 ^ sft) by (apply Z.pow_pos_nonneg; lia).
  set (D' := Z.to_pos (2 ^ n * Zpos D)).
  assert (HD' : Zpos D' = 2 ^ n * Zpos D) by (unfold D'; rewrite Z2Pos.id; lia).
  rewrite <- HD' in Hnear, Htie, Hbig.
  assert (Hq : ((Zpos N * 2 ^ sft # D') * 2 ^ e
                == inject_Z (Zpos N) * 2 ^ ex / inject_Z (Zpos D))%Q).
  { rewrite Qmake_Qdiv, HD', !inject_Z_mult, <- !Qpow2_Z by lia.
    rewrite He. replace (ex - sft + n) with (ex + n - sft) by lia.
    rewrite Qpower_minus, Qpower_plus by exact Q2_neq_0.
    field. repeat split.
    - discriminate.
    - apply Qpower_not_0, Q2_neq_0.
    - apply Qpower_not_0, Q2_neq_0. }
  assert (Hfin : Float.is_finite (float_of_rounded s k e) = true).
  { apply (rounded_finite s (Zpos N * 2 ^ sft) D' k e Hnear Hk Hbig).
    rewrite Hq. exact Hmax. }
  eapply nearest_double_wd;
    [|exact (rounded_nearest s _ D' k e Hnear Htie Hk Hemin Hbig Hfin)].
  destruct s; rewrite Hq.
  - change (Zneg N) with (- Zpos N). rewrite inject_Z_opp. field. discriminate.
  - reflexivity.
Qed.

(** ** The mean and the decimal rounding *)

Lemma nearest_double_exact q x :
  is_double x = true -> (q == float_value x)%Q -> nearest_double q x.
Proof.
  intros Hx Hq.
  assert (H0 : (Qabs (float_value x - q) == 0)%Q).
  { rewrite Hq. unfold Qminus. rewrite Qplus_opp_r. reflexivity. }
  split; [exact Hx|]. split.
  - intros y _. rewrite H0. apply Qabs_nonneg.
  - intros y _ Heq Hne. exfalso. apply Hne. rewrite H0, Hq in Heq.
    assert (Hle : (Qabs (float_value y - float_value x) <= 0)%Q) by (rewrite Heq; lra).
    apply Qabs_Qle_condition in Hle. lra.
Qed.

(** *** The exact sum *)

Lemma is_double_finite x : is_double x = true -> Float.is_finite x = true.
Proof. unfold is_double. intros H. apply andb_true_iff in H. tauto. Qed.

Lemma exact_value x :
  Float.is_finite x = true ->
  (float_value x == inject_Z (fst (Float.exact x)) * 2 ^ snd (Float.exact x))%Q.
Proof.
  destruct x as [s| | |s m e]; try discriminate; intros _; cbn.
  - reflexivity.
  - reflexivity.
Qed.

Lemma min_exponent_le xs x : In x xs -> Float.min_exponent xs <= snd (Float.exact x).
Proof.
  induction xs as [|y xs IH]; [intros []|]. cbn [Float.min_exponent fold_right].
  fold (Float.min_exponent xs). intros [->|H]; [lia|]. specialize (IH H). lia.
Qed.

Lemma exact_sum_shift E xs :
  (forall x, In x xs -> E <= snd (Float.exact x)) ->
  Forall (fun x => Float.is_finite x = true) xs ->
  (inject_Z (fold_right (fun x acc => let '(m, ex) := Float.exact x in
                                      Z.shiftl m (ex - E) + acc)%Z 0%Z xs) * 2 ^ E
   == exact_total xs)%Q.
Proof.
  intros HE Hfin. induction Hfin as [|x xs Hx Hfin IH].
  - cbn. ring.
  - cbn [fold_right map exact_total]. fold (exact_total xs).
    rewrite <- IH by (intros y Hy; apply HE; right; exact Hy).
    rewrite (exact_value x Hx).
    pose proof (HE x (or_introl eq_refl)) as Hle.
    destruct (Float.exact x) as [m ex]. cbn [fst snd] in *.
    rewrite Z.shiftl_mul_pow2 by lia.
    rewrite inject_Z_plus, inject_Z_mult, (Qpow2_split E ex Hle). ring.
Qed.

Lemma exact_sum_value xs :
  Forall (fun x => Float.is_finite x = true) xs ->
  (inject_Z (fst (Float.exact_sum xs)) * 2 ^ snd (Float.exact_sum xs) == exact_total xs)%Q.
Proof.
  intros Hfin. unfold Float.exact_sum. cbn [fst snd].
  apply exact_sum_shift; [|exact Hfin]. intros x Hx. apply min_exponent_le, Hx.
Qed.

(** *** The range of the format *)

Lemma max_double_pos : (0 < max_double)%Q.
Proof.
  unfold max_double. apply Qmult_lt_0_compat; [|apply Qpow2_pos]. reflexivity.
Qed.

Lemma double_value_bound x : is_double x = true -> (Qabs (float_value x) <= max_double)%Q.
Proof.
  intros Hx. destruct x as [s|s| |s m e].
  - cbn [float_value]. apply Qlt_le_weak, max_double_pos.
  - discriminate Hx.
  - discriminate Hx.
  - unfold is_double in Hx. cbn [Float.is_finite andb] in Hx.
    destruct (valid_bounds s m e Hx) as [Hm He]. cbn [float_value].
    rewrite Qabs_Qmult, (Qabs_pos (2 ^ e)) by (apply Qlt_le_weak, Qpow2_pos).
    assert (Hsg : (Qabs (inject_Z (if s then Zneg m else Zpos m)) == inject_Z (Zpos m))%Q)
      by (destruct s; reflexivity).
    rewrite Hsg. unfold max_double. apply Qmult_le_compat_nonneg.
    + split; [rewrite <- (Zle_Qle 0); lia|rewrite <- Zle_Qle; lia].
    + split; [apply Qlt_le_weak, Qpow2_pos|apply Qpow2_le; lia].
Qed.

Lemma exact_total_bound xs :
  Forall (fun x => is_double x = true) xs ->
  (Qabs (exact_total xs) <= inject_Z (Z.of_nat (length xs)) * max_double)%Q.
Proof.
  induction 1 as [|x xs Hx Hxs IH].
  - cbn [length]. change (inject_Z (Z.of_nat 0)) with 0%Q. rewrite Qmult_0_l.
    apply Qle_refl.
  - cbn [exact_total map fold_right length]. fold (exact_total xs).
    rewrite Nat2Z.inj_succ, <- Z.add_1_r, inject_Z_plus.
    pose proof (Qabs_triangle (float_value x) (exact_total xs)) as Ht.
    pose proof (double_value_bound x Hx) as Hb.
    change (inject_Z 1) with 1%Q. lra.
Qed.

(** *** The mean *)

Lemma Zpos_of_nat n : n <> 0%nat -> Zpos (Pos.of_nat n) = Z.of_nat n.
Proof. intros H. rewrite <- positive_nat_Z, Nat2Pos.id by exact H. reflexivity. Qed.

(** [statistics.mean] of finite floats is the float nearest to their
    arithmetic mean. *)
Lemma mean_nearest xs :
  xs <> [] -> Forall (fun x => is_double x = true) xs ->
  exists mu, Float.mean xs = Ok mu /\ nearest_double (exact_mean xs) mu.
Proof.
  intros Hne Hd.
  assert (Hfin : Forall (fun x => Float.is_finite x = true) xs).
  { eapply Forall_impl; [exact Hd|]. intros x. apply is_double_finite. }
  assert (Hall : forallb Float.is_finite xs = true).
  { apply forallb_forall. intros x Hx. rewrite Forall_forall in Hfin.
    apply Hfin, list_elem_of_In, Hx. }
  pose proof (exact_sum_value xs Hfin) as Hsum.
  pose proof (exact_total_bound xs Hd) as Hbound.
  assert (Hlen : length xs <> 0%nat) by (destruct xs; [contradiction|discriminate]).
  pose proof (Zpos_of_nat (length xs) Hlen) as Hn.
  unfold exact_mean. rewrite <- Hn. unfold Float.mean.
  destruct xs as [|x0 xs']; [contradiction|]. rewrite Hall.
  set (xs := x0 :: xs') in *. set (n := Pos.of_nat (length xs)) in *.
  rewrite <- Hn in Hbound. clearbody n.
  destruct (Float.exact_sum xs) as [M E]. cbn [fst snd] in Hsum.
  assert (Hnpos : (0 < inject_Z (Zpos n))%Q) by (rewrite <- (Zlt_Qlt 0); lia).
  remember (exact_total xs) as total eqn:Htotal. clear Htotal.
  eexists. split; [reflexivity|]. unfold Float.of_scaled_ratio.
  destruct M as [|p|p].
  - apply nearest_double_exact; [reflexivity|]. cbn [float_value].
    rewrite <- Hsum. change (inject_Z 0) with 0%Q. field.
    intros H0. rewrite H0 in Hnpos. exact (Qlt_irrefl _ Hnpos).
  - eapply nearest_double_wd; [|apply (div_nearest false p E n)].
    + rewrite Hsum. reflexivity.
    + apply Qle_shift_div_r; [exact Hnpos|]. rewrite Hsum.
      pose proof (Qle_Qabs total). rewrite Qmult_comm. lra.
  - eapply nearest_double_wd; [|apply (div_nearest true p E n)].
    + rewrite Hsum. reflexivity.
    + apply Qle_shift_div_r; [exact Hnpos|].
      assert (Hneg : (inject_Z (Zpos p) * 2 ^ E == - total)%Q).
      { rewrite <- Hsum. change (Zneg p) with (- Zpos p). rewrite inject_Z_opp. ring. }
      rewrite Hneg. pose proof (Qle_Qabs (- total)) as H. rewrite Qabs_opp in H.
      rewrite Qmult_comm. lra.
Qed.

(** *** Rounding to decimal places *)

Lemma round_half_even_shift_spec a k :
  0 < k -> 0 <= a ->
  let r := Float.round_half_even_shift a k in
  0 <= r
  /\ r * 2 ^ k <= a + 2 ^ k
  /\ (2 * Z.abs (a - r * 2 ^ k) = 2 ^ k -> Z.even r = true).
Proof.
  intros Hk Ha. cbv zeta. unfold Float.round_half_even_shift.
  rewrite Z.shiftr_div_pow2, !Z.shiftl_mul_pow2 by lia.
  assert (Hd : 2 ^ k = 2 * 2 ^ (k - 1)).
  { replace k with (1 + (k - 1)) at 1 by lia. rewrite Z.pow_add_r by lia. reflexivity. }
  assert (Hh : 0 < 2 ^ (k - 1)) by (apply Z.pow_pos_nonneg; lia).
  pose proof (Z.div_mod a (2 ^ k) ltac:(lia)) as Hdm.
  pose proof (Z.mod_pos_bound a (2 ^ k) ltac:(lia)) as Hm.
  assert (Hq : 0 <= a / 2 ^ k) by (apply Z.div_pos; lia).
  generalize dependent (a / 2 ^ k). generalize dependent (a mod 2 ^ k).
  intros r Hr q Hdm Hq. rewrite Z.mul_1_l.
  replace (a - q * 2 ^ k) with r by lia.
  destruct (Z.ltb_spec r (2 ^ (k - 1))) as [H1|H1].
  - split; [lia|]. split; [lia|]. intros Ht. lia.
  - destruct (Z.ltb_spec (2 ^ (k - 1)) r) as [H2|H2].
    + split; [lia|]. split; [lia|]. intros Ht. lia.
    + destruct (Z.even q) eqn:Hev.
      * split; [lia|]. split; [lia|]. intros _. exact Hev.
      * split; [lia|]. split; [lia|]. intros _. rewrite Z.even_add, Hev. reflexivity.
Qed.

Lemma nearest_integer_wd q q' k : (q == q')%Q -> nearest_integer q k -> nearest_integer q' k.
Proof. intros Hq [H1 H2]. split; [rewrite <- Hq; exact H1|rewrite <- Hq; exact H2]. Qed.

Lemma nearest_integer_opp q k : nearest_integer q k -> nearest_integer (- q) (- k).
Proof.
  intros [H1 H2].
  assert (E : (Qabs (inject_Z (- k) - - q) == Qabs (inject_Z k - q))%Q).
  { rewrite <- (Qabs_opp (inject_Z k - q)). apply Qabs_wd. rewrite inject_Z_opp. ring. }
  split; [rewrite E; exact H1|]. rewrite E, Z.even_opp. exact H2.
Qed.

Lemma nearest_integer_exact k : nearest_integer (inject_Z k) k.
Proof.
  assert (E : (Qabs (inject_Z k - inject_Z k) == 0)%Q).
  { unfold Qminus. rewrite Qplus_opp_r. reflexivity. }
  split; [rewrite E; discriminate|]. rewrite E. discriminate.
Qed.

Lemma max_double_large : (inject_Z (2 ^ 53) <= max_double)%Q.
Proof. unfold Qle. vm_compute. discriminate. Qed.

(** [round(x, 5)] of a finite float: the number of [x] times [10^5] is
    rounded to the nearest integer, the even one of two, and the result is
    the float nearest to that integer divided by [10^5]. *)
Lemma round_nearest mu :
  is_double mu = true ->
  exists k,
    nearest_integer (float_value mu * inject_Z 100000) k
    /\ nearest_double (inject_Z k / inject_Z 100000) (Float.round mu 5).
Proof.
  intros Hmu. destruct mu as [s|s| |s m e]; try discriminate Hmu.
  - exists 0. split.
    + eapply nearest_integer_wd; [|apply nearest_integer_exact]. cbn [float_value]. ring.
    + apply nearest_double_exact; [exact Hmu|]. reflexivity.
  - pose proof Hmu as Hv. unfold is_double in Hv. cbn [Float.is_finite andb] in Hv.
    destruct (valid_bounds s m e Hv) as [Hm He].
    set (sg := if s then Zneg m else Zpos m).
    destruct (Z.le_gt_cases 0 e) as [Hpos|Hneg].
    + (* an integer *)
      assert (Hr : Float.round (S754_finite s m e) 5 = S754_finite s m e)
        by (destruct e; try lia; reflexivity).
      rewrite Hr. exists (sg * 2 ^ e * 100000).
      assert (Hval : (float_value (S754_finite s m e)
                      == inject_Z (sg * 2 ^ e))%Q).
      { cbn [float_value]. fold sg. rewrite inject_Z_mult, <- Qpow2_Z by lia. reflexivity. }
      split.
      * eapply nearest_integer_wd; [|apply nearest_integer_exact].
        rewrite Hval, <- inject_Z_mult. reflexivity.
      * apply nearest_double_exact; [exact Hmu|].
        rewrite Hval, inject_Z_mult. field; discriminate.
    + destruct e as [|pe|pe]; try lia.
      unfold Float.round. change (10 ^ 5) with 100000.
      destruct (round_half_even_shift_spec (Zpos m * 100000) (Zpos pe) ltac:(lia) ltac:(lia))
        as (Hr0 & Hrle & Hrtie).
      pose proof (round_half_even_shift_nearest (Zpos m * 100000) (Zpos pe) ltac:(lia))
        as Hrnear.
      set (r := Float.round_half_even_shift (Zpos m * 100000) (Zpos pe)) in *.
      clearbody r.
      set (D := (2 ^ pe)%positive).
      assert (HD : Zpos D = 2 ^ Zpos pe) by (unfold D; apply Pos2Z.inj_pow).
      rewrite <- HD in Hrnear, Hrtie, Hrle.
      pose proof (nearest_integer_Z (Zpos m * 100000) D r Hrnear Hrtie) as Hint.
      assert (Hq : ((Zpos m * 100000 # D)
                    == inject_Z (Zpos m) * 2 ^ Zneg pe * inject_Z 100000)%Q).
      { rewrite Qmake_Qdiv, HD, inject_Z_mult, <- Qpow2_Z by lia.
        change (Zneg pe) with (- Zpos pe). rewrite Qpower_opp. field.
        apply Qpower_not_0, Q2_neq_0. }
      exists (if s then - r else r). split.
      * cbn [float_value]. destruct s.
        -- eapply nearest_integer_wd; [|apply nearest_integer_opp, Hint].
           rewrite Hq. change (Zneg m) with (- Zpos m). rewrite inject_Z_opp. ring.
        -- eapply nearest_integer_wd; [|exact Hint]. exact Hq.
      * destruct r as [|pr|pr]; try lia.
        -- apply nearest_double_exact; [reflexivity|]. cbn [float_value].
           destruct s; change (inject_Z (- 0)) with 0%Q; change (inject_Z 0) with 0%Q;
             field; discriminate.
        -- eapply nearest_double_wd; [|apply (div_nearest s pr 0 (Z.to_pos 100000))].
           ++ change (Zpos (Z.to_pos 100000)) with 100000. rewrite Qpower_0_r.
              destruct s; [change (- Zpos pr) with (Zneg pr)|]; field; discriminate.
           ++ change (Zpos (Z.to_pos 100000)) with 100000. rewrite Qpower_0_r.
              eapply Qle_trans; [|exact max_double_large].
              apply Qle_shift_div_r; [reflexivity|]. rewrite Qmult_1_r, <- inject_Z_mult.
              rewrite <- Zle_Qle.
              assert (0 < 2 ^ Zpos pe) by (apply Z.pow_pos_nonneg; lia).
              assert (2 <= Zpos D).
              { rewrite HD. change 2 with (2 ^ 1) at 1. apply Z.pow_le_mono_r; lia. }
              nia.
Qed.

(** A quotient of two positive integers, as a literal or a division of
    integers gives it, is the float nearest to it. *)
Lemma of_ratio_nearest (n d : positive) :
  (Zpos n # d <= max_double)%Q ->
  nearest_double (Zpos n # d) (Float.of_ratio (Zpos n) d).
Proof.
  intros Hmax. unfold Float.of_ratio.
  assert (Hq : (inject_Z (Zpos n) * 2 ^ 0 / inject_Z (Zpos d) == Zpos n # d)%Q).
  { rewrite (Qmake_Qdiv (Zpos n) d), Qpower_0_r. field. discriminate. }
  eapply nearest_double_wd; [exact Hq|].
  apply (div_nearest false n 0 d). rewrite Hq. exact Hmax.
Qed.

(** C8.  In a transaction the engine yields, the mean reward of each batch
    is [round(mean(rewards), 5)] of the rewards the simulation's reward
    function returned for the choices of that batch.  For rewards that are
    finite floats this is: the float nearest to the arithmetic mean of the
    rewards, taken exactly; its number times [10^5] rounded to the nearest
    integer; and the float nearest to that integer divided by [10^5], ties
    going to the even significand and the even integer.  The floats 0.2,
    0.4, 0.6, 1/3 and 0.33333 are the floats nearest to these numbers; the
    rewards 0.2, 0.4, 0.6 give 0.4, and three times 1/3 gives 0.33333. *)
Theorem recorded_mean_reward sim lrn l s bs tr t :
  evaluate sim lrn l s bs = (tr, Ok t) ->
  Forall3 (observed (reward s)) bs (recorded_observations tr) (t_reward t)
  /\ (forall rewards, mean_reward rewards
        = result_bind (Float.mean rewards) (fun m => Ok (Float.round m 5)))
  /\ (forall rewards,
        rewards <> [] -> Forall (fun r => is_double r = true) rewards ->
        exists mu k m,
          mean_reward rewards = Ok m
          /\ nearest_double (exact_mean rewards) mu
          /\ nearest_integer (float_value mu * inject_Z 100000) k
          /\ nearest_double (inject_Z k / inject_Z 100000) m)
  /\ (nearest_double (2 # 10) f_0_2 /\ nearest_double (4 # 10) f_0_4
      /\ nearest_double (6 # 10) f_0_6 /\ nearest_double (1 # 3) f_1_3
      /\ nearest_double (33333 # 100000) f_0_33333)
  /\ mean_reward [f_0_2; f_0_4; f_0_6] = Ok f_0_4
  /\ mean_reward [f_1_3; f_1_3; f_1_3] = Ok f_0_33333.
Proof.
  intros H. destruct (evaluate_Ok _ _ _ _ _ _ _ H)
    as (l0 & calls & l1 & _ & Hpb & -> & _).
  split; [|split; [reflexivity|split; [|split; [|split; vm_compute; reflexivity]]]].
  - unfold recorded_observations. simpl. rewrite flat_map_calls.
    eapply process_batches_observed. exact Hpb.
  - intros rewards Hne Hd.
    destruct (mean_nearest rewards Hne Hd) as (mu & Hmean & Hmu).
    destruct (round_nearest mu (proj1 Hmu)) as (k & Hk & Hm).
    exists mu, k, (Float.round mu 5). unfold mean_reward. rewrite Hmean.
    split; [reflexivity|]. split; [exact Hmu|]. split; [exact Hk|exact Hm].
  - repeat split; apply of_ratio_nearest; unfold Qle; vm_compute; discriminate.
Qed.

Lemma recorded_mean_reward_witness :
  Forall3 (observed fixed_reward) [[interaction_1; interaction_2; interaction_3]]
    (recorded_observations
       (fst (evaluate 0 0 (adapter even_learner) batched_simulation
               (batchify batched_simulation))))
    [f_0_4].
Proof.
  apply (recorded_mean_reward 0 0 (adapter even_learner) batched_simulation
           (batchify batched_simulation)
           (fst (evaluate 0 0 (adapter even_learner) batched_simulation
                   (batchify batched_simulation)))
           {| t_sim_id := 0; t_lrn_id := 0; t_C := [1]; t_A := [2]; t_N := [3];
              t_reward := [f_0_4] |}).
  vm_compute. reflexivity.
Defined.
